(** * RedFruitCOT: the iterative response refiner and its HTML report

    A shallow embedding of [redfruit.py] and [htmlize.py].

    Texts are Python [str] values.  A character is modelled by [ascii], read
    as the code point of the same number, so the development covers texts
    whose code points lie below 256; the character classes of [re] and of
    [str.strip] are the ones Python uses on that range. *)

From Stdlib Require Import List Ascii ZArith NArith Arith Lia Bool.
From Stdlib Require String.
Import String.StringSyntax Ascii.AsciiSyntax.
From Stdlib Require Import Permutation Sorted.
Import ListNotations.

Set Implicit Arguments.
Local Open Scope string_scope.
Local Open Scope list_scope.

(** ** Texts and character classes *)

Definition text := list ascii.

(** A string literal, as a text. *)
Definition str (s : String.string) : text := String.list_ascii_of_string s.

Definition code (c : ascii) : N := N_of_ascii c.

Definition between (lo hi : N) (c : ascii) : bool :=
  (N.leb lo (code c) && N.leb (code c) hi)%bool.

(** [str.isspace], which is also the class [\s] of a [str] pattern. *)
Definition is_space (c : ascii) : bool :=
  (between 9 13 c || between 28 32 c || N.eqb (code c) 133
   || N.eqb (code c) 160)%bool.

(** The class [\d] of a [str] pattern (decimal digits). *)
Definition is_digit (c : ascii) : bool := between 48 57 c.

(** The class [\w] of a [str] pattern: alphanumerics and the underscore. *)
Definition is_word (c : ascii) : bool :=
  (between 48 57 c || between 65 90 c || N.eqb (code c) 95
   || between 97 122 c
   || N.eqb (code c) 170 || between 178 179 c || N.eqb (code c) 181
   || between 185 186 c || between 188 190 c
   || between 192 214 c || between 216 246 c || between 248 255 c)%bool.

Definition nl : ascii := "010"%char.
Definition dquote : ascii := "034"%char.
Definition minus_sign : ascii := "-"%char.

(** *** [str.strip] *)

Fixpoint lstrip (s : text) : text :=
  match s with
  | c :: s' => if is_space c then lstrip s' else s
  | [] => []
  end.

Definition rstrip (s : text) : text := rev (lstrip (rev s)).

Definition strip (s : text) : text := rstrip (lstrip s).

(** *** Prefixes, [in], [str.replace], [str.split] *)

Fixpoint starts_with (p s : text) : bool :=
  match p, s with
  | [], _ => true
  | _ :: _, [] => false
  | a :: p', b :: s' => (Ascii.eqb a b && starts_with p' s')%bool
  end.

(** [sub in s] *)
Fixpoint contains (sub s : text) : bool :=
  (starts_with sub s
   || match s with [] => false | _ :: s' => contains sub s' end)%bool.

(** The scan of [s.replace(old, new)] for a non-empty [old]: left to right,
    occurrences do not overlap.  [skip] counts the characters of a matched
    occurrence still to be passed over. *)
Fixpoint replace_scan (old new : text) (skip : nat) (s : text) : text :=
  match s with
  | [] => []
  | c :: s' =>
      match skip with
      | S k => replace_scan old new k s'
      | O =>
          if starts_with old s
          then new ++ replace_scan old new (length old - 1) s'
          else c :: replace_scan old new 0 s'
      end
  end.

Definition replace (old new s : text) : text :=
  match old with
  | [] => new ++ flat_map (fun c => c :: new) s
  | _ :: _ => replace_scan old new 0 s
  end.

(** The scan of [s.split(sep)] for a non-empty [sep]; [cur] is the current
    piece, reversed. *)
Fixpoint split_scan (sep : text) (skip : nat) (cur : text) (s : text)
  : list text :=
  match s with
  | [] => [rev cur]
  | c :: s' =>
      match skip with
      | S k => split_scan sep k cur s'
      | O =>
          if starts_with sep s
          then rev cur :: split_scan sep (length sep - 1) [] s'
          else split_scan sep 0 (c :: cur) s'
      end
  end.

(** [s.split(sep)] for a non-empty [sep] (Python raises [ValueError] on an
    empty one; the only separator of this program is the marker). *)
Definition split (sep s : text) : list text := split_scan sep 0 [] s.

(** *** Integers and text *)

Definition digit_val (c : ascii) : Z := (Z.of_N (code c) - 48)%Z.

Definition digits_val (ds : text) : Z :=
  fold_left (fun acc c => (10 * acc + digit_val c)%Z) ds 0%Z.

(** [int(s)] on the texts the grade pattern can produce: an optional sign
    and at least one decimal digit.  [None] stands for [ValueError]. *)
Definition int_of_text (s : text) : option Z :=
  let body (ds : text) :=
    match ds with
    | [] => None
    | _ :: _ => if forallb is_digit ds then Some (digits_val ds) else None
    end in
  match s with
  | c :: ds =>
      if Ascii.eqb c minus_sign then option_map Z.opp (body ds)
      else if Ascii.eqb c "+" then body ds
      else body s
  | [] => None
  end.

Definition digit_char (n : nat) : ascii := ascii_of_nat (48 + n).

Fixpoint nat_digits (fuel n : nat) (acc : text) : text :=
  match fuel with
  | O => acc
  | S fuel' =>
      let acc' := digit_char (n mod 10) :: acc in
      if n <? 10 then acc' else nat_digits fuel' (n / 10) acc'
  end.

(** [str(n)] for an [int]. *)
Definition text_of_Z (z : Z) : text :=
  let n := Z.abs_nat z in
  let ds := nat_digits (S n) n [] in
  if (z <? 0)%Z then minus_sign :: ds else ds.

(** ** The fragment of [re] that the grade pattern uses *)

Inductive regex : Type :=
| Eps
| Chr (c : ascii)                                   (* a literal *)
| Rep (lo : nat) (hi : option nat) (p : ascii -> bool)
      (* greedy repetition of a character class: [p{lo,hi}], [p?], [p*] *)
| WordB                                             (* [\b] *)
| Look (r : regex)                                  (* [(?=r)] *)
| Seq (r1 r2 : regex).

(** [\b]: exactly one of the two neighbours is a word character; the text's
    ends count as non-word.  [before] is the consumed text, reversed. *)
Definition head_is_word (s : text) : bool :=
  match s with c :: _ => is_word c | [] => false end.

Definition at_boundary (before after : text) : bool :=
  xorb (head_is_word before) (head_is_word after).

Section Matcher.
Variable A : Type.

(** Greedy repetition with backtracking: take one more character when
    allowed, and fall back to stopping here when the rest fails. *)
Fixpoint rep (p : ascii -> bool) (lo : nat) (hi : option nat)
    (k : text -> text -> option A) (before after : text) : option A :=
  let stop := match lo with O => k before after | S _ => None end in
  match hi with
  | Some O => stop
  | _ =>
      match after with
      | c :: after' =>
          if p c then
            match rep p (pred lo) (option_map pred hi) k
                      (c :: before) after' with
            | Some x => Some x
            | None => stop
            end
          else stop
      | [] => stop
      end
  end.
End Matcher.

(** The backtracking matcher, in continuation-passing style: [k] is what
    remains to be matched. *)
Fixpoint rx (r : regex) (A : Type) (k : text -> text -> option A)
    (before after : text) : option A :=
  match r with
  | Eps => k before after
  | Chr c =>
      match after with
      | x :: after' =>
          if Ascii.eqb x c then k (x :: before) after' else None
      | [] => None
      end
  | Rep lo hi p => rep p lo hi k before after
  | WordB => if at_boundary before after then k before after else None
  | Look r' =>
      match rx r' (fun _ _ => Some tt) before after with
      | Some _ => k before after
      | None => None
      end
  | Seq r1 r2 => rx r1 (rx r2 k) before after
  end.

(** A match starting here: the matched text, [group(0)]. *)
Definition match_here (r : regex) (before after : text) : option text :=
  rx r (fun _ after' => Some (firstn (length after - length after') after))
     before after.

(** [re.search]: the leftmost start position that matches. *)
Fixpoint search_from (r : regex) (before after : text) : option text :=
  match match_here r before after with
  | Some m => Some m
  | None =>
      match after with
      | [] => None
      | c :: after' => search_from r (c :: before) after'
      end
  end.

Definition re_search (r : regex) (s : text) : option text :=
  search_from r [] s.

Definition lit (s : String.string) : regex :=
  fold_right (fun c r => Seq (Chr c) r) Eps (str s).

Definition spaces : regex := Rep 0 None is_space.

(** [\b-?\d{1,3}\b], the group of the pattern. *)
Definition grade_number : regex :=
  Seq WordB
    (Seq (Rep 0 (Some 1) (Ascii.eqb minus_sign))
      (Seq (Rep 1 (Some 3) is_digit) WordB)).

(** [\s*out\s*of\s*100], the body of the lookahead. *)
Definition out_of_100 : regex :=
  Seq spaces (Seq (lit "out")
    (Seq spaces (Seq (lit "of") (Seq spaces (lit "100"))))).

(** [(\b-?\d{1,3}\b)(?=\s*out\s*of\s*100)] *)
Definition grade_pattern : regex := Seq grade_number (Look out_of_100).

(** ** Exceptions *)

Inductive exn : Type :=
| ClientError (msg : text)
| ValueError (msg : text)
| KeyError (key : text)
| IndexError
| TypeError.

Inductive result (A : Type) : Type :=
| Ok (a : A)
| Raise (e : exn).
Arguments Ok {A} a.
Arguments Raise {A} e.

(** The tail of [grade_response] (lines 68-73): the grade of a grading
    text, or [ValueError]. *)
Definition extract_grade (grading_text : text) : result Z :=
  match re_search grade_pattern grading_text with
  | Some m =>
      match int_of_text m with
      | Some z => Ok z
      | None => Raise (ValueError m)
      end
  | None =>
      Raise (ValueError
        (str "Could not extract a valid grade from the response: "
         ++ grading_text))
  end.


(** ** The model-invocation collaborator and the world *)

(** What [generate_conversation] reads from the value [converse] returns. *)
Record reply : Type := {
  rtext : text;            (* ['output']['message']['content'][0]['text'] *)
  inputTokens : Z;
  outputTokens : Z;
  totalTokens : Z;
  stopReason : text
}.

Inductive answer : Type :=
| Answer (r : reply)
| ClientFailure (msg : text).   (* [ClientError]; [msg] is its message *)

(** The arguments of [converse] that vary; temperature 0.5 and top_p 0.9
    are constants of every call. *)
Record request : Type := {
  modelId : text;
  system : text;
  messages : list text;      (* the texts of the user messages *)
  maxTokens : Z
}.

Inductive level : Type := INFO | ERROR.

Inductive event : Type :=
| EvCall (q : request) (a : answer)
| EvLog (l : level) (msg : text)
| EvOpen (path : text)             (* [open(path, 'w')]: truncates *)
| EvWrite (path : text) (data : text)
| EvClose (path : text)
| EvPrint (msg : text).

(** [events] holds the newest event first. *)
Record world : Type := {
  calls : nat;               (* calls of [converse] so far *)
  ticks : nat;               (* readings of the clock so far *)
  events : list event
}.

Definition world0 : world := {| calls := 0; ticks := 0; events := [] |}.

Definition history (w : world) : list event := rev (events w).

(** The content of the file at [path] after a chronological list of events;
    [None] when the program never opened it. *)
Definition file_step (path : text) (cur : option text) (e : event)
  : option text :=
  match e with
  | EvOpen p => if list_eq_dec ascii_dec p path then Some [] else cur
  | EvWrite p d =>
      if list_eq_dec ascii_dec p path
      then match cur with Some c => Some (c ++ d) | None => None end
      else cur
  | _ => cur
  end.

Definition file_content (path : text) (w : world) : option text :=
  fold_left (file_step path) (history w) None.

(** ** The state and exception monad of the scripts *)

Definition M (A : Type) : Type := world -> result A * world.

Definition ret {A} (a : A) : M A := fun w => (Ok a, w).

Definition raise {A} (e : exn) : M A := fun w => (Raise e, w).

Definition bind {A B} (m : M A) (f : A -> M B) : M B :=
  fun w =>
    match m w with
    | (Ok a, w') => f a w'
    | (Raise e, w') => (Raise e, w')
    end.

Declare Scope M_scope.
Delimit Scope M_scope with M.
Notation "x <- m ;; k" := (bind m (fun x => k))
  (at level 61, m at next level, right associativity) : M_scope.
Notation "m ;; k" := (bind m (fun _ => k))
  (at level 61, right associativity) : M_scope.
Local Open Scope M_scope.

Definition emit (e : event) : M unit :=
  fun w => (Ok tt, {| calls := calls w; ticks := ticks w;
                      events := e :: events w |}).

Definition lift {A} (r : result A) : M A := fun w => (r, w).

Definition log (l : level) (msg : text) : M unit := emit (EvLog l msg).
Definition print (msg : text) : M unit := emit (EvPrint msg).
Definition write (path data : text) : M unit := emit (EvWrite path data).

(** [with open(path, 'w') as file: body]: the file is closed on every exit. *)
Definition with_open_w {A} (path : text) (body : M A) : M A :=
  fun w =>
    let (r, w') := (emit (EvOpen path) ;; body) w in
    (r, snd (emit (EvClose path) w')).

(** [d[key]] on a key that may be absent. *)
Definition getitem {A} (key : String.string) (v : option A) : M A :=
  match v with
  | Some a => ret a
  | None => raise (KeyError (str key))
  end.

(** [str(x)] of a value that may be [None]. *)
Definition format_opt {A} (f : A -> text) (v : option A) : text :=
  match v with Some a => f a | None => str "None" end.

(** [sorted(l, key=key, reverse=True)] on integer keys: stable, equal keys
    keep the order of [l]. *)
Fixpoint insert_desc {A} (key : A -> Z) (x : A) (l : list A) : list A :=
  match l with
  | [] => [x]
  | y :: l' =>
      if (key x <? key y)%Z then y :: insert_desc key x l' else x :: l
  end.

Definition sorted_desc {A} (key : A -> Z) (l : list A) : list A :=
  fold_right (insert_desc key) [] l.

(** ** redfruit.py *)

Section Refiner.
(** Floating-point time: the type of [time.time()] values, their
    difference and the format [.2f] are parameters. *)
Variable T : Type.
Variable tsub : T -> T -> T.
Variable fmt2f : T -> text.

(** The Bedrock client and the clock, by call number. *)
Record env : Type := {
  converse : nat -> request -> answer;
  time : nat -> T
}.

Variable E : env.

Definition now : M T :=
  fun w => (Ok (time E (ticks w)),
            {| calls := calls w; ticks := S (ticks w);
               events := events w |}).

Definition call_converse (q : request) : M reply :=
  fun w =>
    let a := converse E (calls w) q in
    let w' := {| calls := S (calls w); ticks := ticks w;
                 events := EvCall q a :: events w |} in
    match a with
    | Answer r => (Ok r, w')
    | ClientFailure msg => (Raise (ClientError msg), w')
    end.

Definition generate_conversation (model_id system_prompts : text)
    (msgs : list text) (max_gen_len : Z) : M reply :=
  log INFO (str "Generating message with model " ++ model_id) ;;
  response <- call_converse {| modelId := model_id;
                               system := system_prompts;
                               messages := msgs;
                               maxTokens := max_gen_len |} ;;
  log INFO (str "Input tokens: " ++ text_of_Z (inputTokens response)) ;;
  log INFO (str "Output tokens: " ++ text_of_Z (outputTokens response)) ;;
  log INFO (str "Total tokens: " ++ text_of_Z (totalTokens response)) ;;
  log INFO (str "Stop reason: " ++ stopReason response) ;;
  ret response.

Definition feedback_prompt (response : text) : text :=
  str "Provide critical feedback for the following answer:"
  ++ [nl; nl] ++ response.

Definition get_feedback (model_id response system_prompts : text)
  : M text :=
  feedback_response <-
    generate_conversation model_id system_prompts
      [feedback_prompt response] 512 ;;
  ret (rtext feedback_response).

Definition grading_prompt (response feedback : text) : text :=
  str "Grade the following response on a scale from -100 to 100 based on the feedback:"
  ++ [nl; nl] ++ str "Response: " ++ response
  ++ [nl] ++ str "Feedback: " ++ feedback.

Definition grade_response (model_id response feedback system_prompts : text)
  : M Z :=
  grading_response <-
    generate_conversation model_id system_prompts
      [grading_prompt response feedback] 100 ;;
  let grading_text := strip (rtext grading_response) in
  log INFO (str "Grading response: " ++ grading_text) ;;
  lift (extract_grade grading_text).

(** One element of [responses]: a dict.  [feedback] and [grade] start as
    [None]; the keys [feedback_time_taken] and [grade_time_taken] are
    absent until the first round sets them. *)
Record candidate : Type := {
  response : text;
  feedback : option text;
  grade : option Z;
  time_taken : T;
  feedback_time_taken : option T;
  grade_time_taken : option T
}.

Definition set_response (c : candidate) (t : text) : candidate :=
  {| response := t; feedback := feedback c; grade := grade c;
     time_taken := time_taken c;
     feedback_time_taken := feedback_time_taken c;
     grade_time_taken := grade_time_taken c |}.

Definition model_id : text := str "meta.llama3-70b-instruct-v1:0".

Definition system_prompts : text :=
  str "You are a highly technical assistant providing concise and accurate reports on complex deep learning topics.".

Definition message_1 : text :=
  str "Provide a concise and technical explanation of transformers in deep learning.".

Definition response_txt : text := str "response.txt".

(** Lines 104-108: one initial response. *)
Definition seed : M candidate :=
  response_start_time <- now ;;
  r <- generate_conversation model_id system_prompts [message_1] 1024 ;;
  t <- now ;;
  ret {| response := rtext r; feedback := None; grade := None;
         time_taken := tsub t response_start_time;
         feedback_time_taken := None; grade_time_taken := None |}.

Fixpoint seeds (n : nat) : M (list candidate) :=
  match n with
  | O => ret []
  | S n' => c <- seed ;; cs <- seeds n' ;; ret (c :: cs)
  end.

(** Lines 114-126: feedback and grade of one candidate. *)
Definition assess (r : candidate) : M candidate :=
  feedback_start_time <- now ;;
  fb <- get_feedback model_id (response r) system_prompts ;;
  t1 <- now ;;
  grade_start_time <- now ;;
  g <- grade_response model_id (response r) fb system_prompts ;;
  t2 <- now ;;
  ret {| response := response r; feedback := Some fb; grade := Some g;
         time_taken := time_taken r;
         feedback_time_taken := Some (tsub t1 feedback_start_time);
         grade_time_taken := Some (tsub t2 grade_start_time) |}.

Fixpoint assess_all (rs : list candidate) : M (list candidate) :=
  match rs with
  | [] => ret []
  | r :: rs' => r' <- assess r ;; rs'' <- assess_all rs' ;; ret (r' :: rs'')
  end.

Definition has_grade (c : candidate) : bool :=
  match grade c with Some _ => true | None => false end.

Definition grade_key (c : candidate) : Z :=
  match grade c with Some g => g | None => 0%Z end.

(** Line 129.  Comparing a [None] key raises [TypeError]. *)
Definition sorted_by_grade (rs : list candidate)
  : result (list candidate) :=
  match rs with
  | [] | [_] => Ok rs
  | _ =>
      if forallb has_grade rs then Ok (sorted_desc grade_key rs)
      else Raise TypeError
  end.

Definition refinement_prompt (best_response : text) : text :=
  str "Refine the following response to make it more concise and technical but retain information:"
  ++ [nl; nl] ++ best_response.

(** Lines 131-141, on the sorted list. *)
Definition refine_best (iteration : nat) (rs : list candidate)
  : M (list candidate) :=
  match rs with
  | [] => raise IndexError
  | best :: rest =>
      log INFO (str "Best response at iteration "
                ++ text_of_Z (Z.of_nat iteration + 1) ++ str ": "
                ++ response best ++ str " (Grade: "
                ++ format_opt text_of_Z (grade best) ++ str ")") ;;
      refined_response <-
        generate_conversation model_id system_prompts
          [refinement_prompt (response best)] 1024 ;;
      ret (set_response best (rtext refined_response) :: rest)
  end.

(** Lines 112-141: one iteration of the loop. *)
Definition round (iteration : nat) (rs : list candidate)
  : M (list candidate) :=
  log INFO (str "Iteration " ++ text_of_Z (Z.of_nat iteration + 1)) ;;
  graded <- assess_all rs ;;
  ranked <- lift (sorted_by_grade graded) ;;
  refine_best iteration ranked.

Fixpoint rounds (n iteration : nat) (rs : list candidate)
  : M (list candidate) :=
  match n with
  | O => ret rs
  | S n' => rs' <- round iteration rs ;; rounds n' (S iteration) rs'
  end.

Definition separator : text := repeat "="%char 40 ++ [nl].

(** Lines 151-157. *)
Definition write_candidate (i : nat) (r : candidate) : M unit :=
  write response_txt
    ([nl] ++ str "Response " ++ text_of_Z (Z.of_nat i + 1) ++ str ":"
     ++ [nl]) ;;
  write response_txt (str "Response: " ++ response r ++ [nl]) ;;
  write response_txt
    (str "Feedback: " ++ format_opt (fun t => t) (feedback r) ++ [nl]) ;;
  write response_txt
    (str "Grade: " ++ format_opt text_of_Z (grade r) ++ [nl]) ;;
  write response_txt
    (str "Response generation time: " ++ fmt2f (time_taken r)
     ++ str " seconds" ++ [nl]) ;;
  ft <- getitem "feedback_time_taken" (feedback_time_taken r) ;;
  write response_txt
    (str "Feedback generation time: " ++ fmt2f ft ++ str " seconds"
     ++ [nl]) ;;
  gt <- getitem "grade_time_taken" (grade_time_taken r) ;;
  write response_txt
    (str "Grading time: " ++ fmt2f gt ++ str " seconds" ++ [nl]).

Fixpoint write_candidates (i : nat) (rs : list candidate) : M unit :=
  match rs with
  | [] => ret tt
  | r :: rs' => write_candidate i r ;; write_candidates (S i) rs'
  end.

(** Lines 147-159. *)
Definition write_summary (total_time_taken : T) (rs : list candidate)
  : M unit :=
  write response_txt ([nl] ++ str "SUMMARY OF PROCESS" ++ [nl]) ;;
  write response_txt separator ;;
  write response_txt
    (str "Total time taken for the process: " ++ fmt2f total_time_taken
     ++ str " seconds" ++ [nl]) ;;
  write_candidates 0 rs ;;
  write response_txt separator ;;
  match rs with
  | [] => raise IndexError
  | best :: _ =>
      write response_txt
        (str "Best response: " ++ response best ++ str " (Grade: "
         ++ format_opt text_of_Z (grade best) ++ str ")" ++ [nl])
  end.

(** Lines 94-159: the body of the [try]. *)
Definition main_body (num_iterations : nat) : M unit :=
  start_time <- now ;;
  with_open_w response_txt
    (rs <- seeds 3 ;;
     rs <- rounds num_iterations 0 rs ;;
     t <- now ;;
     write_summary (tsub t start_time) rs).

(** [main]: [except ClientError] logs and prints the message; any other
    exception leaves the function. *)
Definition main (num_iterations : nat) : M unit :=
  fun w =>
    match main_body num_iterations w with
    | (Raise (ClientError msg), w') =>
        (log ERROR (str "A client error occurred: " ++ msg) ;;
         print (str "A client error occurred: " ++ msg)) w'
    | other => other
    end.
End Refiner.

(** ** htmlize.py *)

(** [html.escape(s)] with its default [quote=True]: five replacements, the
    ampersand first. *)
Definition escape (s : text) : text :=
  let s := replace (str "&") (str "&amp;") s in
  let s := replace (str "<") (str "&lt;") s in
  let s := replace (str ">") (str "&gt;") s in
  let s := replace [dquote] (str "&quot;") s in
  replace (str "'") (str "&#x27;") s.

Definition marker : text := str "SUMMARY OF PROCESS".

(** Lines 16-18. *)
Definition split_content (content : text) : text * text :=
  let parts := split marker content in
  let response := strip (nth 0 parts []) in
  let summary :=
    if 1 <? length parts then strip (nth 1 parts []) else [] in
  (response, summary).

(** The expression interpolated at lines 39 and 43. *)
Definition bold_open (s : text) : text :=
  replace (str "**") (str "<strong>") s.

Definition bold_close (s : text) : text :=
  replace (str "</strong>**") (str "</strong>") s.

Definition paragraphs (s : text) : text :=
  replace [nl; nl] (str "</p><p>") s.

Definition line_breaks (s : text) : text := replace [nl] (str "<br>") s.

Definition render_text (s : text) : text :=
  line_breaks (paragraphs (bold_close (bold_open (escape s)))).

Definition template_head : text :=
  concat
    [
     [nl];
     str "    <!DOCTYPE html>"; [nl];
     str "    <html lang="; [dquote]; str "en"; [dquote]; str ">"; [nl];
     str "    <head>"; [nl];
     str "        <meta charset="; [dquote]; str "UTF-8"; [dquote]; str ">"; [nl];
     str "        <meta name="; [dquote]; str "viewport"; [dquote]; str " content="; [dquote]; str "width=device-width, initial-scale=1.0"; [dquote]; str ">"; [nl];
     str "        <title>COT Python Script Response</title>"; [nl];
     str "        <style>"; [nl];
     str "            body { font-family: Arial, sans-serif; line-height: 1.6; padding: 20px; }"; [nl];
     str "            h1, h2 { color: #333; }"; [nl];
     str "            .section { background-color: #f0f0f0; padding: 15px; margin-bottom: 20px; }"; [nl];
     str "            .section p { font-size: 0.9em; }"; [nl];
     str "            .metadata { font-weight: bold; margin-left: 20px; }"; [nl];
     str "        </style>"; [nl];
     str "    </head>"; [nl];
     str "    <body>"; [nl];
     str "        <h1>COT Python Script Response</h1>"; [nl];
     str "        <div class="; [dquote]; str "section"; [dquote]; str ">"; [nl];
     str "            <h2>Response</h2>"; [nl];
     str "            <p>"
    ].

Definition template_middle : text :=
  concat
    [
     str "</p>"; [nl];
     str "        </div>"; [nl];
     str "        <div class="; [dquote]; str "section"; [dquote]; str ">"; [nl];
     str "            <h2>Summary of Process</h2>"; [nl];
     str "            <p>"
    ].

Definition template_tail : text :=
  concat
    [
     str "</p>"; [nl];
     str "        </div>"; [nl];
     str "        <div class="; [dquote]; str "metadata"; [dquote]; str ">"; [nl];
     str "            <p><strong>Model:</strong> meta.llama3-70b-instruct-v1:0</p>"; [nl];
     str "            <p><strong>Input tokens:</strong> 698</p>"; [nl];
     str "            <p><strong>Output tokens:</strong> 478</p>"; [nl];
     str "            <p><strong>Total tokens:</strong> 1176</p>"; [nl];
     str "            <p><strong>Stop reason:</strong> end_turn</p>"; [nl];
     str "        </div>"; [nl];
     str "    </body>"; [nl];
     str "    </html>"; [nl];
     str "    "
    ].

(** Lines 20-54: the document. *)
Definition html_content (response summary : text) : text :=
  template_head ++ render_text response ++ template_middle
  ++ render_text summary ++ template_tail.

(** What opening, reading or writing a file can raise. *)
Inductive os_error : Type :=
| FileNotFoundError
| PermissionError
| IsADirectoryError
| OtherOSError.

Inductive io_exn : Type :=
| OSError (e : os_error)       (* [IOError] is [OSError] *)
| UnicodeError.                (* a [ValueError]: not a file-access error *)

(** The file system as [generate_html] meets it. *)
Record fs : Type := {
  read_response_txt : text + io_exn;
  write_response_html : text -> option io_exn
}.

Inductive html_event : Type :=
| HPrint (msg : text)
| HWrite (data : text).         (* a write of [response.html] was tried *)

(** How [generate_html] ends: the events in order, and the exception that
    left the function, if any. *)
Record html_run : Type := {
  trace : list html_event;
  raised : option io_exn
}.

Definition generate_html (F : fs) : html_run :=
  match read_response_txt F with
  | inr (OSError FileNotFoundError) =>
      {| trace := [HPrint (str "Error: response.txt file not found.")];
         raised := None |}
  | inr (OSError _) =>
      {| trace := [HPrint (str "Error: Unable to read response.txt file.")];
         raised := None |}
  | inr e => {| trace := []; raised := Some e |}
  | inl content =>
      let (response, summary) := split_content content in
      let html := html_content response summary in
      match write_response_html F html with
      | None =>
          {| trace :=
               [HWrite html;
                HPrint (str "HTML file 'response.html' has been generated successfully.")];
             raised := None |}
      | Some (OSError _) =>
          {| trace :=
               [HWrite html;
                HPrint (str "Error: Unable to write to response.html file.")];
             raised := None |}
      | Some e => {| trace := [HWrite html]; raised := Some e |}
      end
  end.


(** ** Specification-side definitions *)

(** The five characters [html.escape] rewrites. *)
Definition is_special (c : ascii) : bool :=
  (Ascii.eqb c "&" || Ascii.eqb c "<" || Ascii.eqb c ">"
   || Ascii.eqb c dquote || Ascii.eqb c "'")%bool.

(** [html.escape], character by character. *)
Definition esc_char (c : ascii) : text :=
  if Ascii.eqb c "&" then str "&amp;"
  else if Ascii.eqb c "<" then str "&lt;"
  else if Ascii.eqb c ">" then str "&gt;"
  else if Ascii.eqb c dquote then str "&quot;"
  else if Ascii.eqb c "'" then str "&#x27;"
  else [c].

(** Neither an angle bracket nor a quote. *)
Definition is_markup_free (c : ascii) : bool :=
  negb (Ascii.eqb c "<" || Ascii.eqb c ">" || Ascii.eqb c dquote
        || Ascii.eqb c "'")%bool.

(** The start of a closing [</strong>] tag. *)
Definition close_start : text := str "</s".

(** The first occurrence of [sep] in [s]: the text before it and the text
    after it ([str.partition]); [None] when [sep] does not occur. *)
Fixpoint cut (sep s : text) : option (text * text) :=
  if starts_with sep s then Some ([], skipn (length sep) s)
  else
    match s with
    | [] => None
    | c :: s' =>
        match cut sep s' with
        | Some (a, b) => Some (c :: a, b)
        | None => None
        end
    end.

(** C2 as the specification words it: the response is everything before the
    first marker and the summary everything after it, both trimmed. *)
Definition split_content_claimed (content : text) : text * text :=
  match cut marker content with
  | None => (strip content, [])
  | Some (before, after) => (strip before, strip after)
  end.

(** Candidates of an example round, with grades 10, 30, 30 and -5. *)
Definition example_candidate (t : String.string) (g : Z) : candidate nat :=
  {| response := str t; feedback := Some (str "fb"); grade := Some g;
     time_taken := 0; feedback_time_taken := Some 0;
     grade_time_taken := Some 0 |}.

Definition four_candidates : list (candidate nat) :=
  [example_candidate "first" 10; example_candidate "second" 30;
   example_candidate "third" 30; example_candidate "fourth" (-5)].

(** File systems for examples of [generate_html]. *)
Definition fs_missing : fs :=
  {| read_response_txt := inr (OSError FileNotFoundError);
     write_response_html := fun _ => None |}.

Definition fs_unreadable : fs :=
  {| read_response_txt := inr (OSError PermissionError);
     write_response_html := fun _ => None |}.

Definition fs_unwritable : fs :=
  {| read_response_txt := inl (str "A" ++ marker ++ str "B");
     write_response_html := fun _ => Some (OSError PermissionError) |}.

(** *** What a pattern matches, declaratively *)

Definition within (hi : option nat) (n : nat) : Prop :=
  match hi with Some h => n <= h | None => True end.

(** [Matches r b a b' a']: from the position with [b] consumed (reversed)
    and [a] ahead, [r] can match up to the position [b'], [a']. *)
Inductive Matches : regex -> text -> text -> text -> text -> Prop :=
| M_Eps b a : Matches Eps b a b a
| M_Chr c b a : Matches (Chr c) b (c :: a) (c :: b) a
| M_Rep lo hi p ws b a :
    forallb p ws = true -> lo <= length ws -> within hi (length ws) ->
    Matches (Rep lo hi p) b (ws ++ a) (rev ws ++ b) a
| M_WordB b a : at_boundary b a = true -> Matches WordB b a b a
| M_Look r b a b' a' : Matches r b a b' a' -> Matches (Look r) b a b a
| M_Seq r1 r2 b a b1 a1 b2 a2 :
    Matches r1 b a b1 a1 -> Matches r2 b1 a1 b2 a2 ->
    Matches (Seq r1 r2) b a b2 a2.

(** The text [post] that follows a grade: [\s*out\s*of\s*100]. *)
Definition follows_out_of_100 (post : text) : Prop :=
  exists ws1 ws2 ws3 rest,
    post = ws1 ++ str "out" ++ ws2 ++ str "of" ++ ws3 ++ str "100" ++ rest
    /\ forallb is_space ws1 = true
    /\ forallb is_space ws2 = true
    /\ forallb is_space ws3 = true.

(** A grade site: [ds] is a run of one to three digits between [pre] and
    [post], with no word character on either side, followed by "out of
    100". *)
Definition grade_site (pre ds post : text) : Prop :=
  forallb is_digit ds = true
  /\ 1 <= length ds <= 3
  /\ head_is_word (rev pre) = false
  /\ head_is_word post = false
  /\ follows_out_of_100 post.

(** A match of the grade pattern at a position, spelled out. *)
Definition grade_match (b a m : text) : Prop :=
  exists sign ds post,
    a = sign ++ ds ++ post /\ m = sign ++ ds
    /\ (sign = [] \/ sign = [minus_sign])
    /\ forallb is_digit ds = true /\ 1 <= length ds <= 3
    /\ at_boundary b a = true
    /\ head_is_word post = false
    /\ follows_out_of_100 post.

(** C1 as the specification words it: the text holds "<int> out of 100",
    the integer [z] written with an optional minus sign and one to three
    digits. *)
Definition claimed_occurrence (t : text) (z : Z) : Prop :=
  exists pre sign ds post,
    t = pre ++ sign ++ ds ++ str " out of 100" ++ post
    /\ (sign = [] /\ z = digits_val ds
        \/ sign = [minus_sign] /\ z = (- digits_val ds)%Z)
    /\ forallb is_digit ds = true
    /\ 1 <= length ds <= 3.

Definition no_grade_message (t : text) : text :=
  str "Could not extract a valid grade from the response: " ++ t.

(** *** Runs of the refiner, as seen in the events *)

(** The calls of [converse] among some events, newest first. *)
Definition calls_of (evs : list event) : list (request * answer) :=
  flat_map (fun e => match e with EvCall q a => [(q, a)] | _ => [] end) evs.

(** Only the grading call asks for at most 100 tokens. *)
Definition is_grading (q : request) : Prop := maxTokens q = 100%Z.

(** A call that lets the run go on: it was answered, and a grading answer
    holds a grade. *)
Definition good_call (c : request * answer) : Prop :=
  match snd c with
  | Answer r =>
      is_grading (fst c) -> exists z, extract_grade (strip (rtext r)) = Ok z
  | ClientFailure _ => False
  end.

(** Events of the model phase: calls and log lines, nothing on a file and
    nothing printed. *)
Definition quiet (evs : list event) : Prop :=
  Forall (fun e => match e with
                   | EvCall _ _ | EvLog _ _ => True
                   | _ => False
                   end) evs.

(** How a computation of the model phase ends, read off the events [evs] it
    added (newest first). *)
Definition outcome_of {A} (r : result A) (evs : list event) : Prop :=
  quiet evs
  /\ match r with
     | Raise (ClientError msg) =>
         exists q rest,
           calls_of evs = (q, ClientFailure msg) :: rest
           /\ Forall good_call rest
     | Raise (ValueError m) =>
         exists q r rest,
           calls_of evs = (q, Answer r) :: rest
           /\ is_grading q
           /\ m = no_grade_message (strip (rtext r))
           /\ extract_grade (strip (rtext r)) = Raise (ValueError m)
           /\ Forall good_call rest
     | _ => Forall good_call (calls_of evs)
     end.

Definition model_phase {A} (m : M A) : Prop :=
  forall w, exists evs,
    events (snd (m w)) = evs ++ events w /\ outcome_of (fst (m w)) evs.

Section Transcript.
Variable T : Type.
Variable fmt2f : T -> text.

(** A candidate after a round: every field is set. *)
Definition assessed (r : candidate T) : Prop :=
  (exists fb, feedback r = Some fb) /\ (exists g, grade r = Some g)
  /\ (exists t, feedback_time_taken r = Some t)
  /\ (exists t, grade_time_taken r = Some t).

Definition seconds (t : option T) : text :=
  match t with Some x => fmt2f x | None => [] end.

(** The block of candidate number [i] (from 0) of the summary. *)
Definition candidate_block (i : nat) (r : candidate T) : text :=
  [nl] ++ str "Response " ++ text_of_Z (Z.of_nat i + 1) ++ str ":" ++ [nl]
  ++ str "Response: " ++ response r ++ [nl]
  ++ str "Feedback: " ++ format_opt (fun t => t) (feedback r) ++ [nl]
  ++ str "Grade: " ++ format_opt text_of_Z (grade r) ++ [nl]
  ++ str "Response generation time: " ++ fmt2f (time_taken r)
  ++ str " seconds" ++ [nl]
  ++ str "Feedback generation time: " ++ seconds (feedback_time_taken r)
  ++ str " seconds" ++ [nl]
  ++ str "Grading time: " ++ seconds (grade_time_taken r)
  ++ str " seconds" ++ [nl].

Fixpoint candidate_blocks (i : nat) (rs : list (candidate T)) : text :=
  match rs with
  | [] => []
  | r :: rs' => candidate_block i r ++ candidate_blocks (S i) rs'
  end.

(** The transcript as C7 words it. *)
Definition transcript (total : T) (rs : list (candidate T)) : text :=
  [nl] ++ str "SUMMARY OF PROCESS" ++ [nl]
  ++ repeat "="%char 40 ++ [nl]
  ++ str "Total time taken for the process: " ++ fmt2f total
  ++ str " seconds" ++ [nl]
  ++ candidate_blocks 0 rs
  ++ repeat "="%char 40 ++ [nl]
  ++ match rs with
     | [] => []
     | best :: _ =>
         str "Best response: " ++ response best ++ str " (Grade: "
         ++ format_opt text_of_Z (grade best) ++ str ")" ++ [nl]
     end.
End Transcript.

(** *** Example runs *)

Definition demo_fmt (n : nat) : text := text_of_Z (Z.of_nat n) ++ str ".00".

Definition demo_reply (t : String.string) : answer :=
  Answer {| rtext := str t; inputTokens := 10; outputTokens := 20;
            totalTokens := 30; stopReason := str "end_turn" |}.

Definition env_of_script (script : list answer) : env nat :=
  {| converse := fun k _ => nth k script (ClientFailure (str "throttled"));
     time := fun k => k |}.

(** Three seeds, one round with grades 50, 90 and 20, one refinement; an
    eleventh call would fail. *)
Definition demo_env : env nat :=
  env_of_script
    [demo_reply "seed A"; demo_reply "seed B"; demo_reply "seed C";
     demo_reply "fb A"; demo_reply "50 out of 100";
     demo_reply "fb B"; demo_reply "I would give it 90 out of 100.";
     demo_reply "fb C"; demo_reply "20 out of 100";
     demo_reply "refined B"].

(** The first grading answer holds no grade. *)
Definition ungraded_env : env nat :=
  env_of_script
    [demo_reply "seed A"; demo_reply "seed B"; demo_reply "seed C";
     demo_reply "fb A"; demo_reply "rather good"].

(** The candidates and the world of the example run after the seed phase. *)
Definition demo_seeded : result (list (candidate nat)) * world :=
  seeds Nat.sub demo_env 3 world0.

Definition demo_seeds : list (candidate nat) :=
  match fst demo_seeded with Ok rs => rs | Raise _ => [] end.

(** The request of the refinement call for the candidate [best]. *)
Definition refine_request {T} (best : candidate T) : request :=
  {| modelId := model_id; system := system_prompts;
     messages := [refinement_prompt (response best)];
     maxTokens := 1024 |}.

Definition by_grade_desc {T} (a b : candidate T) : Prop :=
  (grade_key b <= grade_key a)%Z.

Definition demo_round : result (list (candidate nat)) * world :=
  round Nat.sub demo_env 0 demo_seeds (snd demo_seeded).

Definition demo_ranked : list (candidate nat) :=
  match fst demo_round with Ok rs => rs | Raise _ => [] end.

(** The events of writing the pieces [ws], in order, newest first. *)
Definition writes_of (ws : list text) : list event :=
  rev (map (EvWrite (str "response.txt")) ws).

(** A computation of the summary phase: it only writes to the transcript,
    the text [t] when it completes, and it can fail only on a missing key
    or an empty list. *)
Definition writes_text {A} (m : M A) (t : text) : Prop :=
  forall w, exists ws,
    events (snd (m w)) = writes_of ws ++ events w
    /\ match fst (m w) with
       | Ok _ => concat ws = t
       | Raise e => (exists k, e = KeyError k) \/ e = IndexError
       end.

(** C3 as the specification words it: some prose stands before the first
    marker of the file. *)
Definition prose_before_marker (f : text) : Prop :=
  match cut marker f with
  | Some (before, _) => strip before <> []
  | None => False
  end.

Definition demo_file : option text :=
  file_content (str "response.txt")
    (snd (main Nat.sub demo_fmt demo_env 1 world0)).

(** Events that leave every file as it is. *)
Definition file_free (evs : list event) : Prop :=
  Forall (fun e => match e with
                   | EvOpen _ | EvWrite _ _ => False
                   | _ => True
                   end) evs.

(** The call that fails in the example run of two rounds: the feedback
    request for the refined text. *)
Definition demo_failing_request : request :=
  {| modelId := model_id; system := system_prompts;
     messages := [feedback_prompt (str "refined B")]; maxTokens := 512 |}.

(** The grading call whose answer holds no grade. *)
Definition ungraded_request : request :=
  {| modelId := model_id; system := system_prompts;
     messages := [grading_prompt (str "seed A") (str "fb A")];
     maxTokens := 100 |}.

Definition ungraded_reply : reply :=
  {| rtext := str "rather good"; inputTokens := 10; outputTokens := 20;
     totalTokens := 30; stopReason := str "end_turn" |}.

(** The order and the key test of the descending sort. *)
Definition desc {A} (key : A -> Z) (a b : A) : Prop := (key b <= key a)%Z.

Definition with_key {A} (key : A -> Z) (g : Z) (a : A) : bool :=
  (key a =? g)%Z.

(** *** Further specification-side definitions *)

(** The integers from -999 to 999, and the answer "<z> out of 100". *)
Definition grade_range : list Z :=
  map (fun n => (Z.of_nat n - 999)%Z) (seq 0 1999).

Definition plain_answer (z : Z) : text := text_of_Z z ++ str " out of 100".

Definition result_is (r : result Z) (z : Z) : bool :=
  match r with
  | Ok x => (x =? z)%Z
  | Raise _ => false
  end.

(** What the file holds when the summary breaks off at the first candidate,
    whose feedback time is missing. *)
Definition partial_transcript {T} (fmt2f : T -> text) (total : T)
    (r : candidate T) : text :=
  [nl] ++ str "SUMMARY OF PROCESS" ++ [nl]
  ++ repeat "="%char 40 ++ [nl]
  ++ str "Total time taken for the process: " ++ fmt2f total
  ++ str " seconds" ++ [nl]
  ++ [nl] ++ str "Response 1:" ++ [nl]
  ++ str "Response: " ++ response r ++ [nl]
  ++ str "Feedback: None" ++ [nl]
  ++ str "Grade: None" ++ [nl]
  ++ str "Response generation time: " ++ fmt2f (time_taken r)
  ++ str " seconds" ++ [nl].

(** A candidate as the seed phase leaves it. *)
Definition fresh {T} (c : candidate T) : Prop :=
  feedback c = None /\ grade c = None
  /\ feedback_time_taken c = None /\ grade_time_taken c = None.

(** A world in which an earlier run left a transcript in the file. *)
Definition world_with_old_file : world :=
  {| calls := 0; ticks := 0;
     events := [EvClose (str "response.txt");
                EvWrite (str "response.txt") (str "an old transcript");
                EvOpen (str "response.txt")] |}.

(** The first call fails. *)
Definition failing_env : env nat := env_of_script [].

(** The requests among some events, oldest first. *)
Definition requests_of (evs : list event) : list request :=
  map fst (rev (calls_of evs)).

(** A request as [main] issues it: the fixed model and system prompt, one
    user message. *)
Definition standard_request (q : request) : Prop :=
  modelId q = model_id /\ system q = system_prompts
  /\ length (messages q) = 1.

(** The token limits of the calls of one round over three candidates, and of
    a whole run of [n] rounds. *)
Definition round_tokens : list Z :=
  [512; 100; 512; 100; 512; 100; 1024]%Z.

Definition run_tokens (n : nat) : list Z :=
  [1024; 1024; 1024]%Z ++ concat (repeat round_tokens n).

(** A computation that, when it completes, has issued standard requests
    with the token limits [tokens], in this order. *)
Definition protocol {A} (m : M A) (tokens : list Z) : Prop :=
  forall w a, fst (m w) = Ok a ->
    exists evs,
      events (snd (m w)) = evs ++ events w
      /\ map maxTokens (requests_of evs) = tokens
      /\ Forall standard_request (requests_of evs).

Definition demo_rounds : result (list (candidate nat)) * world :=
  rounds Nat.sub demo_env 1 0 demo_seeds (snd demo_seeded).

Definition demo_final : list (candidate nat) :=
  match fst demo_rounds with Ok rs => rs | Raise _ => [] end.

(** The tags and entities the rendering can produce, without their first
    character. *)
Definition tag_tails : list text :=
  [str "strong>"; str "/p>"; str "p>"; str "br>"].

Definition entity_tails : list text :=
  [str "amp;"; str "lt;"; str "gt;"; str "quot;"; str "#x27;"].

Definition begins_with_any (names : list text) (s : text) : bool :=
  existsb (fun n => starts_with n s) names.

(** The character [c], followed by [s], is harmless in HTML text: a [<]
    opens one of the four tags, a [&] opens one of the five entities, and
    [c] is no quote. *)
Definition safe_char (c : ascii) (s : text) : bool :=
  if Ascii.eqb c "<" then begins_with_any tag_tails s
  else if Ascii.eqb c "&" then begins_with_any entity_tails s
  else negb (Ascii.eqb c dquote || Ascii.eqb c "'")%bool.

Fixpoint safe_markup (s : text) : bool :=
  match s with
  | [] => true
  | c :: s' => (safe_char c s' && safe_markup s')%bool
  end.

(** No white space at the front. *)
Definition starts_clean (s : text) : bool :=
  match s with
  | c :: _ => negb (is_space c)
  | [] => true
  end.

(** *** Runs that differ in token usage only *)

(** What the refiner uses of an answer: its text, or the error message. *)
Definition answer_text (a : answer) : text + text :=
  match a with
  | Answer r => inl (rtext r)
  | ClientFailure msg => inr msg
  end.

Definition same_text (r1 r2 : reply) : Prop := rtext r1 = rtext r2.

(** Two environments whose answers carry the same texts and whose clocks
    agree; token counts and stop reasons are free. *)
Definition same_answers {T} (E1 E2 : env T) : Prop :=
  (forall k q, answer_text (converse E1 k q) = answer_text (converse E2 k q))
  /\ (forall k, time E1 k = time E2 k).

(** An answer with its usage figures and stop reason blanked. *)
Definition scrub (a : answer) : answer :=
  match a with
  | Answer r =>
      Answer {| rtext := rtext r; inputTokens := 0; outputTokens := 0;
                totalTokens := 0; stopReason := [] |}
  | ClientFailure msg => ClientFailure msg
  end.

(** The events without the INFO log lines, the answers scrubbed. *)
Definition shown (evs : list event) : list event :=
  flat_map (fun e => match e with
                     | EvLog INFO _ => []
                     | EvCall q a => [EvCall q (scrub a)]
                     | _ => [e]
                     end) evs.

Definition same_world (w1 w2 : world) : Prop :=
  calls w1 = calls w2 /\ ticks w1 = ticks w2
  /\ shown (events w1) = shown (events w2).

(** Two computations that, from worlds that look the same, end alike: the
    same exception, or results related by [R], in worlds that look the
    same. *)
Definition alike {A} (R : A -> A -> Prop) (m1 m2 : M A) : Prop :=
  forall w1 w2, same_world w1 w2 ->
    same_world (snd (m1 w1)) (snd (m2 w2))
    /\ match fst (m1 w1), fst (m2 w2) with
       | Ok a1, Ok a2 => R a1 a2
       | Raise e1, Raise e2 => e1 = e2
       | _, _ => False
       end.

(** The example environment with other usage figures. *)
Definition other_usage (a : answer) : answer :=
  match a with
  | Answer r =>
      Answer {| rtext := rtext r; inputTokens := 698; outputTokens := 478;
                totalTokens := 1176; stopReason := str "max_tokens" |}
  | ClientFailure msg => ClientFailure msg
  end.

Definition demo_env_other_usage : env nat :=
  {| converse := fun k q => other_usage (converse demo_env k q);
     time := time demo_env |}.

(** *** Outcomes of a run *)

(** An environment that answers every call, every grading call with an
    answer that holds a grade. *)
Definition obliging {T} (E : env T) : Prop :=
  forall k q, exists r,
    converse E k q = Answer r
    /\ (is_grading q -> exists z, extract_grade (strip (rtext r)) = Ok z).

(** The failures of the model phase: a client error or a grading answer
    without a grade, and neither with an obliging environment. *)
Definition model_failure {T} (E : env T) (e : exn) : Prop :=
  ((exists msg, e = ClientError msg) \/ (exists m, e = ValueError m))
  /\ ~ obliging E.

Definition fails_only {T A} (E : env T) (m : M A) : Prop :=
  forall w e, fst (m w) = Raise e -> model_failure E e.

(** Every call is answered with a grade of 90. *)
Definition obliging_env : env nat :=
  {| converse := fun _ _ => demo_reply "I grade it 90 out of 100.";
     time := fun k => k |}.

(** * Properties *)

(** ** Scanning lemmas for [replace] and [split] *)

Lemma starts_with_app (p s : text) : starts_with p (p ++ s) = true.
Proof.
  induction p as [|a p IH]; simpl; [reflexivity|].
  now rewrite Ascii.eqb_refl, IH.
Qed.

Lemma starts_with_split (p s : text) :
  starts_with p s = true -> s = p ++ skipn (length p) s.
Proof.
  revert s; induction p as [|a p IH]; intros [|b s]; simpl; try easy.
  intros H. apply andb_true_iff in H as [Hab Hp].
  apply Ascii.eqb_eq in Hab. subst b. f_equal. now apply IH.
Qed.

Lemma replace_scan_skip (old new : text) (s : text) (k : nat) :
  replace_scan old new k s = replace_scan old new 0 (skipn k s).
Proof.
  revert k; induction s as [|c s IH]; intros [|k]; try reflexivity.
  simpl replace_scan at 1. rewrite IH. reflexivity.
Qed.

Lemma replace_cons (o : ascii) (old new : text) (c : ascii) (s : text) :
  replace (o :: old) new (c :: s) =
  if starts_with (o :: old) (c :: s)
  then new ++ replace (o :: old) new (skipn (length (o :: old)) (c :: s))
  else c :: replace (o :: old) new s.
Proof.
  unfold replace. simpl replace_scan at 1.
  destruct (Ascii.eqb o c && starts_with old s)%bool eqn:Hm.
  - cbn [starts_with]. rewrite Hm. f_equal.
    rewrite replace_scan_skip. simpl. now rewrite Nat.sub_0_r.
  - cbn [starts_with]. now rewrite Hm.
Qed.

(** The induction that follows the scan of [replace]. *)
Lemma replace_scan_ind (o : ascii) (old new : text)
    (P : text -> text -> Prop) :
  P [] [] ->
  (forall s out, starts_with (o :: old) s = true ->
                 P (skipn (length (o :: old)) s) out -> P s (new ++ out)) ->
  (forall c s out, starts_with (o :: old) (c :: s) = false ->
                   P s out -> P (c :: s) (c :: out)) ->
  forall s, P s (replace (o :: old) new s).
Proof.
  intros Hnil Hhit Hmiss s.
  remember (length s) as n eqn:Hn.
  revert s Hn. induction n as [n IH] using lt_wf_ind. intros [|c s] Hn.
  - exact Hnil.
  - rewrite replace_cons.
    destruct (starts_with (o :: old) (c :: s)) eqn:Hm.
    + apply Hhit; [exact Hm|].
      eapply IH; [|reflexivity]. subst n. simpl.
      rewrite length_skipn. lia.
    + apply Hmiss; [exact Hm|].
      eapply IH; [|reflexivity]. subst n. simpl. lia.
Qed.

Lemma contains_cons (sub : text) (c : ascii) (s : text) :
  contains sub (c :: s) = (starts_with sub (c :: s) || contains sub s)%bool.
Proof. reflexivity. Qed.

Lemma contains_false_starts (sub s : text) :
  contains sub s = false -> starts_with sub s = false.
Proof.
  destruct s; simpl; intros H; apply orb_false_iff in H; tauto.
Qed.

Lemma contains_false_tail (sub : text) (c : ascii) (s : text) :
  contains sub (c :: s) = false -> contains sub s = false.
Proof. rewrite contains_cons. intros H. apply orb_false_iff in H. tauto. Qed.

(** Without an occurrence of [old], [replace] changes nothing. *)
Lemma replace_absent (o : ascii) (old new s : text) :
  contains (o :: old) s = false -> replace (o :: old) new s = s.
Proof.
  induction s as [|c s IH]; intros H; [reflexivity|].
  rewrite replace_cons, (contains_false_starts _ _ H).
  f_equal. apply IH. eapply contains_false_tail, H.
Qed.

(** A one-character [old] makes [replace] a character-wise substitution. *)
Lemma replace_char (c : ascii) (new s : text) :
  replace [c] new s =
  flat_map (fun x => if Ascii.eqb c x then new else [x]) s.
Proof.
  induction s as [|x s IH]; [reflexivity|].
  rewrite replace_cons. cbn [starts_with length skipn flat_map].
  rewrite andb_true_r.
  destruct (Ascii.eqb c x); rewrite IH; reflexivity.
Qed.

(** ** [html.escape] *)

Lemma flat_map_compose {A B C} (f : B -> list C) (g : A -> list B)
    (l : list A) :
  flat_map f (flat_map g l) = flat_map (fun x => flat_map f (g x)) l.
Proof.
  induction l as [|x l IH]; simpl; [reflexivity|].
  now rewrite flat_map_app, IH.
Qed.

Lemma flat_map_pointwise {A B} (P : A -> Prop) (f g : A -> list B)
    (l : list A) :
  (forall x, P x -> f x = g x) -> Forall P l -> flat_map f l = flat_map g l.
Proof.
  intros Hfg Hl. induction Hl as [|x l Hx _ IH]; simpl; [reflexivity|].
  now rewrite IH, Hfg.
Qed.

Lemma all_ascii (P : ascii -> Prop) :
  (forall b0 b1 b2 b3 b4 b5 b6 b7, P (Ascii b0 b1 b2 b3 b4 b5 b6 b7)) ->
  forall c, P c.
Proof. intros H [b0 b1 b2 b3 b4 b5 b6 b7]. apply H. Qed.

Ltac by_cases_on_ascii :=
  let c := fresh "c" in
  intros c; pattern c; revert c; apply all_ascii;
  intros [|] [|] [|] [|] [|] [|] [|] [|]; vm_compute; auto.

Lemma esc_char_steps (c : ascii) :
  flat_map (fun x => if Ascii.eqb "'" x then str "&#x27;" else [x])
    (flat_map (fun x => if Ascii.eqb dquote x then str "&quot;" else [x])
      (flat_map (fun x => if Ascii.eqb ">" x then str "&gt;" else [x])
        (flat_map (fun x => if Ascii.eqb "<" x then str "&lt;" else [x])
          (if Ascii.eqb "&" c then str "&amp;" else [c]))))
  = esc_char c.
Proof. revert c; by_cases_on_ascii. Qed.

Lemma escape_flat_map (s : text) : escape s = flat_map esc_char s.
Proof.
  unfold escape.
  change (str "&") with ["&"%char]. change (str "<") with ["<"%char].
  change (str ">") with [">"%char]. change (str "'") with ["'"%char].
  rewrite !replace_char, !flat_map_compose.
  apply flat_map_ext. intros c.
  rewrite <- (esc_char_steps c), <- !flat_map_compose. reflexivity.
Qed.

Lemma esc_char_markup_free (c : ascii) :
  forallb is_markup_free (esc_char c) = true.
Proof. revert c; by_cases_on_ascii. Qed.

Lemma escape_markup_free (s : text) :
  forallb is_markup_free (escape s) = true.
Proof.
  rewrite escape_flat_map. induction s as [|c s IH]; simpl; [reflexivity|].
  now rewrite forallb_app, esc_char_markup_free, IH.
Qed.

Lemma esc_char_plain (c : ascii) : is_special c = false -> esc_char c = [c].
Proof. revert c; by_cases_on_ascii; discriminate. Qed.

Lemma esc_char_of_markup_free (c : ascii) :
  is_markup_free c = true ->
  esc_char c = if Ascii.eqb "&" c then str "&amp;" else [c].
Proof. revert c; by_cases_on_ascii; discriminate. Qed.

Lemma esc_char_length (c : ascii) :
  length (esc_char c) = 1 /\ is_special c = false
  \/ 1 < length (esc_char c) /\ is_special c = true
     /\ In "&"%char (esc_char c).
Proof. revert c; by_cases_on_ascii; right; repeat split; simpl; auto; lia. Qed.

Lemma escape_plain (s : text) :
  forallb (fun c => negb (is_special c)) s = true -> escape s = s.
Proof.
  rewrite escape_flat_map. induction s as [|c s IH]; simpl; [reflexivity|].
  intros H. apply andb_true_iff in H as [Hc Hs].
  rewrite esc_char_plain, IH; auto. now apply negb_true_iff.
Qed.

Lemma escape_length (s : text) :
  length s <= length (escape s)
  /\ (length (escape s) = length s ->
      forallb (fun c => negb (is_special c)) s = true).
Proof.
  rewrite escape_flat_map. induction s as [|c s [IH1 IH2]]; simpl.
  - split; auto.
  - rewrite length_app.
    destruct (esc_char_length c) as [[Hl Hc]|[Hl [Hc _]]]; rewrite Hc; simpl.
    + split; [lia|]. intros H. apply IH2. lia.
    + split; [lia|]. intros H. lia.
Qed.

Lemma escape_has_amp (s : text) :
  forallb (fun c => negb (is_special c)) s = false ->
  forallb (fun c => negb (is_special c)) (escape s) = false.
Proof.
  rewrite escape_flat_map. induction s as [|c s IH]; simpl; [easy|].
  intros H. rewrite forallb_app. apply andb_false_iff.
  apply andb_false_iff in H as [H|H]; [left|right; auto].
  apply negb_false_iff in H.
  destruct (esc_char_length c) as [[_ Hc]|[_ [_ Hin]]]; [congruence|].
  destruct (forallb _ (esc_char c)) eqn:Hf; [|reflexivity].
  rewrite forallb_forall in Hf. specialize (Hf _ Hin). discriminate.
Qed.

(** C8, as stated, fails: escaping an escaped text escapes the ampersands
    of its entities once more, so the step is not idempotent on a text with
    an angle bracket and an ampersand. *)
Lemma escape_twice_differs :
  escape (str "a < b & **bold**") = str "a &lt; b &amp; **bold**"
  /\ escape (escape (str "a < b & **bold**"))
     = str "a &amp;lt; b &amp;amp; **bold**"
  /\ escape (escape (str "a < b & **bold**"))
     <> escape (str "a < b & **bold**").
Proof. repeat split. vm_compute. discriminate. Qed.

(** C8, amended: an escaped text holds no angle bracket and no quote, so a
    second escaping rewrites its ampersands and nothing else; escaping twice
    is escaping once exactly on the texts without any of the five special
    characters. *)
Theorem escape_twice (s : text) :
  forallb is_markup_free (escape s) = true
  /\ escape (escape s) = replace (str "&") (str "&amp;") (escape s)
  /\ (escape (escape s) = escape s
      <-> forallb (fun c => negb (is_special c)) s = true).
Proof.
  split; [apply escape_markup_free|]. split.
  - rewrite (escape_flat_map (escape s)).
    change (str "&") with ["&"%char]. rewrite replace_char.
    apply flat_map_pointwise with (P := fun c => is_markup_free c = true).
    + apply esc_char_of_markup_free.
    + apply Forall_forall. apply forallb_forall. apply escape_markup_free.
  - split.
    + intros H.
      destruct (forallb (fun c => negb (is_special c)) s) eqn:Hs;
        [reflexivity|].
      apply escape_has_amp in Hs.
      destruct (escape_length (escape s)) as [_ Hl].
      rewrite Hl in Hs; [discriminate | now rewrite H].
    + intros H. now rewrite (escape_plain _ H), (escape_plain _ H).
Qed.

(** ** The bold markup never closes *)

Lemma starts_with_prefix (a b s : text) :
  starts_with (a ++ b) s = true -> starts_with a s = true.
Proof.
  revert s; induction a as [|x a IH]; intros [|y s]; simpl; try easy.
  intros H. apply andb_true_iff in H as [-> H]. simpl. eauto.
Qed.

Lemma contains_prefix (a b s : text) :
  contains (a ++ b) s = true -> contains a s = true.
Proof.
  induction s as [|c s IH].
  - simpl. rewrite !orb_false_r. apply starts_with_prefix.
  - rewrite !contains_cons. intros H. apply orb_true_iff in H as [H|H].
    + now rewrite (starts_with_prefix _ _ _ H).
    + rewrite (IH H). apply orb_true_r.
Qed.

Lemma contains_false_skipn (sub s : text) (k : nat) :
  contains sub s = false -> contains sub (skipn k s) = false.
Proof.
  revert s; induction k as [|k IH]; intros [|c s] H; simpl; auto.
  apply IH. eapply contains_false_tail, H.
Qed.

Lemma contains_absent_char (c : ascii) (sub s : text) :
  forallb (fun x => negb (Ascii.eqb c x)) s = true ->
  contains (c :: sub) s = false.
Proof.
  induction s as [|x s IH]; [reflexivity|].
  simpl forallb. intros H. apply andb_true_iff in H as [Hx Hs].
  rewrite contains_cons, (IH Hs). cbn [starts_with].
  apply negb_true_iff in Hx. now rewrite Hx.
Qed.

(** Two characters in front that cannot begin [</s] change nothing. *)
Lemma close_start_pad (s : text) :
  contains close_start ("x"%char :: "x"%char :: s) = contains close_start s.
Proof. reflexivity. Qed.

Lemma close_start_head (p1 p2 c : ascii) (s1 s2 : text) :
  starts_with close_start (p1 :: p2 :: c :: s1)
  = starts_with close_start (p1 :: p2 :: c :: s2).
Proof. cbn. now rewrite !andb_true_r. Qed.

Section ReplaceKeepsOpen.
Variables (o : ascii) (old new : text).

(** [new] neither completes nor begins the start of a closing tag. *)
Hypothesis new_neutral : forall p1 p2 rest,
  contains close_start (p1 :: p2 :: new ++ rest)
  = contains close_start rest.

Lemma replace_keeps_open_ctx (s : text) :
  forall p1 p2,
    contains close_start (p1 :: p2 :: s) = false ->
    contains close_start (p1 :: p2 :: replace (o :: old) new s) = false.
Proof.
  apply (replace_scan_ind o old new
    (fun s out => forall p1 p2,
       contains close_start (p1 :: p2 :: s) = false ->
       contains close_start (p1 :: p2 :: out) = false)); clear s.
  - auto.
  - intros s out _ IH p1 p2 H. rewrite new_neutral.
    rewrite <- close_start_pad. apply IH. rewrite close_start_pad.
    apply contains_false_skipn.
    eapply contains_false_tail, contains_false_tail, H.
  - intros c s out _ IH p1 p2 H.
    rewrite contains_cons in H |- *. apply orb_false_iff in H as [H1 H2].
    rewrite (close_start_head p1 p2 c out s), H1. simpl orb.
    now apply IH.
Qed.

Lemma replace_keeps_open (s : text) :
  contains close_start s = false ->
  contains close_start (replace (o :: old) new s) = false.
Proof.
  intros H. rewrite <- close_start_pad.
  apply replace_keeps_open_ctx. now rewrite close_start_pad.
Qed.
End ReplaceKeepsOpen.

Ltac neutral_by_cases :=
  intros p1 p2 rest; cbn;
  repeat match goal with
         | |- context [Ascii.eqb ?a ?b] =>
             is_var b; destruct (Ascii.eqb a b); cbn
         end;
  rewrite ?andb_false_r, ?orb_false_r; reflexivity.

Lemma strong_neutral : forall p1 p2 rest,
  contains close_start (p1 :: p2 :: str "<strong>" ++ rest)
  = contains close_start rest.
Proof. neutral_by_cases. Qed.



Lemma escape_no_lt (s : text) (sub : text) :
  contains ("<"%char :: sub) (escape s) = false.
Proof.
  apply contains_absent_char.
  pose proof (escape_markup_free s) as H.
  rewrite forallb_forall in H |- *. intros x Hx. specialize (H x Hx).
  unfold is_markup_free in H. apply negb_true_iff in H.
  apply orb_false_iff in H as [H _]. apply orb_false_iff in H as [H _].
  apply orb_false_iff in H as [H _].
  rewrite Ascii.eqb_sym. now rewrite H.
Qed.


(** ** Splitting the transcript at the marker *)

Lemma cut_Some (sep s a b : text) :
  cut sep s = Some (a, b) ->
  s = a ++ sep ++ b
  /\ forall i, i < length a -> starts_with sep (skipn i s) = false.
Proof.
  revert a b; induction s as [|c s IH]; intros a b; simpl.
  - destruct (starts_with sep []) eqn:Hs; [|discriminate].
    intros [= <- <-]. split; [|simpl; lia].
    rewrite (starts_with_split _ _ Hs) at 1. reflexivity.
  - destruct (starts_with sep (c :: s)) eqn:Hs.
    + intros [= <- <-]. split; [|simpl; lia].
      rewrite (starts_with_split _ _ Hs) at 1. reflexivity.
    + destruct (cut sep s) as [[a' b']|]; [|discriminate].
      intros [= <- <-]. destruct (IH _ _ eq_refl) as [-> Hfirst].
      split; [reflexivity|].
      intros [|i] Hi; [exact Hs|]. apply Hfirst. simpl in Hi. lia.
Qed.

Lemma cut_None (sep s : text) :
  cut sep s = None <-> contains sep s = false.
Proof.
  induction s as [|c s IH]; simpl.
  - destruct (starts_with sep []); simpl; split; congruence.
  - destruct (starts_with sep (c :: s)); simpl; [split; congruence|].
    rewrite <- IH. destruct (cut sep s) as [[a b]|]; split; congruence.
Qed.

Lemma split_scan_skip (sep cur s : text) (k : nat) :
  split_scan sep k cur s = split_scan sep 0 cur (skipn k s).
Proof.
  revert k; induction s as [|c s IH]; intros [|k]; try reflexivity.
  simpl split_scan at 1. rewrite IH. reflexivity.
Qed.

Lemma split_scan_cur (sep cur s : text) :
  split_scan sep 0 cur s
  = (rev cur ++ hd [] (split sep s)) :: tl (split sep s).
Proof.
  unfold split. revert cur; induction s as [|c s IH]; intros cur; simpl.
  - now rewrite app_nil_r.
  - destruct (starts_with sep (c :: s)); simpl.
    + now rewrite app_nil_r.
    + rewrite (IH (c :: cur)), (IH [c]). simpl.
      now rewrite <- app_assoc.
Qed.

(** [split] cuts at the first occurrence and goes on in what follows. *)
Lemma split_cut (o : ascii) (sep s : text) :
  split (o :: sep) s =
  match cut (o :: sep) s with
  | None => [s]
  | Some (a, b) => a :: split (o :: sep) b
  end.
Proof.
  induction s as [|c s IH].
  - reflexivity.
  - unfold split at 1.
    change (split_scan (o :: sep) 0 [] (c :: s)) with
      (if starts_with (o :: sep) (c :: s)
       then rev [] :: split_scan (o :: sep) (length (o :: sep) - 1) [] s
       else split_scan (o :: sep) 0 [c] s).
    change (cut (o :: sep) (c :: s)) with
      (if starts_with (o :: sep) (c :: s)
       then Some ([], skipn (length (o :: sep)) (c :: s))
       else match cut (o :: sep) s with
            | Some (a, b) => Some (c :: a, b)
            | None => None
            end).
    destruct (starts_with (o :: sep) (c :: s)).
    + rewrite split_scan_skip. simpl. now rewrite Nat.sub_0_r.
    + rewrite split_scan_cur, IH.
      destruct (cut (o :: sep) s) as [[a b]|]; reflexivity.
Qed.

(** C2, as stated, fails when the marker occurs twice: the summary stops at
    the second marker. *)
Lemma split_content_second_marker :
  split_content (str "A" ++ marker ++ str "B" ++ marker ++ str "C")
  = (str "A", str "B")
  /\ split_content_claimed
       (str "A" ++ marker ++ str "B" ++ marker ++ str "C")
     = (str "A", str "B" ++ marker ++ str "C")
  /\ split_content (str "A" ++ marker ++ str "B" ++ marker ++ str "C")
     <> split_content_claimed
          (str "A" ++ marker ++ str "B" ++ marker ++ str "C").
Proof. repeat split. vm_compute. discriminate. Qed.

(** C2, amended: the response is the text before the first marker, trimmed;
    the summary is the text between the first marker and the next one, or
    all the text after the first marker when there is no other, trimmed;
    without a marker the response is the whole content, trimmed, and the
    summary is empty. *)
Theorem split_content_at_marker (content : text) :
  split_content content =
  match cut marker content with
  | None => (strip content, [])
  | Some (before, after) =>
      (strip before,
       strip match cut marker after with
             | None => after
             | Some (between, _) => between
             end)
  end
  /\ split_content (str "A" ++ [nl; nl] ++ marker ++ [nl] ++ str "B")
     = (str "A", str "B").
Proof.
  split; [|reflexivity].
  unfold split_content, marker.
  change (str "SUMMARY OF PROCESS") with ("S"%char :: str "UMMARY OF PROCESS").
  rewrite split_cut.
  destruct (cut _ content) as [[before after]|]; [|reflexivity].
  rewrite split_cut.
  destruct (cut _ after) as [[between rest]|]; reflexivity.
Qed.

(** ** File-access errors of [generate_html] *)

(** C9: a missing or unreadable input file is reported by one printed
    message, nothing is written and nothing is raised; an unwritable output
    file is reported by one printed message and nothing is raised.  Only
    [OSError]s are caught. *)
Theorem generate_html_file_errors (F : fs) :
  (read_response_txt F = inr (OSError FileNotFoundError) ->
   generate_html F =
   {| trace := [HPrint (str "Error: response.txt file not found.")];
      raised := None |})
  /\ (forall e, e <> FileNotFoundError ->
      read_response_txt F = inr (OSError e) ->
      generate_html F =
      {| trace := [HPrint (str "Error: Unable to read response.txt file.")];
         raised := None |})
  /\ (forall content e,
      read_response_txt F = inl content ->
      write_response_html F
        (html_content (fst (split_content content))
                      (snd (split_content content))) = Some (OSError e) ->
      raised (generate_html F) = None
      /\ exists html,
           trace (generate_html F) =
           [HWrite html;
            HPrint (str "Error: Unable to write to response.html file.")])
  /\ (forall e, read_response_txt F = inr e ->
      forall html, ~ In (HWrite html) (trace (generate_html F))).
Proof.
  unfold generate_html. split; [|split; [|split]].
  - intros ->. reflexivity.
  - intros e Hne ->. destruct e; congruence.
  - intros content e Hr Hw. rewrite Hr.
    destruct (split_content content) as [r s]. simpl in Hw. rewrite Hw.
    split; [reflexivity | eexists; reflexivity].
  - intros e -> html. destruct e as [[]|]; simpl; intuition discriminate.
Qed.

Lemma generate_html_file_errors_witness :
  generate_html fs_missing =
    {| trace := [HPrint (str "Error: response.txt file not found.")];
       raised := None |}
  /\ generate_html fs_unreadable =
    {| trace := [HPrint (str "Error: Unable to read response.txt file.")];
       raised := None |}
  /\ raised (generate_html fs_unwritable) = None
  /\ (forall html, ~ In (HWrite html) (trace (generate_html fs_missing))).
Proof.
  split; [|split; [|split]].
  - apply (generate_html_file_errors fs_missing). reflexivity.
  - apply (proj1 (proj2 (generate_html_file_errors fs_unreadable))
             PermissionError); [discriminate | reflexivity].
  - apply (proj1 (proj2 (proj2 (generate_html_file_errors fs_unwritable)))
             (str "A" ++ marker ++ str "B") PermissionError);
      reflexivity.
  - apply (proj2 (proj2 (proj2 (generate_html_file_errors fs_missing)))
             (OSError FileNotFoundError)). reflexivity.
Defined.

(** ** The stable descending sort *)

Section SortedDesc.
Variable A : Type.
Variable key : A -> Z.

Lemma insert_desc_perm (x : A) (l : list A) :
  Permutation (x :: l) (insert_desc key x l).
Proof.
  induction l as [|y l IH]; simpl; [reflexivity|].
  destruct (key x <? key y)%Z; [|reflexivity].
  rewrite perm_swap. now constructor.
Qed.

Lemma sorted_desc_perm (l : list A) : Permutation l (sorted_desc key l).
Proof.
  induction l as [|x l IH]; simpl; [constructor|].
  rewrite <- insert_desc_perm. now constructor.
Qed.

Lemma insert_desc_sorted (x : A) (l : list A) :
  StronglySorted (desc key) l -> StronglySorted (desc key) (insert_desc key x l).
Proof.
  induction 1 as [|y l Hl IH Hy]; simpl.
  - repeat constructor.
  - destruct (key x <? key y)%Z eqn:Hlt.
    + constructor; [exact IH|].
      rewrite <- insert_desc_perm. constructor; [|exact Hy].
      unfold desc. lia.
    + constructor; [now constructor|].
      constructor; [unfold desc; lia|].
      eapply Forall_impl; [|exact Hy]. unfold desc. intros a Ha. lia.
Qed.

Lemma sorted_desc_sorted (l : list A) :
  StronglySorted (desc key) (sorted_desc key l).
Proof.
  induction l as [|x l IH]; simpl; [constructor|].
  now apply insert_desc_sorted.
Qed.

Lemma insert_desc_filter (g : Z) (x : A) (l : list A) :
  filter (with_key key g) (insert_desc key x l) = filter (with_key key g) (x :: l).
Proof.
  induction l as [|y l IH]; simpl; [reflexivity|].
  destruct (key x <? key y)%Z eqn:Hlt; [|reflexivity].
  simpl. simpl in IH. rewrite IH. unfold with_key.
  destruct (key x =? g)%Z eqn:Hx, (key y =? g)%Z eqn:Hy; try reflexivity.
  lia.
Qed.

(** Stability: the elements of any one key keep their order. *)
Lemma sorted_desc_stable (g : Z) (l : list A) :
  filter (with_key key g) (sorted_desc key l) = filter (with_key key g) l.
Proof.
  induction l as [|x l IH]; simpl; [reflexivity|].
  rewrite insert_desc_filter. simpl. now rewrite IH.
Qed.

Lemma filter_first (p : A -> bool) (l : list A) (x : A) (t : list A) :
  filter p l = x :: t ->
  exists l1 l2, l = l1 ++ x :: l2 /\ Forall (fun a => p a = false) l1.
Proof.
  induction l as [|y l IH]; simpl; [discriminate|].
  destruct (p y) eqn:Hy.
  - intros [= -> _]. exists [], l. split; [reflexivity | constructor].
  - intros H. destruct (IH H) as (l1 & l2 & -> & Hl1).
    exists (y :: l1), l2. split; [reflexivity | now constructor].
Qed.

(** The head of the sorted list is the first element of [l] among those
    of the greatest key. *)
Lemma sorted_desc_head (l : list A) (best : A) (rest : list A) :
  sorted_desc key l = best :: rest ->
  exists before after,
    l = before ++ best :: after
    /\ Forall (fun a => (key a < key best)%Z) before
    /\ Forall (fun a => (key a <= key best)%Z) after.
Proof.
  intros Hs.
  assert (Hmax : Forall (fun a => (key a <= key best)%Z) l).
  { pose proof (sorted_desc_sorted l) as Hsorted. rewrite Hs in Hsorted.
    apply StronglySorted_inv in Hsorted as [_ Hrest].
    apply Forall_forall. intros a Ha.
    apply (Permutation_in _ (sorted_desc_perm l)) in Ha.
    rewrite Hs in Ha. destruct Ha as [->|Ha]; [lia|].
    rewrite Forall_forall in Hrest. apply (Hrest a Ha). }
  pose proof (sorted_desc_stable (key best) l) as Hst.
  rewrite Hs in Hst. simpl in Hst. unfold with_key in Hst at 1.
  rewrite Z.eqb_refl in Hst. symmetry in Hst.
  apply filter_first in Hst as (l1 & l2 & -> & Hl1).
  exists l1, l2. split; [reflexivity|].
  apply Forall_app in Hmax as [Hm1 Hm2].
  apply Forall_cons_iff in Hm2 as [_ Hm2]. split; [|exact Hm2].
  rewrite Forall_forall in *. intros a Ha.
  specialize (Hl1 a Ha). specialize (Hm1 a Ha).
  unfold with_key in Hl1. lia.
Qed.
End SortedDesc.

Lemma sorted_by_grade_Ok (T : Type) (rs rs' : list (candidate T)) :
  sorted_by_grade rs = Ok rs' -> rs' = sorted_desc (@grade_key T) rs.
Proof.
  unfold sorted_by_grade. destruct rs as [|a [|b rs]].
  - now intros [= <-].
  - now intros [= <-].
  - destruct (forallb _ _); [now intros [= <-] | discriminate].
Qed.

(** C4: the sort of a round is a stable descending sort by grade: candidates
    of equal grade keep their order, and the candidate at index 0 is the
    first one of the list, in its order before the sort, among those of the
    greatest grade. *)
Theorem sorted_by_grade_stable (T : Type) (rs rs' : list (candidate T)) :
  sorted_by_grade rs = Ok rs' ->
  Permutation rs rs'
  /\ StronglySorted (fun a b => (grade_key b <= grade_key a)%Z) rs'
  /\ (forall g,
        filter (fun c => (grade_key c =? g)%Z) rs'
        = filter (fun c => (grade_key c =? g)%Z) rs)
  /\ (forall best rest, rs' = best :: rest ->
        exists before after,
          rs = before ++ best :: after
          /\ Forall (fun c => (grade_key c < grade_key best)%Z) before
          /\ Forall (fun c => (grade_key c <= grade_key best)%Z) after).
Proof.
  intros H. apply sorted_by_grade_Ok in H. subst rs'.
  split; [apply sorted_desc_perm|].
  split; [apply sorted_desc_sorted|].
  split; [intros g; apply (sorted_desc_stable (@grade_key T) g)|].
  intros best rest. apply sorted_desc_head.
Qed.

Lemma sorted_by_grade_stable_witness :
  sorted_by_grade four_candidates =
    Ok [example_candidate "second" 30; example_candidate "third" 30;
        example_candidate "first" 10; example_candidate "fourth" (-5)]
  /\ filter (fun c => (grade_key c =? 30)%Z)
       [example_candidate "second" 30; example_candidate "third" 30;
        example_candidate "first" 10; example_candidate "fourth" (-5)]
     = filter (fun c => (grade_key c =? 30)%Z) four_candidates.
Proof.
  split; [reflexivity|].
  apply (sorted_by_grade_stable four_candidates). reflexivity.
Defined.

(** ** The matcher against the declarative semantics *)

Lemma rep_sound (A : Type) (p : ascii -> bool) (k : text -> text -> option A)
    (a : text) :
  forall lo hi b x,
    rep p lo hi k b a = Some x ->
    exists ws a',
      a = ws ++ a' /\ forallb p ws = true /\ lo <= length ws
      /\ within hi (length ws) /\ k (rev ws ++ b) a' = Some x.
Proof.
  assert (Hstop : forall lo hi b a0 x,
    match lo with O => k b a0 | S _ => None end = Some x ->
    exists ws a', a0 = ws ++ a' /\ forallb p ws = true /\ lo <= length ws
      /\ within hi (length ws) /\ k (rev ws ++ b) a' = Some x).
  { intros [|lo] hi b a0 x H; [|discriminate].
    exists [], a0. repeat split; auto. destruct hi; simpl; [lia | exact I]. }
  induction a as [|c a IH]; intros lo hi b x H.
  - apply (Hstop lo hi). simpl in H. now destruct hi as [[|h]|].
  - simpl in H.
    assert (Hrec : forall hi',
      (forall n, within (option_map pred hi') n -> within hi' (S n)) ->
      (if p c
       then match rep p (pred lo) (option_map pred hi') k (c :: b) a with
            | Some y => Some y
            | None => match lo with O => k b (c :: a) | S _ => None end
            end
       else match lo with O => k b (c :: a) | S _ => None end) = Some x ->
      exists ws a', c :: a = ws ++ a' /\ forallb p ws = true
        /\ lo <= length ws /\ within hi' (length ws)
        /\ k (rev ws ++ b) a' = Some x).
    { intros hi' Hw H'. destruct (p c) eqn:Hc; [|now apply Hstop].
      destruct (rep p (pred lo) (option_map pred hi') k (c :: b) a) as [y|]
        eqn:Hr; [|now apply Hstop].
      injection H' as ->.
      apply IH in Hr as (ws & a' & -> & Hp & Hlo & Hhi & Hk).
      exists (c :: ws), a'. simpl. rewrite Hc, Hp, <- app_assoc.
      repeat split; auto. lia. }
    destruct hi as [[|h]|].
    + now apply Hstop.
    + apply Hrec; [|exact H]. intros n Hn. simpl in *. lia.
    + apply Hrec; [|exact H]. intros n _. exact I.
Qed.

Lemma rep_complete (A : Type) (p : ascii -> bool)
    (k : text -> text -> option A) (ws : text) :
  forall lo hi b a' x,
    forallb p ws = true -> lo <= length ws -> within hi (length ws) ->
    k (rev ws ++ b) a' = Some x ->
    exists y, rep p lo hi k b (ws ++ a') = Some y.
Proof.
  induction ws as [|c ws IH]; intros lo hi b a' x Hp Hlo Hhi Hk.
  - simpl in *. assert (lo = 0) as -> by lia.
    destruct a' as [|c a']; simpl.
    + destruct hi as [[|h]|]; eauto.
    + destruct hi as [[|h]|]; eauto;
        destruct (p c); eauto;
        match goal with
        | |- context [rep p ?l ?h k ?b' a'] =>
            destruct (rep p l h k b' a'); eauto
        end.
  - simpl in Hp. apply andb_true_iff in Hp as [Hc Hp].
    assert (Hrec : exists y,
      rep p (pred lo) (option_map pred hi) k (c :: b) (ws ++ a') = Some y).
    { apply (IH _ _ _ _ x); auto.
      - simpl in Hlo. lia.
      - destruct hi as [h|]; simpl in *; [lia | exact I].
      - simpl in Hk. now rewrite <- app_assoc in Hk. }
    destruct Hrec as [y Hy]. simpl. rewrite Hc, Hy.
    destruct hi as [[|h]|]; eauto. simpl in Hhi. lia.
Qed.

(** Whatever the matcher returns comes from a declarative match. *)
Theorem rx_sound (r : regex) :
  forall (A : Type) (k : text -> text -> option A) b a x,
    rx r k b a = Some x ->
    exists b' a', Matches r b a b' a' /\ k b' a' = Some x.
Proof.
  induction r as [|c|lo hi p| |r IH|r1 IH1 r2 IH2]; intros A k b a x H;
    simpl in H.
  - exists b, a. split; [constructor | exact H].
  - destruct a as [|y a]; [discriminate|].
    destruct (Ascii.eqb y c) eqn:Hy; [|discriminate].
    apply Ascii.eqb_eq in Hy. subst y.
    exists (c :: b), a. split; [constructor | exact H].
  - apply rep_sound in H as (ws & a' & -> & Hp & Hlo & Hhi & Hk).
    exists (rev ws ++ b), a'. split; [now constructor | exact Hk].
  - destruct (at_boundary b a) eqn:Hb; [|discriminate].
    exists b, a. split; [now constructor | exact H].
  - destruct (rx r (fun _ _ => Some tt) b a) as [u|] eqn:Hl; [|discriminate].
    apply IH in Hl as (b' & a' & Hm & _).
    exists b, a. split; [econstructor; exact Hm | exact H].
  - apply IH1 in H as (b1 & a1 & Hm1 & H).
    apply IH2 in H as (b2 & a2 & Hm2 & H).
    exists b2, a2. split; [econstructor; eassumption | exact H].
Qed.

(** Where a declarative match exists and the rest succeeds after it, the
    matcher finds a match. *)
Theorem rx_complete (r : regex) :
  forall (A : Type) (k : text -> text -> option A) b a b' a' x,
    Matches r b a b' a' -> k b' a' = Some x ->
    exists y, rx r k b a = Some y.
Proof.
  induction r as [|c|lo hi p| |r IH|r1 IH1 r2 IH2];
    intros A k b a b' a' x Hm Hk; inversion Hm; subst; simpl.
  - eauto.
  - rewrite Ascii.eqb_refl. eauto.
  - eapply rep_complete; eauto.
  - match goal with H : at_boundary _ _ = true |- _ => rewrite H end. eauto.
  - match goal with H : Matches r _ _ _ _ |- _ =>
      destruct (IH unit (fun _ _ => Some tt) _ _ _ _ tt H eq_refl) as [u Hu]
    end.
    rewrite Hu. eauto.
  - match goal with
    | H1 : Matches r1 _ _ _ _, H2 : Matches r2 _ _ _ _ |- _ =>
        destruct (IH2 _ k _ _ _ _ x H2 Hk) as [y Hy];
        exact (IH1 _ (rx r2 k) _ _ _ _ y H1 Hy)
    end.
Qed.

(** ** What the grade pattern matches *)

Ltac inv H := inversion H; subst; clear H.

Lemma Matches_lit (s : String.string) (b a b' a' : text) :
  Matches (lit s) b a b' a' <-> a = str s ++ a' /\ b' = rev (str s) ++ b.
Proof.
  revert b a; induction s as [|c s IH]; intros b a.
  - split.
    + intros H. inv H. auto.
    + intros [-> ->]. constructor.
  - change (lit (String.String c s)) with (Seq (Chr c) (lit s)).
    change (str (String.String c s)) with (c :: str s).
    split.
    + intros H. inv H.
      match goal with H : Matches (Chr c) _ _ _ _ |- _ => inv H end.
      match goal with H : Matches (lit s) _ _ _ _ |- _ =>
        apply IH in H as [-> ->] end.
      simpl. now rewrite <- app_assoc.
    + intros [-> ->]. econstructor; [constructor|].
      apply IH. simpl. now rewrite <- app_assoc.
Qed.

Lemma Matches_spaces (b a b' a' : text) :
  Matches spaces b a b' a' <->
  exists ws, a = ws ++ a' /\ b' = rev ws ++ b /\ forallb is_space ws = true.
Proof.
  split.
  - intros H. inv H. eauto.
  - intros (ws & -> & -> & Hws). constructor; simpl; auto. lia.
Qed.

Lemma Matches_out_of_100 (b a : text) :
  (exists b' a', Matches out_of_100 b a b' a') <-> follows_out_of_100 a.
Proof.
  unfold out_of_100, follows_out_of_100. split.
  - intros (b' & a' & H).
    repeat match goal with
           | H : Matches (Seq _ _) _ _ _ _ |- _ => inv H
           | H : Matches spaces _ _ _ _ |- _ =>
               apply Matches_spaces in H as (? & -> & -> & ?)
           | H : Matches (lit _) _ _ _ _ |- _ =>
               apply Matches_lit in H as [-> ->]
           end.
    eauto 10.
  - intros (ws1 & ws2 & ws3 & rest & -> & H1 & H2 & H3).
    assert (Hsp : forall ws b0 a0, forallb is_space ws = true ->
              Matches spaces b0 (ws ++ a0) (rev ws ++ b0) a0).
    { intros ws b0 a0 Hws. apply Matches_spaces. eauto. }
    assert (Hlit : forall s b0 a0,
              Matches (lit s) b0 (str s ++ a0) (rev (str s) ++ b0) a0).
    { intros s b0 a0. apply Matches_lit. auto. }
    do 2 eexists.
    eapply M_Seq; [apply Hsp, H1|].
    eapply M_Seq; [apply Hlit|].
    eapply M_Seq; [apply Hsp, H2|].
    eapply M_Seq; [apply Hlit|].
    eapply M_Seq; [apply Hsp, H3|].
    apply Hlit.
Qed.

Lemma Matches_grade_number (b a b' a' : text) :
  Matches grade_number b a b' a' <->
  exists sign ds,
    a = sign ++ ds ++ a' /\ b' = rev ds ++ rev sign ++ b
    /\ forallb (Ascii.eqb minus_sign) sign = true /\ length sign <= 1
    /\ forallb is_digit ds = true /\ 1 <= length ds <= 3
    /\ at_boundary b a = true /\ at_boundary b' a' = true.
Proof.
  unfold grade_number. split.
  - intros H.
    repeat match goal with
           | H : Matches (Seq _ _) _ _ _ _ |- _ => inv H
           | H : Matches WordB _ _ _ _ |- _ => inv H
           | H : Matches (Rep _ _ _) _ _ _ _ |- _ => inv H
           end.
    simpl in *. do 2 eexists. repeat split; eauto.
  - intros (sign & ds & -> & -> & Hs & Hsl & Hd & [Hd1 Hd3] & Hb & Hb').
    eapply M_Seq; [now constructor|].
    eapply M_Seq; [constructor; simpl; auto; lia|].
    eapply M_Seq; [constructor; simpl; auto; lia|].
    now constructor.
Qed.

Lemma firstn_app_exact {A} (x y : list A) :
  firstn (length (x ++ y) - length y) (x ++ y) = x.
Proof.
  rewrite length_app, Nat.add_sub, firstn_app, Nat.sub_diag, firstn_all.
  simpl. apply app_nil_r.
Qed.

Lemma app_longer {A} (x y x' y' : list A) :
  x ++ y = x' ++ y' -> length x' <= length x ->
  exists q, x = x' ++ q /\ y' = q ++ y.
Proof.
  revert x'; induction x as [|c x IH]; intros [|c' x'] H Hl; simpl in *.
  - exists []. auto.
  - lia.
  - exists (c :: x). auto.
  - injection H as -> H. destruct (IH x' H) as (q & -> & ->); [lia|].
    exists q. auto.
Qed.

Lemma app_same_length {A} (x y x' y' : list A) :
  x ++ y = x' ++ y' -> length x = length x' -> x = x' /\ y = y'.
Proof.
  intros H Hl. destruct (app_longer _ _ _ _ H) as (q & Hx & Hy); [lia|].
  assert (q = []) as ->.
  { apply length_zero_iff_nil. rewrite Hx, length_app in Hl. lia. }
  rewrite app_nil_r in Hx. auto.
Qed.

Lemma digit_is_word (c : ascii) : is_digit c = true -> is_word c = true.
Proof. revert c; by_cases_on_ascii. Qed.

Lemma digit_not_sign (c : ascii) :
  is_digit c = true ->
  Ascii.eqb c minus_sign = false /\ Ascii.eqb c "+" = false
  /\ Ascii.eqb minus_sign c = false.
Proof. revert c; by_cases_on_ascii; discriminate. Qed.

Lemma digits_head_word (ds rest : text) :
  forallb is_digit ds = true -> 1 <= length ds ->
  head_is_word (ds ++ rest) = true /\ head_is_word (rev ds ++ rest) = true.
Proof.
  intros Hd Hl. split.
  - destruct ds as [|c ds]; [simpl in Hl; lia|].
    simpl in *. apply andb_true_iff in Hd as [Hc _]. now apply digit_is_word.
  - destruct (rev ds) as [|c r] eqn:Hr.
    + apply (f_equal (@length _)) in Hr. rewrite length_rev in Hr.
      simpl in Hr. lia.
    + simpl. apply digit_is_word.
      rewrite forallb_forall in Hd. apply Hd, in_rev. rewrite Hr. now left.
Qed.

Lemma sign_cases (sign : text) :
  forallb (Ascii.eqb minus_sign) sign = true -> length sign <= 1 ->
  sign = [] \/ sign = [minus_sign].
Proof.
  destruct sign as [|c [|c' sign]]; cbn [forallb length]; intros H Hl;
    auto; [|lia].
  rewrite andb_true_r in H. apply Ascii.eqb_eq in H. subst. auto.
Qed.

(** A run of digits that ends before a non-word character is determined by
    the text it starts. *)
Lemma digit_run_unique (ds ds' post post' : text) :
  ds ++ post = ds' ++ post' ->
  forallb is_digit ds = true -> forallb is_digit ds' = true ->
  head_is_word post = false -> head_is_word post' = false ->
  ds = ds' /\ post = post'.
Proof.
  revert ds'; induction ds as [|c ds IH]; intros [|c' ds'] H Hd Hd' Hp Hp';
    simpl in *.
  - auto.
  - subst post. simpl in Hp. apply andb_true_iff in Hd' as [Hc _].
    apply digit_is_word in Hc. congruence.
  - subst post'. simpl in Hp'. apply andb_true_iff in Hd as [Hc _].
    apply digit_is_word in Hc. congruence.
  - injection H as -> H.
    apply andb_true_iff in Hd as [_ Hd]. apply andb_true_iff in Hd' as [_ Hd'].
    destruct (IH ds' H Hd Hd' Hp Hp') as [-> ->]. auto.
Qed.

Lemma int_of_digits (ds : text) :
  forallb is_digit ds = true -> 1 <= length ds ->
  int_of_text ds = Some (digits_val ds).
Proof.
  destruct ds as [|c ds]; simpl; intros Hd Hl; [lia|].
  pose proof Hd as Hd0. apply andb_true_iff in Hd0 as [Hc _].
  destruct (digit_not_sign c Hc) as (-> & -> & _). now rewrite Hd.
Qed.

Lemma int_of_negative (ds : text) :
  forallb is_digit ds = true -> 1 <= length ds ->
  int_of_text (minus_sign :: ds) = Some (- digits_val ds)%Z.
Proof.
  destruct ds as [|c ds]; simpl; intros Hd Hl; [lia|]. now rewrite Hd.
Qed.

Lemma match_here_sound (b a m : text) :
  match_here grade_pattern b a = Some m -> grade_match b a m.
Proof.
  unfold match_here, grade_pattern. intros H.
  apply rx_sound in H as (b' & a' & Hm & Hk).
  inv Hm.
  match goal with H : Matches (Look _) _ _ _ _ |- _ => inv H end.
  match goal with H : Matches grade_number _ _ _ _ |- _ =>
    apply Matches_grade_number in H
      as (sign & ds & -> & -> & Hs & Hsl & Hd & Hdl & Hb & Hb') end.
  injection Hk as <-.
  exists sign, ds, a'. split; [reflexivity|].
  split; [rewrite app_assoc; apply firstn_app_exact|].
  split; [now apply sign_cases|].
  split; [exact Hd|]. split; [exact Hdl|]. split; [exact Hb|].
  split.
  - unfold at_boundary in Hb'.
    destruct (digits_head_word ds (rev sign ++ b) Hd) as [_ Hw]; [lia|].
    rewrite Hw in Hb'. now destruct (head_is_word a').
  - apply (Matches_out_of_100 (rev ds ++ rev sign ++ b)). eauto.
Qed.

Lemma match_here_complete (b a m : text) :
  grade_match b a m -> exists m', match_here grade_pattern b a = Some m'.
Proof.
  intros (sign & ds & post & -> & -> & Hs & Hd & Hdl & Hb & Hp & Hf).
  apply (Matches_out_of_100 (rev ds ++ rev sign ++ b)) in Hf
    as (b1 & a1 & Hf).
  unfold match_here. eapply rx_complete; [|reflexivity].
  unfold grade_pattern. eapply M_Seq; [|econstructor; exact Hf].
  apply Matches_grade_number. exists sign, ds.
  repeat split; auto; try lia.
  - destruct Hs as [->| ->]; reflexivity.
  - destruct Hs as [->| ->]; simpl; lia.
  - unfold at_boundary.
    destruct (digits_head_word ds (rev sign ++ b) Hd) as [_ ->]; [lia|].
    now rewrite Hp.
Qed.

(** A match at a position is a grade site there, or one character later
    when the match took a minus sign. *)
Lemma grade_match_site (pre a m : text) :
  grade_match (rev pre) a m ->
  exists ds post,
    forallb is_digit ds = true /\ 1 <= length ds
    /\ (a = ds ++ post /\ m = ds /\ grade_site pre ds post
        \/ a = minus_sign :: ds ++ post /\ m = minus_sign :: ds
           /\ grade_site (pre ++ [minus_sign]) ds post).
Proof.
  intros (sign & ds & post & -> & -> & Hs & Hd & Hdl & Hb & Hp & Hf).
  exists ds, post. split; [exact Hd|]. split; [lia|].
  destruct Hs as [->| ->]; [left|right]; simpl;
    (split; [reflexivity|]); (split; [reflexivity|]);
    unfold grade_site; repeat split; auto; try lia.
  - unfold at_boundary in Hb. simpl in Hb.
    destruct (digits_head_word ds post Hd) as [Hw _]; [lia|].
    rewrite Hw in Hb. now destruct (head_is_word (rev pre)).
  - rewrite rev_app_distr. reflexivity.
Qed.

Lemma grade_site_match (pre ds post : text) :
  grade_site pre ds post -> grade_match (rev pre) (ds ++ post) ds.
Proof.
  intros (Hd & Hdl & Hpre & Hpost & Hf).
  exists [], ds, post. repeat split; auto; try lia.
  unfold at_boundary. simpl.
  destruct (digits_head_word ds post Hd) as [-> _]; [lia|]. now rewrite Hpre.
Qed.

(** ** [re.search]: the leftmost match *)

Lemma search_from_eq (r : regex) (b a : text) :
  search_from r b a =
  match match_here r b a with
  | Some m => Some m
  | None =>
      match a with
      | [] => None
      | c :: a' => search_from r (c :: b) a'
      end
  end.
Proof. destruct a; reflexivity. Qed.

Lemma search_from_Some (r : regex) (a : text) :
  forall b m,
    search_from r b a = Some m ->
    exists p1 p2,
      a = p1 ++ p2 /\ match_here r (rev p1 ++ b) p2 = Some m
      /\ forall q1 q2, p1 = q1 ++ q2 -> q2 <> [] ->
           match_here r (rev q1 ++ b) (q2 ++ p2) = None.
Proof.
  induction a as [|c a IH]; intros b m H; rewrite search_from_eq in H.
  - destruct (match_here r b []) as [m'|] eqn:Hm; [|discriminate].
    exists [], []. split; [reflexivity|]. split; [simpl; congruence|].
    intros q1 q2 Hq Hne. symmetry in Hq. apply app_eq_nil in Hq as [_ ->].
    congruence.
  - destruct (match_here r b (c :: a)) as [m'|] eqn:Hm.
    + exists [], (c :: a). split; [reflexivity|].
      split; [simpl; congruence|].
      intros q1 q2 Hq Hne. symmetry in Hq. apply app_eq_nil in Hq as [_ ->].
      congruence.
    + apply IH in H as (p1 & p2 & -> & Hp & Hleft).
      exists (c :: p1), p2. split; [reflexivity|].
      split; [simpl; now rewrite <- app_assoc|].
      intros [|c' q1] q2 Hq Hne; simpl in Hq.
      * subst q2. exact Hm.
      * injection Hq as <- ->. simpl. rewrite <- !app_assoc.
        now apply Hleft.
Qed.

Lemma search_from_None (r : regex) (a : text) :
  forall b,
    search_from r b a = None ->
    forall p1 p2, a = p1 ++ p2 -> match_here r (rev p1 ++ b) p2 = None.
Proof.
  induction a as [|c a IH]; intros b H p1 p2 Ha; rewrite search_from_eq in H.
  - symmetry in Ha. apply app_eq_nil in Ha as [-> ->].
    simpl. now destruct (match_here r b []).
  - destruct (match_here r b (c :: a)) as [m'|] eqn:Hm; [discriminate|].
    destruct p1 as [|c' p1]; simpl in Ha.
    + subst p2. exact Hm.
    + injection Ha as <- ->. simpl. rewrite <- app_assoc. now apply IH.
Qed.

(** ** The grade of a grading text *)

Lemma extract_grade_total (t : text) :
  extract_grade t = Raise (ValueError (no_grade_message t))
  /\ re_search grade_pattern t = None
  \/ exists p1 p2 m z,
       extract_grade t = Ok z /\ t = p1 ++ p2
       /\ re_search grade_pattern t = Some m
       /\ int_of_text m = Some z
       /\ grade_match (rev p1) p2 m
       /\ forall q1 q2, p1 = q1 ++ q2 -> q2 <> [] ->
            match_here grade_pattern (rev q1) (q2 ++ p2) = None.
Proof.
  unfold extract_grade.
  destruct (re_search grade_pattern t) as [m|] eqn:Hs; [right | now left].
  unfold re_search in Hs.
  apply search_from_Some in Hs as (p1 & p2 & -> & Hm & Hleft).
  rewrite app_nil_r in Hm.
  apply match_here_sound in Hm.
  assert (Hint : exists z, int_of_text m = Some z).
  { destruct Hm as (sign & ds & post & _ & -> & Hsg & Hd & Hdl & _).
    destruct Hsg as [->| ->]; simpl app.
    - rewrite int_of_digits; eauto; lia.
    - rewrite int_of_negative; eauto; lia. }
  destruct Hint as [z Hz]. exists p1, p2, m, z. rewrite Hz.
  repeat split; auto.
  intros q1 q2 Hq Hne. specialize (Hleft q1 q2 Hq Hne).
  now rewrite app_nil_r in Hleft.
Qed.

Lemma site_gives_match (pre ds post : text) :
  grade_site pre ds post ->
  exists m, match_here grade_pattern (rev pre) (ds ++ post) = Some m.
Proof.
  intros H. eapply match_here_complete, grade_site_match, H.
Qed.

Lemma site_gives_grade (pre ds post : text) :
  grade_site pre ds post -> exists z, extract_grade (pre ++ ds ++ post) = Ok z.
Proof.
  intros Hsite. destruct (site_gives_match Hsite) as [m Hm].
  destruct (extract_grade_total (pre ++ ds ++ post))
    as [[_ Hnone]|(p1 & p2 & m' & z & Hz & _)]; [|eauto].
  unfold re_search in Hnone.
  pose proof (@search_from_None _ _ _ Hnone pre (ds ++ post) eq_refl) as Hn.
  rewrite app_nil_r in Hn. congruence.
Qed.

(** The pattern on some grading texts. *)
Example extract_grade_examples :
  extract_grade (str "250 out of 100") = Ok 250%Z
  /\ extract_grade (str "I give 100 out of 100") = Ok 100%Z
  /\ extract_grade (str "007 out of 100") = Ok 7%Z
  /\ extract_grade (str "7  out of 100") = Ok 7%Z
  /\ extract_grade (str "7 outof100") = Ok 7%Z
  /\ extract_grade (str "85" ++ [nl] ++ str "out of 100") = Ok 85%Z
  /\ extract_grade (str "5 out of 100, 7 out of 100") = Ok 5%Z
  /\ extract_grade (str "7out of 100")
     = Raise (ValueError (no_grade_message (str "7out of 100")))
  /\ extract_grade (str "1234 out of 100")
     = Raise (ValueError (no_grade_message (str "1234 out of 100"))).
Proof. repeat split. Qed.

(** The slip on negative grades: the word boundary in front of the minus
    sign makes the pattern drop it, unless a word character precedes. *)
Example extract_grade_drops_minus :
  extract_grade (str "-50 out of 100") = Ok 50%Z
  /\ extract_grade (str "Grade: -50 out of 100") = Ok 50%Z
  /\ extract_grade (str "x-50 out of 100") = Ok (-50)%Z.
Proof. repeat split. Qed.

(** C1, as stated, fails: a text can hold "7 out of 100" and still have no
    grade, because the pattern wants a word boundary in front of the
    number. *)
Lemma extract_grade_needs_boundary :
  claimed_occurrence (str "x7 out of 100") 7
  /\ extract_grade (str "x7 out of 100")
     = Raise (ValueError (no_grade_message (str "x7 out of 100")))
  /\ extract_grade (str "x7 out of 100") <> Ok 7%Z.
Proof.
  split; [|split; [reflexivity | discriminate]].
  exists (str "x"), [], (str "7"), []. repeat split; auto; simpl; lia.
Qed.

(** C1, amended: the grade is the number of the first grade site of the
    text: a run of one to three digits with no word character on either
    side, followed by optional white space, "out", optional white space,
    "of", optional white space and "100".  Where no minus sign stands in
    front of that run, the result is its value, unclamped; a text has a
    grade exactly when it has a grade site, and otherwise [ValueError] is
    raised. *)
Theorem extract_grade_first_site :
  (forall pre ds post,
     grade_site pre ds post ->
     (forall p, pre <> p ++ [minus_sign]) ->
     (forall pre' ds' post',
        pre' ++ ds' ++ post' = pre ++ ds ++ post ->
        grade_site pre' ds' post' -> length pre <= length pre') ->
     extract_grade (pre ++ ds ++ post) = Ok (digits_val ds))
  /\ (forall t,
        (exists z, extract_grade t = Ok z)
        <-> (exists pre ds post, t = pre ++ ds ++ post
                                 /\ grade_site pre ds post))
  /\ (forall t,
        extract_grade t = Raise (ValueError (no_grade_message t))
        <-> ~ (exists pre ds post, t = pre ++ ds ++ post
                                   /\ grade_site pre ds post)).
Proof.
  assert (Hiff : forall t,
    (exists z, extract_grade t = Ok z)
    <-> (exists pre ds post, t = pre ++ ds ++ post
                             /\ grade_site pre ds post)).
  { intros t. split.
    - intros [z Hz].
      destruct (extract_grade_total t)
        as [[Hr _]|(p1 & p2 & m & z' & _ & -> & _ & _ & Hm & _)];
        [congruence|].
      apply grade_match_site in Hm
        as (ds & post & _ & _ & [(-> & _ & Hs)|(-> & _ & Hs)]).
      + eauto.
      + exists (p1 ++ [minus_sign]), ds, post.
        split; [now rewrite <- app_assoc | exact Hs].
    - intros (pre & ds & post & -> & Hs). now apply site_gives_grade. }
  split; [|split; [exact Hiff|]].
  - intros pre ds post Hsite Hnominus Hfirst.
    destruct (site_gives_match Hsite) as [m0 Hm0].
    destruct (extract_grade_total (pre ++ ds ++ post))
      as [[_ Hnone]|(p1 & p2 & m & z & Hz & Ht & _ & Hint & Hm & Hleft)].
    { unfold re_search in Hnone.
      pose proof (@search_from_None _ _ _ Hnone pre (ds ++ post) eq_refl)
        as Hn.
      rewrite app_nil_r in Hn. congruence. }
    rewrite Hz. f_equal.
    assert (Hle : length p1 <= length pre).
    { destruct (Nat.le_gt_cases (length p1) (length pre)) as [Hle|Hgt];
        [exact Hle|].
      symmetry in Ht.
      destruct (app_longer _ _ _ _ Ht) as (q & Hp1 & Hq); [lia|].
      assert (Hqne : q <> []).
      { intros ->. rewrite app_nil_r in Hp1. subst p1. lia. }
      specialize (Hleft _ _ Hp1 Hqne). rewrite <- Hq in Hleft. congruence. }
    destruct Hsite as (Hd & Hdl & Hpre & Hpost & Hf).
    apply grade_match_site in Hm
      as (ds' & post' & Hd' & Hdl' & [(-> & -> & Hs')|(-> & -> & Hs')]).
    + assert (Hlen : length pre <= length p1).
      { apply (Hfirst p1 ds' post'); [now symmetry | exact Hs']. }
      destruct (app_same_length _ _ _ _ Ht) as [<- Heq]; [lia|].
      destruct Hs' as (_ & _ & _ & Hpost' & _).
      destruct (digit_run_unique _ _ _ _ Heq Hd Hd' Hpost Hpost') as [<- _].
      rewrite int_of_digits in Hint; [congruence | exact Hd | lia].
    + exfalso.
      assert (Hlen : length pre <= length (p1 ++ [minus_sign])).
      { apply (Hfirst (p1 ++ [minus_sign]) ds' post');
          [rewrite <- app_assoc; now symmetry | exact Hs']. }
      rewrite length_app in Hlen. simpl in Hlen.
      destruct (Nat.eq_dec (length pre) (length p1)) as [Heq|Hne].
      * destruct (app_same_length _ _ _ _ Ht) as [_ Hrest]; [lia|].
        destruct ds as [|c ds]; [simpl in Hdl; lia|].
        simpl in Hrest, Hd. injection Hrest as -> _.
        apply andb_true_iff in Hd as [Hc _]. discriminate.
      * change (minus_sign :: ds' ++ post')
          with ([minus_sign] ++ ds' ++ post') in Ht.
        rewrite (app_assoc p1) in Ht.
        destruct (app_same_length _ _ _ _ Ht) as [Hp _].
        { rewrite length_app. simpl. lia. }
        exact (Hnominus p1 Hp).
  - intros t. split.
    + intros Hr Hsite. apply Hiff in Hsite as [z Hz]. congruence.
    + intros Hno.
      destruct (extract_grade_total t) as [[Hr _]|(p1 & p2 & m & z & Hz & _)];
        [exact Hr|].
      exfalso. apply Hno, Hiff. eauto.
Qed.

Lemma extract_grade_first_site_witness :
  grade_site [] (str "250") (str " out of 100")
  /\ extract_grade (str "250 out of 100") = Ok 250%Z.
Proof.
  assert (Hsite : grade_site [] (str "250") (str " out of 100")).
  { repeat split; simpl; try lia.
    exists (str " "), (str " "), (str " "), []. repeat split. }
  split; [exact Hsite|].
  apply (proj1 extract_grade_first_site [] (str "250") (str " out of 100")).
  - exact Hsite.
  - intros p Hp. destruct p; discriminate.
  - intros pre' ds' post' _ _. simpl. lia.
Defined.

(** ** Runs of the refiner *)

(** The example run of one round completes; with a second round its
    eleventh call fails and [main] returns all the same. *)
Example demo_runs :
  fst (main_body Nat.sub demo_fmt demo_env 1 world0) = Ok tt
  /\ fst (main Nat.sub demo_fmt demo_env 2 world0) = Ok tt.
Proof. split; vm_compute; reflexivity. Qed.

Lemma fst_bind_Ok {A B} (m : M A) (f : A -> M B) (w : world) (b : B) :
  fst (bind m f w) = Ok b ->
  exists a, fst (m w) = Ok a /\ fst (f a (snd (m w))) = Ok b
            /\ snd (bind m f w) = snd (f a (snd (m w))).
Proof.
  unfold bind. destruct (m w) as [[a|e] w1]; simpl; [eauto | discriminate].
Qed.

Lemma calls_of_app (x y : list event) :
  calls_of (x ++ y) = calls_of x ++ calls_of y.
Proof. apply flat_map_app. Qed.

Lemma quiet_app (x y : list event) : quiet x -> quiet y -> quiet (x ++ y).
Proof. intros Hx Hy. apply Forall_app. now split. Qed.

Lemma quiet_no_calls_good (evs : list event) :
  quiet evs -> calls_of evs = [] -> forall A (a : A), outcome_of (Ok a) evs.
Proof. intros Hq Hc A a. split; [exact Hq|]. rewrite Hc. constructor. Qed.

(** What came before went well: the outcome is that of what follows. *)
Lemma outcome_of_app {A B} (a : A) (r : result B) (evs1 evs2 : list event) :
  outcome_of (Ok a) evs1 -> outcome_of r evs2 -> outcome_of r (evs2 ++ evs1).
Proof.
  intros [Hq1 Hg1] [Hq2 Ho2]. split; [now apply quiet_app|].
  rewrite calls_of_app.
  destruct r as [b|[msg|m| | |]].
  - apply Forall_app. now split.
  - destruct Ho2 as (q & rest & -> & Hrest).
    exists q, (rest ++ calls_of evs1). split; [reflexivity|].
    apply Forall_app. now split.
  - destruct Ho2 as (q & r & rest & -> & Hq & Hm & He & Hrest).
    exists q, r, (rest ++ calls_of evs1).
    repeat split; auto. apply Forall_app. now split.
  - apply Forall_app. now split.
  - apply Forall_app. now split.
  - apply Forall_app. now split.
Qed.

Lemma mp_bind {A B} (m : M A) (f : A -> M B) :
  model_phase m -> (forall a, model_phase (f a)) -> model_phase (bind m f).
Proof.
  intros Hm Hf w. unfold bind.
  destruct (Hm w) as (evs1 & He1 & Ho1).
  destruct (m w) as [[a|e] w1]; simpl in *.
  - destruct (Hf a w1) as (evs2 & He2 & Ho2).
    exists (evs2 ++ evs1). rewrite He2, He1, app_assoc.
    split; [reflexivity|]. eapply outcome_of_app; eassumption.
  - exists evs1. auto.
Qed.

Lemma mp_ret {A} (a : A) : model_phase (ret a).
Proof.
  intros w. exists []. split; [reflexivity|].
  apply quiet_no_calls_good; [constructor | reflexivity].
Qed.

Lemma mp_log (l : level) (msg : text) : model_phase (log l msg).
Proof.
  intros w. exists [EvLog l msg]. split; [reflexivity|].
  apply quiet_no_calls_good; [repeat constructor | reflexivity].
Qed.

Lemma mp_lift {A} (r : result A) :
  (forall msg, r <> Raise (ClientError msg)) ->
  (forall msg, r <> Raise (ValueError msg)) ->
  model_phase (lift r).
Proof.
  intros Hc Hv w. exists []. split; [reflexivity|]. split; [constructor|].
  destruct r as [a|[msg|m| | |]]; simpl; try constructor.
  - now destruct (Hc msg).
  - now destruct (Hv m).
Qed.

Section RunProps.
Variable T : Type.
Variable tsub : T -> T -> T.
Variable fmt2f : T -> text.
Variable E : env T.

Lemma mp_now : model_phase (now E).
Proof.
  intros w. exists []. split; [reflexivity|].
  apply quiet_no_calls_good; [constructor | reflexivity].
Qed.

Lemma mp_call (q : request) :
  ~ is_grading q -> model_phase (call_converse E q).
Proof.
  intros Hq w. exists [EvCall q (converse E (calls w) q)].
  unfold call_converse.
  destruct (converse E (calls w) q) as [r|msg]; simpl;
    (split; [reflexivity|]); (split; [repeat constructor|]); simpl.
  - repeat constructor. intros Hg. contradiction.
  - exists q, []. split; [reflexivity | constructor].
Qed.

Ltac mp_step :=
  first [ apply mp_ret | apply mp_log | apply mp_now
        | apply mp_bind; [|intros ?] ].

Lemma mp_generate (mid sys : text) (msgs : list text) (max : Z) :
  max <> 100%Z -> model_phase (generate_conversation E mid sys msgs max).
Proof.
  intros Hmax. unfold generate_conversation.
  apply mp_bind; [apply mp_log | intros _].
  apply mp_bind; [apply mp_call; exact Hmax | intros r].
  repeat mp_step.
Qed.

Lemma mp_get_feedback (mid resp sys : text) :
  model_phase (get_feedback E mid resp sys).
Proof.
  unfold get_feedback. apply mp_bind; [|intros r; apply mp_ret].
  apply mp_generate. discriminate.
Qed.

(** The result and the events of a grading call. *)
Lemma grade_response_run (mid resp fb sys : text) (w : world) :
  let q := {| modelId := mid; system := sys;
              messages := [grading_prompt resp fb];
              maxTokens := 100 |} in
  exists evs,
    events (snd (grade_response E mid resp fb sys w)) = evs ++ events w
    /\ quiet evs
    /\ calls_of evs = [(q, converse E (calls w) q)]
    /\ fst (grade_response E mid resp fb sys w)
       = match converse E (calls w) q with
         | Answer r => extract_grade (strip (rtext r))
         | ClientFailure msg => Raise (ClientError msg)
         end.
Proof.
  intros q. unfold grade_response, generate_conversation, bind, log, emit,
    call_converse, lift, ret. simpl. fold q.
  destruct (converse E (calls w) q) as [r|msg]; simpl.
  - eexists (_ :: _ :: _ :: _ :: _ :: _ :: [_]).
    split; [reflexivity|]. split; [repeat constructor|].
    split; reflexivity.
  - eexists (_ :: [_]).
    split; [reflexivity|]. split; [repeat constructor|].
    split; reflexivity.
Qed.

Lemma mp_grade_response (mid resp fb sys : text) :
  model_phase (grade_response E mid resp fb sys).
Proof.
  intros w.
  destruct (grade_response_run mid resp fb sys w)
    as (evs & He & Hq & Hc & Hr).
  exists evs. split; [exact He|]. split; [exact Hq|].
  rewrite Hr, Hc.
  destruct (converse E (calls w) _) as [r|msg].
  - destruct (extract_grade_total (strip (rtext r)))
      as [[Hx _]|(_ & _ & _ & z & Hz & _)].
    + rewrite Hx. do 3 eexists. split; [reflexivity|].
      repeat split; auto. 
    + rewrite Hz. repeat constructor. intros _. eauto.
  - do 2 eexists. split; [reflexivity | constructor].
Qed.

Lemma mp_seed : model_phase (seed tsub E).
Proof.
  unfold seed. apply mp_bind; [apply mp_now | intros t0].
  apply mp_bind; [apply mp_generate; discriminate | intros r].
  repeat mp_step.
Qed.

Lemma mp_seeds (n : nat) : model_phase (seeds tsub E n).
Proof.
  induction n as [|n IH]; simpl; [apply mp_ret|].
  apply mp_bind; [apply mp_seed | intros c].
  apply mp_bind; [exact IH | intros cs]. apply mp_ret.
Qed.

Lemma mp_assess (r : candidate T) : model_phase (assess tsub E r).
Proof.
  unfold assess. apply mp_bind; [apply mp_now | intros t0].
  apply mp_bind; [apply mp_get_feedback | intros fb].
  apply mp_bind; [apply mp_now | intros t1].
  apply mp_bind; [apply mp_now | intros t2].
  apply mp_bind; [apply mp_grade_response | intros g].
  repeat mp_step.
Qed.

Lemma mp_assess_all (rs : list (candidate T)) :
  model_phase (assess_all tsub E rs).
Proof.
  induction rs as [|r rs IH]; simpl; [apply mp_ret|].
  apply mp_bind; [apply mp_assess | intros c].
  apply mp_bind; [exact IH | intros cs]. apply mp_ret.
Qed.

Lemma sorted_by_grade_raises (rs : list (candidate T)) :
  (exists rs', sorted_by_grade rs = Ok rs')
  \/ sorted_by_grade rs = Raise TypeError.
Proof.
  unfold sorted_by_grade. destruct rs as [|a [|b rs]]; eauto.
  destruct (forallb _ _); eauto.
Qed.

Lemma mp_refine_best (it : nat) (rs : list (candidate T)) :
  model_phase (refine_best E it rs).
Proof.
  destruct rs as [|best rest]; simpl.
  - apply (mp_lift (A := list (candidate T)) (r := Raise IndexError));
      discriminate.
  - apply mp_bind; [apply mp_log | intros _].
    apply mp_bind; [apply mp_generate; discriminate | intros r].
    apply mp_ret.
Qed.

Lemma mp_round (it : nat) (rs : list (candidate T)) :
  model_phase (round tsub E it rs).
Proof.
  unfold round. apply mp_bind; [apply mp_log | intros _].
  apply mp_bind; [apply mp_assess_all | intros graded].
  apply mp_bind; [|intros ranked; apply mp_refine_best].
  apply mp_lift; intros msg H;
    destruct (sorted_by_grade_raises graded) as [[rs' Hs]|Hs];
    congruence.
Qed.

Lemma mp_rounds (n : nat) :
  forall it rs, model_phase (rounds tsub E n it rs).
Proof.
  induction n as [|n IH]; intros it rs; simpl; [apply mp_ret|].
  apply mp_bind; [apply mp_round | intros rs']. apply IH.
Qed.
End RunProps.

(** ** What a round returns *)

Section RoundProps.
Variable T : Type.
Variable tsub : T -> T -> T.
Variable E : env T.

Lemma seeds_length (n : nat) :
  forall w rs, fst (seeds tsub E n w) = Ok rs -> length rs = n.
Proof.
  induction n as [|n IH]; intros w rs H; simpl in H.
  - injection H as <-. reflexivity.
  - apply fst_bind_Ok in H as (c & _ & H & _).
    apply fst_bind_Ok in H as (cs & Hcs & H & _).
    injection H as <-. simpl. f_equal. eapply IH, Hcs.
Qed.

Lemma assess_result (r c : candidate T) (w : world) :
  fst (assess tsub E r w) = Ok c ->
  response c = response r /\ time_taken c = time_taken r /\ assessed c.
Proof.
  unfold assess. intros H.
  apply fst_bind_Ok in H as (t0 & _ & H & _).
  apply fst_bind_Ok in H as (fb & _ & H & _).
  apply fst_bind_Ok in H as (t1 & _ & H & _).
  apply fst_bind_Ok in H as (t2 & _ & H & _).
  apply fst_bind_Ok in H as (g & _ & H & _).
  apply fst_bind_Ok in H as (t3 & _ & H & _).
  injection H as <-. unfold assessed. simpl. eauto 10.
Qed.

Lemma assess_all_result (rs : list (candidate T)) :
  forall w graded,
    fst (assess_all tsub E rs w) = Ok graded ->
    length graded = length rs /\ Forall (@assessed T) graded
    /\ map (@response T) graded = map (@response T) rs.
Proof.
  induction rs as [|r rs IH]; intros w graded H; simpl in H.
  - injection H as <-. repeat split; constructor.
  - apply fst_bind_Ok in H as (c & Hc & H & _).
    apply fst_bind_Ok in H as (cs & Hcs & H & _).
    injection H as <-.
    apply assess_result in Hc as (Hr & _ & Ha).
    apply IH in Hcs as (Hl & Hall & Hm).
    simpl. repeat split; [congruence | now constructor | congruence].
Qed.

Lemma refine_best_result (it : nat) (ranked rs' : list (candidate T))
    (w : world) :
  fst (refine_best E it ranked w) = Ok rs' ->
  exists best rest reply,
    ranked = best :: rest
    /\ rs' = set_response best (rtext reply) :: rest
    /\ In (EvCall (refine_request best) (Answer reply))
          (events (snd (refine_best E it ranked w))).
Proof.
  destruct ranked as [|best rest]; simpl; [discriminate|].
  unfold generate_conversation, bind, log, emit, call_converse, ret. simpl.
  fold (refine_request best).
  destruct (converse E (calls w) (refine_request best)) as [reply|msg];
    simpl; [|discriminate].
  intros [= <-]. exists best, rest, reply.
  split; [reflexivity|]. split; [reflexivity|]. simpl. tauto.
Qed.

Lemma set_response_sorted (best : candidate T) (t : text)
    (rest : list (candidate T)) :
  StronglySorted (@by_grade_desc T) (best :: rest) ->
  StronglySorted (@by_grade_desc T) (set_response best t :: rest).
Proof.
  intros H. apply StronglySorted_inv in H as [Hrest Hbest].
  constructor; [exact Hrest | exact Hbest].
Qed.

Lemma round_result (it : nat) (rs rs' : list (candidate T)) (w : world) :
  fst (round tsub E it rs w) = Ok rs' ->
  length rs' = length rs /\ Forall (@assessed T) rs'
  /\ StronglySorted (@by_grade_desc T) rs'.
Proof.
  unfold round. intros H.
  apply fst_bind_Ok in H as (u & _ & H & _).
  apply fst_bind_Ok in H as (graded & Hg & H & _).
  apply fst_bind_Ok in H as (ranked & Hs & H & _).
  apply assess_all_result in Hg as (Hl & Ha & _).
  unfold lift in Hs. simpl in Hs.
  apply sorted_by_grade_Ok in Hs.
  apply refine_best_result in H as (best & rest & reply & Hr & -> & _).
  pose proof (sorted_desc_perm (@grade_key T) graded) as Hp.
  pose proof (sorted_desc_sorted (@grade_key T) graded) as Hsorted.
  rewrite <- Hs, Hr in Hp, Hsorted.
  split; [|split].
  - simpl. rewrite <- Hl, (Permutation_length Hp). reflexivity.
  - assert (Hall : Forall (@assessed T) (best :: rest)).
    { apply Forall_forall. intros c Hc. rewrite Forall_forall in Ha.
      apply Ha. eapply Permutation_in; [symmetry; exact Hp | exact Hc]. }
    apply Forall_cons_iff in Hall as [Hb Hrest].
    constructor; [exact Hb | exact Hrest].
  - now apply set_response_sorted.
Qed.

Lemma rounds_result (n : nat) :
  forall it rs rs' w,
    fst (rounds tsub E n it rs w) = Ok rs' ->
    length rs' = length rs
    /\ (1 <= n -> Forall (@assessed T) rs'
                  /\ StronglySorted (@by_grade_desc T) rs').
Proof.
  induction n as [|n IH]; intros it rs rs' w H; simpl in H.
  - injection H as <-. split; [reflexivity | lia].
  - apply fst_bind_Ok in H as (rs1 & H1 & H & _).
    apply round_result in H1 as (Hl1 & Ha1 & Hs1).
    destruct n as [|n].
    + simpl in H. injection H as <-. auto.
    + apply IH in H as (Hl & Hrest). split; [congruence|].
      intros _. apply Hrest. lia.
Qed.

Lemma refine_best_frame (it : nat) (ranked rs' : list (candidate T))
    (w : world) :
  fst (refine_best E it ranked w) = Ok rs' ->
  exists best rest reply,
    ranked = best :: rest
    /\ converse E (calls w) (refine_request best) = Answer reply
    /\ rs' = set_response best (rtext reply) :: rest
    /\ In (EvCall (refine_request best) (Answer reply))
          (events (snd (refine_best E it ranked w))).
Proof.
  destruct ranked as [|best rest]; simpl; [discriminate|].
  unfold generate_conversation, bind, log, emit, call_converse, ret. simpl.
  fold (refine_request best).
  destruct (converse E (calls w) (refine_request best)) as [reply|msg]
    eqn:Hc; simpl; [|discriminate].
  intros [= <-]. exists best, rest, reply.
  split; [reflexivity|]. split; [exact Hc|]. split; [reflexivity|].
  simpl. tauto.
Qed.

(** C5: a round that completes returns the ranked list with the text of
    its first candidate replaced by the refiner's answer, and nothing else
    changed.  Here [graded] is the list the assessment of this round
    returned for [rs], [best :: rest] is its sort, and [reply] is the
    answer the client gave to the refinement request for [best]; the
    round returns [refined :: rest], where [refined] has the text of
    [reply] and the feedback, the grade and the three times of [best]. *)
Theorem round_refines_best_only (it : nat) (rs rs' : list (candidate T))
    (w : world) :
  fst (round tsub E it rs w) = Ok rs' ->
  let w0 :=
    snd (log INFO (str "Iteration " ++ text_of_Z (Z.of_nat it + 1)) w) in
  exists graded best rest refined reply,
    fst (assess_all tsub E rs w0) = Ok graded
    /\ length graded = length rs
    /\ map (@response T) graded = map (@response T) rs
    /\ sorted_by_grade graded = Ok (best :: rest)
    /\ converse E (calls (snd (assess_all tsub E rs w0)))
         (refine_request best) = Answer reply
    /\ In (EvCall (refine_request best) (Answer reply))
          (events (snd (round tsub E it rs w)))
    /\ rs' = refined :: rest
    /\ response refined = rtext reply
    /\ feedback refined = feedback best
    /\ grade refined = grade best
    /\ time_taken refined = time_taken best
    /\ feedback_time_taken refined = feedback_time_taken best
    /\ grade_time_taken refined = grade_time_taken best.
Proof.
  intros H w0. unfold round in H.
  apply fst_bind_Ok in H as (u & _ & H & Hw0).
  apply fst_bind_Ok in H as (graded & Hg & H & Hw1).
  apply fst_bind_Ok in H as (ranked & Hs & H & Hw2).
  fold w0 in Hg, Hs, H, Hw1, Hw2.
  pose proof (assess_all_result _ _ Hg) as (Hl & _ & Hm).
  unfold lift in Hs, H. cbn [fst snd] in Hs, H.
  pose proof (refine_best_frame _ _ _ H)
    as (best & rest & reply & Hr & Hc & Hrs & Hin).
  exists graded, best, rest, (set_response best (rtext reply)), reply.
  unfold round. rewrite Hw0. fold w0. rewrite Hw1, Hw2. subst ranked.
  repeat split; auto; exact Hin.
Qed.
End RoundProps.

Lemma round_refines_best_only_witness :
  map (@response nat) demo_seeds = [str "seed A"; str "seed B"; str "seed C"]
  /\ map (@response nat) demo_ranked
     = [str "refined B"; str "seed A"; str "seed C"]
  /\ map (@grade nat) demo_ranked = [Some 90%Z; Some 50%Z; Some 20%Z]
  /\ map (@feedback nat) demo_ranked
     = [Some (str "fb B"); Some (str "fb A"); Some (str "fb C")]
  /\ exists graded best rest refined reply,
       fst (assess_all Nat.sub demo_env demo_seeds
              (snd (log INFO (str "Iteration 1") (snd demo_seeded))))
       = Ok graded
       /\ sorted_by_grade graded = Ok (best :: rest)
       /\ demo_ranked = refined :: rest
       /\ response refined = rtext reply
       /\ feedback refined = feedback best
       /\ grade refined = grade best
       /\ time_taken refined = time_taken best
       /\ feedback_time_taken refined = feedback_time_taken best
       /\ grade_time_taken refined = grade_time_taken best.
Proof.
  split; [vm_compute; reflexivity|].
  split; [vm_compute; reflexivity|].
  split; [vm_compute; reflexivity|].
  split; [vm_compute; reflexivity|].
  destruct (@round_refines_best_only nat Nat.sub demo_env 0 demo_seeds
              demo_ranked (snd demo_seeded))
    as (graded & best & rest & refined & reply
        & Hg & _ & _ & Hs & _ & _ & Hrs & H);
    [vm_compute; reflexivity|].
  exists graded, best, rest, refined, reply.
  split; [exact Hg|]. split; [exact Hs|]. split; [exact Hrs|]. exact H.
Defined.

(** ** The summary phase and the file *)

Lemma wt_write (d : text) : writes_text (write (str "response.txt") d) d.
Proof.
  intros w. exists [d]. split; [reflexivity|]. simpl. apply app_nil_r.
Qed.

Lemma wt_ret {A} (a : A) : writes_text (ret a) [].
Proof. intros w. exists []. split; reflexivity. Qed.

Lemma wt_raise {A} (e : exn) (t : text) :
  (exists k, e = KeyError k) \/ e = IndexError ->
  writes_text (raise (A := A) e) t.
Proof. intros He w. exists []. split; [reflexivity | exact He]. Qed.

Lemma wt_seq {A B} (m : M A) (k : M B) (t1 t2 : text) :
  writes_text m t1 -> writes_text k t2 ->
  writes_text (bind m (fun _ => k)) (t1 ++ t2).
Proof.
  intros Hm Hk w. unfold bind.
  destruct (Hm w) as (ws1 & He1 & Ho1).
  destruct (m w) as [[a|e] w1]; simpl in *.
  - destruct (Hk w1) as (ws2 & He2 & Ho2).
    exists (ws1 ++ ws2). split.
    + rewrite He2, He1. unfold writes_of.
      now rewrite map_app, rev_app_distr, app_assoc.
    + destruct (fst (k w1)); [|exact Ho2].
      rewrite concat_app. congruence.
  - exists ws1. auto.
Qed.

Lemma wt_bind_ret {A B} (a : A) (f : A -> M B) (t : text) :
  writes_text (f a) t -> writes_text (bind (ret a) f) t.
Proof. intros H w. apply (H w). Qed.

Lemma wt_bind_raise {A B} (e : exn) (f : A -> M B) (t : text) :
  (exists k, e = KeyError k) \/ e = IndexError ->
  writes_text (bind (raise e) f) t.
Proof. intros He w. exists []. split; [reflexivity | exact He]. Qed.

Lemma wt_eq {A} (m : M A) (t t' : text) :
  writes_text m t -> t = t' -> writes_text m t'.
Proof. now intros H <-. Qed.

Section SummaryProps.
Variable T : Type.
Variable tsub : T -> T -> T.
Variable fmt2f : T -> text.
Variable E : env T.

Ltac wt_chain :=
  repeat first
    [ apply wt_write
    | eapply wt_seq; [apply wt_write|]
    | apply wt_bind_raise; left; eexists; reflexivity
    | apply wt_raise; left; eexists; reflexivity
    | apply wt_bind_ret ].

Lemma wt_write_candidate (i : nat) (r : candidate T) :
  writes_text (write_candidate fmt2f i r) (candidate_block fmt2f i r).
Proof.
  unfold write_candidate, candidate_block, getitem.
  destruct (feedback_time_taken r) as [ft|];
    destruct (grade_time_taken r) as [gt|]; cbn [seconds];
    (eapply wt_eq; [wt_chain | rewrite <- ?app_assoc; reflexivity]).
Qed.

Lemma wt_write_candidates (rs : list (candidate T)) :
  forall i,
    writes_text (write_candidates fmt2f i rs) (candidate_blocks fmt2f i rs).
Proof.
  induction rs as [|r rs IH]; intros i;
    cbn [write_candidates candidate_blocks].
  - apply wt_ret.
  - apply wt_seq; [apply wt_write_candidate | apply IH].
Qed.

Lemma wt_write_summary (total : T) (rs : list (candidate T)) :
  writes_text (write_summary fmt2f total rs) (transcript fmt2f total rs).
Proof.
  unfold write_summary, transcript, separator.
  destruct rs as [|best rest];
    (eapply wt_eq;
     [ do 3 (eapply wt_seq; [apply wt_write|]);
       eapply wt_seq; [apply wt_write_candidates|];
       eapply wt_seq; [apply wt_write|];
       first [apply wt_write | apply wt_raise; now right]
     | rewrite <- ?app_assoc; reflexivity ]).
Qed.

(** The file after a run of the shape "open, model phase, writes,
    close". *)
Lemma quiet_file_free (evs : list event) : quiet evs -> file_free evs.
Proof.
  unfold quiet, file_free. apply Forall_impl. intros []; auto.
Qed.

Lemma fold_file_free (p : text) (evs : list event) (cur : option text) :
  file_free evs -> fold_left (file_step p) (rev evs) cur = cur.
Proof.
  intros Hq. apply Forall_rev in Hq. revert cur.
  induction Hq as [|e l He _ IH]; intros cur; simpl; [reflexivity|].
  rewrite IH. destruct e; simpl; auto; contradiction.
Qed.

Lemma fold_writes (ws : list text) (c : text) :
  fold_left (file_step response_txt) (map (EvWrite response_txt) ws)
    (Some c)
  = Some (c ++ concat ws).
Proof.
  revert c; induction ws as [|d ws IH]; intros c; simpl.
  - now rewrite app_nil_r.
  - destruct (list_eq_dec ascii_dec response_txt response_txt)
      as [_|Hne]; [|contradiction].
    now rewrite IH, app_assoc.
Qed.

Lemma file_content_of_run (w w' : world) (evs_m : list event)
    (ws : list text) (tail : list event) :
  events w' =
    tail ++ EvClose response_txt :: writes_of ws ++ evs_m
    ++ EvOpen response_txt :: events w ->
  quiet evs_m -> file_free tail ->
  file_content response_txt w' = Some (concat ws).
Proof.
  intros He Hq Ht. apply quiet_file_free in Hq.
  unfold file_content, history. rewrite He.
  assert (Hrev :
    rev (tail ++ EvClose response_txt :: writes_of ws ++ evs_m
         ++ EvOpen response_txt :: events w)
    = rev (events w) ++ [EvOpen response_txt] ++ rev evs_m
      ++ map (EvWrite response_txt) ws ++ [EvClose response_txt]
      ++ rev tail).
  { unfold writes_of. rewrite rev_app_distr. simpl rev.
    rewrite !rev_app_distr. simpl rev. rewrite rev_involutive.
    rewrite <- !app_assoc. reflexivity. }
  rewrite Hrev, !fold_left_app.
  rewrite (fold_file_free _ _ Ht), (fold_file_free _ _ Hq).
  cbn [fold_left]. cbn [file_step].
  destruct (list_eq_dec ascii_dec response_txt response_txt)
    as [_|Hne]; [|contradiction].
  apply (fold_writes ws []).
Qed.

(** The body of [main], stage by stage. *)
Lemma main_body_stages (n : nat) (w : world) :
  main_body tsub fmt2f E n w =
  let start := time E (ticks w) in
  let close := fun w' => snd (emit (EvClose response_txt) w') in
  let w1 := {| calls := calls w; ticks := S (ticks w);
               events := EvOpen response_txt :: events w |} in
  match seeds tsub E 3 w1 with
  | (Raise e, w2) => (Raise e, close w2)
  | (Ok rs0, w2) =>
      match rounds tsub E n 0 rs0 w2 with
      | (Raise e, w3) => (Raise e, close w3)
      | (Ok rs, w3) =>
          let w4 := {| calls := calls w3; ticks := S (ticks w3);
                       events := events w3 |} in
          let run := write_summary fmt2f (tsub (time E (ticks w3)) start)
                       rs w4 in
          (fst run, close (snd run))
      end
  end.
Proof.
  unfold main_body, with_open_w, bind, now, emit. cbn [fst snd].
  cbn [calls ticks events].
  destruct (seeds tsub E 3 _) as [[rs0|e] w2]; [|reflexivity].
  destruct (rounds tsub E n 0 rs0 w2) as [[rs|e] w3]; [|reflexivity].
  cbn [calls ticks events].
  destruct (write_summary _ _ _ _) as [r w5]. reflexivity.
Qed.

(** The shape of every run of the body of [main]. *)
Lemma main_body_run (n : nat) (w : world) :
  exists evs_m ws,
    events (snd (main_body tsub fmt2f E n w)) =
      EvClose response_txt :: writes_of ws ++ evs_m
      ++ EvOpen response_txt :: events w
    /\ ((exists e,
           fst (main_body tsub fmt2f E n w) = Raise e /\ ws = []
           /\ outcome_of (Raise e : result unit) evs_m)
        \/ (exists rs total,
              outcome_of (Ok tt) evs_m
              /\ length rs = 3
              /\ (1 <= n -> Forall (@assessed T) rs
                            /\ StronglySorted (@by_grade_desc T) rs)
              /\ match fst (main_body tsub fmt2f E n w) with
                 | Ok _ => concat ws = transcript fmt2f total rs
                 | Raise e => (exists k, e = KeyError k) \/ e = IndexError
                 end)).
Proof.
  rewrite main_body_stages. cbv zeta.
  set (w1 := {| calls := calls w; ticks := S (ticks w);
                events := EvOpen response_txt :: events w |}).
  destruct (mp_seeds tsub E 3 w1) as (evs1 & He1 & Ho1).
  pose proof (@seeds_length T tsub E 3 w1) as Hlen.
  destruct (seeds tsub E 3 w1) as [[rs0|e] w2]; cbn [fst snd] in *.
  2:{ exists evs1, []. split; [simpl; now rewrite He1|].
      left. exists e. auto. }
  specialize (Hlen rs0 eq_refl).
  destruct (mp_rounds tsub E n 0 rs0 w2) as (evs2 & He2 & Ho2).
  pose proof (fun rs' => @rounds_result T tsub E n 0 rs0 rs' w2) as Hres.
  destruct (rounds tsub E n 0 rs0 w2) as [[rs|e] w3]; cbn [fst snd] in *.
  2:{ exists (evs2 ++ evs1), []. split.
      - simpl. rewrite He2, He1. now rewrite <- app_assoc.
      - left. exists e. split; [reflexivity|]. split; [reflexivity|].
        eapply outcome_of_app; eassumption. }
  destruct (Hres rs eq_refl) as [Hl Hsorted].
  set (w4 := {| calls := calls w3; ticks := S (ticks w3);
                events := events w3 |}).
  set (total := tsub (time E (ticks w3)) (time E (ticks w))).
  destruct (wt_write_summary total rs w4) as (ws & Hew & How).
  exists (evs2 ++ evs1), ws. split.
  - simpl. rewrite Hew. simpl. rewrite He2, He1.
    now rewrite <- !app_assoc.
  - right. exists rs, total.
    split; [eapply outcome_of_app; eassumption|].
    split; [congruence|]. split; [exact Hsorted|].
    destruct (fst (write_summary fmt2f total rs w4)); exact How.
Qed.
End SummaryProps.

(** ** The transcript of a run that completes *)

Lemma main_of_completed_body (T : Type) (tsub : T -> T -> T)
    (fmt2f : T -> text) (E : env T) (n : nat) (w : world) :
  fst (main_body tsub fmt2f E n w) = Ok tt ->
  main tsub fmt2f E n w = main_body tsub fmt2f E n w.
Proof.
  unfold main. destruct (main_body tsub fmt2f E n w) as [[u|e] w'];
    [reflexivity | discriminate].
Qed.



(** C3, as stated, fails: in the example run the file starts with the
    marker; no prose stands before it, and the seed response that was
    refined is not in the file at all. *)
Lemma transcript_has_no_prose_before_marker :
  exists f,
    demo_file = Some f
    /\ starts_with ([nl] ++ marker ++ [nl]) f = true
    /\ fst (split_content f) = []
    /\ ~ prose_before_marker f
    /\ contains (str "seed B") f = false.
Proof.
  eexists. split; [vm_compute; reflexivity|].
  split; [vm_compute; reflexivity|].
  split; [vm_compute; reflexivity|].
  split; [|vm_compute; reflexivity].
  unfold prose_before_marker.
  match goal with
  | |- ~ match ?c with _ => _ end =>
      let v := eval vm_compute in c in change c with v
  end.
  cbv beta iota. intros H. apply H. reflexivity.
Qed.

(** C3, amended: the file of a run that completes starts with an empty line
    and the marker line: nothing but a line break precedes the marker, and
    the response part cut off by [generate_html] is empty.  Nothing is
    written during the model phase: every write of the file comes after
    the last model call. *)
Theorem transcript_begins_with_marker (T : Type) (tsub : T -> T -> T)
    (fmt2f : T -> text) (E : env T) (n : nat) (w : world) :
  fst (main_body tsub fmt2f E n w) = Ok tt ->
  exists rest evs_m ws,
    file_content response_txt (snd (main_body tsub fmt2f E n w))
    = Some ([nl] ++ marker ++ [nl] ++ rest)
    /\ fst (split_content ([nl] ++ marker ++ [nl] ++ rest)) = []
    /\ ~ prose_before_marker ([nl] ++ marker ++ [nl] ++ rest)
    /\ events (snd (main_body tsub fmt2f E n w))
       = EvClose response_txt :: writes_of ws ++ evs_m
         ++ EvOpen response_txt :: events w
    /\ quiet evs_m.
Proof.
  intros Hok.
  destruct (main_body_run tsub fmt2f E n w) as (evs_m & ws & Hev & Hcase).
  destruct Hcase as [(e & He & _)|(rs & total & Hout & Hlen & Hs & Hws)];
    [congruence|].
  rewrite Hok in Hws.
  eexists _, evs_m, ws.
  split.
  - erewrite file_content_of_run with (tail := []);
      [|exact Hev | apply Hout | constructor].
    rewrite Hws. unfold transcript, marker. reflexivity.
  - split; [reflexivity|]. split; [|split; [exact Hev | apply Hout]].
    unfold prose_before_marker.
    match goal with
    | |- ~ match ?c with _ => _ end =>
        change c with (Some ([nl], [nl] ++ repeat "="%char 40 ++ [nl]
          ++ str "Total time taken for the process: " ++ fmt2f total
          ++ str " seconds" ++ [nl] ++ candidate_blocks fmt2f 0 rs
          ++ repeat "="%char 40 ++ [nl]
          ++ match rs with
             | [] => []
             | best :: _ =>
                 str "Best response: " ++ response best ++ str " (Grade: "
                 ++ format_opt text_of_Z (grade best) ++ str ")" ++ [nl]
             end))
    end.
    intros H. apply H. reflexivity.
Qed.

Lemma transcript_begins_with_marker_witness :
  fst (main_body Nat.sub demo_fmt demo_env 1 world0) = Ok tt
  /\ exists rest,
       file_content response_txt
         (snd (main_body Nat.sub demo_fmt demo_env 1 world0))
       = Some ([nl] ++ marker ++ [nl] ++ rest).
Proof.
  split; [vm_compute; reflexivity|].
  destruct (@transcript_begins_with_marker nat Nat.sub demo_fmt demo_env 1
              world0) as (rest & _ & _ & Hf & _);
    [vm_compute; reflexivity|].
  exists rest. exact Hf.
Defined.

(** ** Failures of a run *)

Lemma calls_of_writes (ws : list text) : calls_of (writes_of ws) = [].
Proof.
  unfold writes_of. rewrite <- map_rev.
  induction (rev ws) as [|d l IH]; simpl; auto.
Qed.

Lemma failed_call_not_good (q : request) (msg : text) :
  ~ good_call (q, ClientFailure msg).
Proof. intros H. exact H. Qed.

Lemma ungraded_call_not_good (q : request) (r : reply) (m : text) :
  is_grading q -> extract_grade (strip (rtext r)) = Raise (ValueError m) ->
  ~ good_call (q, Answer r).
Proof.
  intros Hq He Hg. destruct (Hg Hq) as [z Hz]. simpl in Hz. congruence.
Qed.

Lemma first_bad_call (c : request * answer)
    (l : list (request * answer)) (c0 : request * answer) :
  In c (c0 :: l) -> Forall good_call l -> ~ good_call c -> c = c0.
Proof.
  intros [->|Hin] Hl Hc; [reflexivity|].
  rewrite Forall_forall in Hl. destruct (Hc (Hl c Hin)).
Qed.

(** C6: in a run from the initial world, a model call that reports a client
    failure is the last call of the run; [main] catches the exception, logs
    and prints the message and returns, and the file stays empty.  A grading
    answer without a grade is the last call too; the [ValueError] leaves
    [main], nothing is printed, and the file stays empty. *)
Theorem failures_of_main (T : Type) (tsub : T -> T -> T) (fmt2f : T -> text)
    (E : env T) (n : nat) :
  (forall q msg,
     In (q, ClientFailure msg)
        (calls_of (events (snd (main tsub fmt2f E n world0)))) ->
     fst (main tsub fmt2f E n world0) = Ok tt
     /\ file_content response_txt (snd (main tsub fmt2f E n world0))
        = Some []
     /\ exists evs rest,
          events (snd (main tsub fmt2f E n world0))
          = EvPrint (str "A client error occurred: " ++ msg)
            :: EvLog ERROR (str "A client error occurred: " ++ msg)
            :: EvClose response_txt :: evs ++ [EvOpen response_txt]
          /\ quiet evs
          /\ calls_of evs = (q, ClientFailure msg) :: rest
          /\ Forall good_call rest)
  /\ (forall q r m,
        In (q, Answer r)
           (calls_of (events (snd (main tsub fmt2f E n world0)))) ->
        is_grading q ->
        extract_grade (strip (rtext r)) = Raise (ValueError m) ->
        fst (main tsub fmt2f E n world0) = Raise (ValueError m)
        /\ file_content response_txt (snd (main tsub fmt2f E n world0))
           = Some []
        /\ exists evs rest,
             events (snd (main tsub fmt2f E n world0))
             = EvClose response_txt :: evs ++ [EvOpen response_txt]
             /\ quiet evs
             /\ calls_of evs = (q, Answer r) :: rest
             /\ Forall good_call rest).
Proof.
  destruct (main_body_run tsub fmt2f E n world0)
    as (evs_m & ws & Hev & Hcase).
  assert (Hcalls : forall tail, calls_of tail = [] ->
            calls_of (tail ++ events (snd (main_body tsub fmt2f E n world0)))
            = calls_of evs_m).
  { intros tail Ht. rewrite Hev, calls_of_app, Ht. simpl.
    rewrite !calls_of_app, calls_of_writes. simpl. apply app_nil_r. }
  pose proof (Hcalls [] eq_refl) as Hcalls0. cbn [app] in Hcalls0.
  unfold main.
  destruct (main_body tsub fmt2f E n world0) as [res w'] eqn:Hrun.
  cbn [fst snd] in *.
  destruct Hcase as [(e & -> & -> & Hquiet & Hout)
                    |(rs & total & [Hquiet Hgood] & _ & _ & Hres)].
  - (* the model phase raised [e] *)
    simpl app in Hev.
    assert (Hfile : forall tail w'', file_free tail ->
              events w'' = tail ++ events w' ->
              file_content response_txt w'' = Some []).
    { intros tail w'' Ht Hw''.
      apply (@file_content_of_run world0 w'' evs_m [] tail); auto.
      rewrite Hw'', Hev. reflexivity. }
    destruct e as [msg'|m'| | |]; cbn [fst snd log print emit bind events].
    + destruct Hout as (q' & rest & Hc & Hrest). split.
      * intros q msg Hin.
        change (EvPrint (str "A client error occurred: " ++ msg')
                :: EvLog ERROR (str "A client error occurred: " ++ msg')
                :: events w')
          with ([EvPrint (str "A client error occurred: " ++ msg');
                 EvLog ERROR (str "A client error occurred: " ++ msg')]
                ++ events w') in Hin.
        rewrite Hcalls in Hin by reflexivity. rewrite Hc in Hin.
        apply first_bad_call in Hin;
          [|exact Hrest | apply failed_call_not_good].
        injection Hin as -> ->.
        split; [reflexivity|]. split.
        { apply (Hfile [EvPrint (str "A client error occurred: " ++ msg');
                        EvLog ERROR (str "A client error occurred: " ++ msg')]);
            [repeat constructor | reflexivity]. }
        exists evs_m, rest. rewrite Hev. auto.
      * intros q r m Hin Hq He.
        change (EvPrint (str "A client error occurred: " ++ msg')
                :: EvLog ERROR (str "A client error occurred: " ++ msg')
                :: events w')
          with ([EvPrint (str "A client error occurred: " ++ msg');
                 EvLog ERROR (str "A client error occurred: " ++ msg')]
                ++ events w') in Hin.
        rewrite Hcalls in Hin by reflexivity. rewrite Hc in Hin.
        apply first_bad_call in Hin;
          [discriminate | exact Hrest
           | eapply ungraded_call_not_good; eassumption].
    + destruct Hout as (q' & r' & rest & Hc & Hq' & Hm' & He' & Hrest).
      split.
      * intros q msg Hin. rewrite Hcalls0 in Hin. rewrite Hc in Hin.
        apply first_bad_call in Hin;
          [discriminate | exact Hrest | apply failed_call_not_good].
      * intros q r m Hin Hq He. rewrite Hcalls0 in Hin. rewrite Hc in Hin.
        apply first_bad_call in Hin;
          [|exact Hrest | eapply ungraded_call_not_good; eassumption].
        injection Hin as -> ->.
        split; [congruence|]. split.
        { apply (Hfile []); [constructor | reflexivity]. }
        exists evs_m, rest. rewrite Hev. auto.
    + split; [intros q msg Hin | intros q r m Hin Hq He];
        rewrite Hcalls0 in Hin; exfalso;
        rewrite Forall_forall in Hout; apply Hout in Hin;
        [apply (failed_call_not_good Hin)
        | apply (ungraded_call_not_good Hq He Hin)].
    + split; [intros q msg Hin | intros q r m Hin Hq He];
        rewrite Hcalls0 in Hin; exfalso;
        rewrite Forall_forall in Hout; apply Hout in Hin;
        [apply (failed_call_not_good Hin)
        | apply (ungraded_call_not_good Hq He Hin)].
    + split; [intros q msg Hin | intros q r m Hin Hq He];
        rewrite Hcalls0 in Hin; exfalso;
        rewrite Forall_forall in Hout; apply Hout in Hin;
        [apply (failed_call_not_good Hin)
        | apply (ungraded_call_not_good Hq He Hin)].
  - (* the model phase went well: every call is a good one *)
    assert (Hbad : forall c, In c (calls_of (events w')) -> good_call c).
    { intros c Hin. rewrite Hcalls0 in Hin.
      rewrite Forall_forall in Hgood. now apply Hgood. }
    split; [intros q msg Hin | intros q r m Hin Hq He]; exfalso.
    + destruct res as [u|[msg0| | | |]]; cbn [snd] in Hin;
        apply Hbad in Hin; apply (failed_call_not_good Hin).
    + destruct res as [u|[msg0| | | |]]; cbn [snd] in Hin;
        apply Hbad in Hin; apply (ungraded_call_not_good Hq He Hin).
Qed.

Lemma failures_of_main_witness :
  fst (main Nat.sub demo_fmt demo_env 2 world0) = Ok tt
  /\ file_content response_txt (snd (main Nat.sub demo_fmt demo_env 2 world0))
     = Some []
  /\ fst (main Nat.sub demo_fmt ungraded_env 1 world0)
     = Raise (ValueError (no_grade_message (str "rather good")))
  /\ file_content response_txt
       (snd (main Nat.sub demo_fmt ungraded_env 1 world0))
     = Some [].
Proof.
  destruct (proj1 (failures_of_main Nat.sub demo_fmt demo_env 2)
              demo_failing_request (str "throttled")) as (H1 & H2 & _).
  { vm_compute. left. reflexivity. }
  destruct (proj2 (failures_of_main Nat.sub demo_fmt ungraded_env 1)
              ungraded_request ungraded_reply
              (no_grade_message (str "rather good"))) as (H3 & H4 & _).
  { vm_compute. left. reflexivity. }
  { reflexivity. }
  { reflexivity. }
  repeat split; assumption.
Defined.

(** * Further properties of the code *)

(** ** The range and the sign of a grade *)

Lemma digit_val_range (c : ascii) :
  is_digit c = true -> (0 <= digit_val c <= 9)%Z.
Proof.
  revert c. intros c; pattern c; revert c; apply all_ascii.
  intros [|] [|] [|] [|] [|] [|] [|] [|]; vm_compute;
    intros H; try discriminate H; split; discriminate.
Qed.

Lemma digits_val_snoc (ds : text) (c : ascii) :
  digits_val (ds ++ [c]) = (10 * digits_val ds + digit_val c)%Z.
Proof. unfold digits_val. now rewrite fold_left_app. Qed.

Lemma digits_val_range (ds : text) :
  forallb is_digit ds = true ->
  (0 <= digits_val ds < 10 ^ Z.of_nat (length ds))%Z.
Proof.
  induction ds as [|c ds IH] using rev_ind; intros Hd.
  - cbn. lia.
  - rewrite forallb_app in Hd. apply andb_true_iff in Hd as [Hds Hc].
    simpl in Hc. rewrite andb_true_r in Hc.
    specialize (IH Hds). pose proof (digit_val_range _ Hc) as Hr.
    rewrite digits_val_snoc, length_app. simpl length.
    rewrite Nat2Z.inj_add, Z.pow_add_r by lia.
    change (10 ^ Z.of_nat 1)%Z with 10%Z. nia.
Qed.

(** X1: a grade is taken verbatim from at most three digits, so it lies
    between -999 and 999, whatever the scale the prompt asks for. *)
Theorem extract_grade_range (t : text) (z : Z) :
  extract_grade t = Ok z -> (-999 <= z <= 999)%Z.
Proof.
  intros Hz.
  destruct (extract_grade_total t)
    as [[Hr _]|(p1 & p2 & m & z' & Hz' & _ & _ & Hint & Hm & _)];
    [congruence|].
  assert (z' = z) as -> by congruence.
  destruct Hm as (sign & ds & post & _ & -> & Hs & Hd & [Hl1 Hl3] & _).
  pose proof (digits_val_range _ Hd) as Hr.
  assert (Hpow : (10 ^ Z.of_nat (length ds) <= 1000)%Z).
  { change 1000%Z with (10 ^ 3)%Z. apply Z.pow_le_mono_r; lia. }
  destruct Hs as [->| ->]; simpl app in Hint.
  - rewrite int_of_digits in Hint by (auto; lia).
    injection Hint as <-. lia.
  - rewrite int_of_negative in Hint by (auto; lia).
    injection Hint as <-. lia.
Qed.

Lemma extract_grade_range_witness :
  extract_grade (str "250 out of 100") = Ok 250%Z
  /\ (-999 <= 250 <= 999)%Z.
Proof.
  split; [reflexivity|].
  apply (extract_grade_range (str "250 out of 100")). reflexivity.
Defined.

(** X2: a negative grade is returned only where a word character stands
    directly in front of the minus sign; a minus sign at the start of the
    text or after a blank is dropped. *)
Theorem negative_grade_needs_word_before (t : text) (z : Z) :
  extract_grade t = Ok z -> (z < 0)%Z ->
  exists pre c ds post,
    t = pre ++ c :: minus_sign :: ds ++ post
    /\ is_word c = true
    /\ forallb is_digit ds = true
    /\ z = (- digits_val ds)%Z.
Proof.
  intros Hz Hneg.
  destruct (extract_grade_total t)
    as [[Hr _]|(p1 & p2 & m & z' & Hz' & -> & _ & Hint & Hm & _)];
    [congruence|].
  assert (z' = z) as -> by congruence.
  destruct Hm as (sign & ds & post & -> & -> & Hs & Hd & [Hl1 Hl3] & Hb & _).
  pose proof (digits_val_range _ Hd) as Hr.
  destruct Hs as [->| ->]; simpl app in Hint, Hb.
  - rewrite int_of_digits in Hint by (auto; lia).
    injection Hint as <-. lia.
  - rewrite int_of_negative in Hint by (auto; lia).
    injection Hint as <-.
    unfold at_boundary in Hb. cbn [head_is_word] in Hb.
    change (is_word minus_sign) with false in Hb.
    rewrite xorb_false_r in Hb.
    destruct (rev p1) as [|c r] eqn:Hrev; [discriminate Hb|].
    cbn [head_is_word] in Hb.
    assert (Hp1 : p1 = rev r ++ [c]).
    { rewrite <- (rev_involutive p1), Hrev. reflexivity. }
    exists (rev r), c, ds, post. rewrite Hp1, <- app_assoc.
    repeat split; auto.
Qed.

Lemma negative_grade_needs_word_before_witness :
  extract_grade (str "x-50 out of 100") = Ok (-50)%Z
  /\ exists pre c ds post,
       str "x-50 out of 100" = pre ++ c :: minus_sign :: ds ++ post
       /\ is_word c = true.
Proof.
  split; [reflexivity|].
  destruct (@negative_grade_needs_word_before (str "x-50 out of 100")
              (-50)%Z) as (pre & c & ds & post & Ht & Hc & _);
    [reflexivity | lia |].
  exists pre, c, ds, post. split; assumption.
Defined.

Lemma grade_range_spec (z : Z) :
  (-999 <= z <= 999)%Z -> In z grade_range.
Proof.
  intros Hz. unfold grade_range. apply in_map_iff.
  exists (Z.to_nat (z + 999)). split; [lia|]. apply in_seq. lia.
Qed.

(** X3: on an answer of the plain form "<z> out of 100" with z between -999
    and 999, the extracted grade is the absolute value of z: every
    non-negative grade comes back as written, every negative grade comes
    back without its sign. *)
Theorem plain_answer_grade (z : Z) :
  (-999 <= z <= 999)%Z -> extract_grade (plain_answer z) = Ok (Z.abs z).
Proof.
  intros Hz.
  assert (Hall : forallb (fun x => result_is (extract_grade (plain_answer x))
                                     (Z.abs x)) grade_range = true)
    by (vm_compute; reflexivity).
  rewrite forallb_forall in Hall.
  specialize (Hall z (grade_range_spec Hz)).
  destruct (extract_grade (plain_answer z)) as [x|e]; [|discriminate].
  simpl in Hall. apply Z.eqb_eq in Hall. now subst.
Qed.

Lemma plain_answer_grade_witness :
  extract_grade (plain_answer (-100)%Z) = Ok 100%Z
  /\ extract_grade (plain_answer 100%Z) = Ok 100%Z.
Proof.
  split.
  - apply (@plain_answer_grade (-100)%Z). lia.
  - apply (@plain_answer_grade 100%Z). lia.
Defined.

(** ** Ranking a list that is ranked already *)

Lemma sorted_desc_of_sorted {A} (key : A -> Z) (l : list A) :
  StronglySorted (desc key) l -> sorted_desc key l = l.
Proof.
  induction 1 as [|x l Hl IH Hx]; simpl; [reflexivity|].
  rewrite IH. destruct l as [|y l]; [reflexivity|].
  apply Forall_inv in Hx. unfold desc in Hx. simpl.
  destruct (key x <? key y)%Z eqn:Hlt; [lia | reflexivity].
Qed.

(** X4: the sort of a round leaves a list alone whose grades are already in
    descending order, so a round reorders the candidates only where the new
    grades ask for it. *)
Theorem sorted_by_grade_of_ranked (T : Type) (rs : list (candidate T)) :
  forallb (@has_grade T) rs = true ->
  StronglySorted (@by_grade_desc T) rs ->
  sorted_by_grade rs = Ok rs.
Proof.
  intros Hg Hs. unfold sorted_by_grade.
  destruct rs as [|a [|b rs]]; try reflexivity.
  rewrite Hg. f_equal. now apply sorted_desc_of_sorted.
Qed.

Lemma sorted_by_grade_of_ranked_witness :
  sorted_by_grade
    [example_candidate "second" 30; example_candidate "third" 30;
     example_candidate "first" 10; example_candidate "fourth" (-5)]
  = Ok [example_candidate "second" 30; example_candidate "third" 30;
        example_candidate "first" 10; example_candidate "fourth" (-5)].
Proof.
  apply sorted_by_grade_of_ranked; [reflexivity|].
  repeat constructor; unfold by_grade_desc, grade_key; cbn [grade example_candidate]; lia.
Defined.

(** ** Bookkeeping lemmas on the monad *)

Lemma fst_bind_Raise {A B} (m : M A) (f : A -> M B) (w : world) (e : exn) :
  fst (bind m f w) = Raise e ->
  fst (m w) = Raise e
  \/ exists a, fst (m w) = Ok a /\ fst (f a (snd (m w))) = Raise e.
Proof.
  unfold bind. destruct (m w) as [[a|e'] w1]; simpl; intros H.
  - right. exists a. auto.
  - left. congruence.
Qed.

Lemma snd_bind_Ok {A B} (m : M A) (f : A -> M B) (w : world) (a : A) :
  fst (m w) = Ok a -> bind m f w = f a (snd (m w)).
Proof.
  unfold bind. destruct (m w) as [[a'|e] w1]; simpl; congruence.
Qed.

Section SeedProps.
Variable T : Type.
Variable tsub : T -> T -> T.
Variable fmt2f : T -> text.
Variable E : env T.

Lemma generate_conversation_raises (mid sys : text) (msgs : list text)
    (max : Z) (w : world) (e : exn) :
  fst (generate_conversation E mid sys msgs max w) = Raise e ->
  exists msg, e = ClientError msg.
Proof.
  unfold generate_conversation, bind, log, emit, call_converse, ret.
  cbn [fst snd calls ticks events].
  destruct (converse E (calls w) _) as [r|msg]; cbn [fst snd].
  - discriminate.
  - intros [= <-]. eauto.
Qed.

Lemma seed_result (w : world) :
  (exists c, fst (seed tsub E w) = Ok c /\ fresh c)
  \/ exists msg, fst (seed tsub E w) = Raise (ClientError msg).
Proof.
  unfold seed.
  destruct (fst (bind (now E) _ w)) as [c|e] eqn:H.
  - left. exists c. split; [reflexivity|].
    apply fst_bind_Ok in H as (t0 & _ & H & _).
    apply fst_bind_Ok in H as (r & _ & H & _).
    apply fst_bind_Ok in H as (t1 & _ & H & _).
    injection H as <-. repeat split.
  - right.
    apply fst_bind_Raise in H as [H|(t0 & _ & H)]; [discriminate H|].
    apply fst_bind_Raise in H as [H|(r & _ & H)].
    + apply generate_conversation_raises in H as [msg ->]. eauto.
    + apply fst_bind_Raise in H as [H|(t1 & _ & H)]; discriminate H.
Qed.

Lemma seeds_result (n : nat) :
  forall w,
    (exists rs, fst (seeds tsub E n w) = Ok rs
                /\ length rs = n /\ Forall (@fresh T) rs)
    \/ exists msg, fst (seeds tsub E n w) = Raise (ClientError msg).
Proof.
  induction n as [|n IH]; intros w.
  - left. exists []. repeat split. constructor.
  - cbn [seeds].
    destruct (seed_result w) as [(c & Hc & Hfresh)|[msg Hmsg]].
    + rewrite (snd_bind_Ok _ _ _ Hc).
      destruct (IH (snd (seed tsub E w)))
        as [(rs & Hrs & Hlen & Hall)|[msg Hmsg]].
      * left. exists (c :: rs). rewrite (snd_bind_Ok _ _ _ Hrs).
        repeat split; [simpl; congruence | now constructor].
      * right. exists msg. unfold bind at 1.
        destruct (seeds tsub E n _) as [[rs|e] w']; simpl in *; congruence.
    + right. exists msg. unfold bind.
      destruct (seed tsub E w) as [[c|e] w']; simpl in *; congruence.
Qed.

(** The summary of a list whose first candidate has no feedback time. *)
Lemma write_summary_breaks (total : T) (r : candidate T)
    (rest : list (candidate T)) (w : world) :
  fresh r ->
  fst (write_summary fmt2f total (r :: rest) w)
  = Raise (KeyError (str "feedback_time_taken"))
  /\ exists ws,
       events (snd (write_summary fmt2f total (r :: rest) w))
       = writes_of ws ++ events w
       /\ concat ws = partial_transcript fmt2f total r.
Proof.
  intros (Hfb & Hg & Hft & Hgt).
  unfold write_summary, write_candidates, write_candidate, bind, write, emit,
    getitem.
  rewrite Hfb, Hg, Hft. cbn [fst snd calls ticks events].
  split; [reflexivity|].
  eexists (_ :: _ :: _ :: _ :: _ :: _ :: _ :: [_]).
  split; [reflexivity|].
  unfold partial_transcript, separator. cbn [concat format_opt].
  rewrite <- ?app_assoc. reflexivity.
Qed.

(** X5: with no round at all the run cannot complete.  Either a seed call
    fails and the client error is caught, or the summary breaks at the first
    candidate, whose feedback time was never set: [KeyError] leaves [main]
    and the file is left with the start of a transcript. *)
Theorem zero_rounds_never_complete (w : world) :
  (exists msg,
     fst (main_body tsub fmt2f E 0 w) = Raise (ClientError msg)
     /\ fst (main tsub fmt2f E 0 w) = Ok tt)
  \/ (exists total r,
        fst (main tsub fmt2f E 0 w)
        = Raise (KeyError (str "feedback_time_taken"))
        /\ file_content response_txt (snd (main tsub fmt2f E 0 w))
           = Some (partial_transcript fmt2f total r)).
Proof.
  unfold main. rewrite main_body_stages. cbv zeta.
  set (w1 := {| calls := calls w; ticks := S (ticks w);
                events := EvOpen response_txt :: events w |}).
  destruct (seeds_result 3 w1) as [(rs0 & Hrs & Hlen & Hall)|[msg Hmsg]].
  - right.
    destruct (mp_seeds tsub E 3 w1) as (evs1 & He1 & [Hq1 _]).
    destruct (seeds tsub E 3 w1) as [[rs|e] w2]; cbn [fst snd] in *;
      [|discriminate].
    injection Hrs as ->. cbn [rounds ret].
    destruct rs0 as [|r rest]; [discriminate Hlen|].
    apply Forall_inv in Hall.
    set (w4 := {| calls := calls w2; ticks := S (ticks w2);
                  events := events w2 |}).
    set (total := tsub (time E (ticks w2)) (time E (ticks w))).
    destruct (write_summary_breaks total rest w4 Hall)
      as (Hfst & ws & Hev & Hws).
    exists total, r. rewrite Hfst. cbn [fst snd].
    split; [reflexivity|]. rewrite <- Hws.
    eapply file_content_of_run with (tail := []) (evs_m := evs1);
      [|exact Hq1 | constructor].
    cbn [emit snd events app]. rewrite Hev. cbn [events w4].
    rewrite He1. reflexivity.
  - left. exists msg.
    destruct (seeds tsub E 3 w1) as [[rs|e] w2]; cbn [fst snd] in *;
      [discriminate|].
    injection Hmsg as ->. split; reflexivity.
Qed.
End SeedProps.

(** ** What a failed run leaves in the file *)

(** X6: whatever the file held before, a run that ends on a client error or
    on a grading answer without a grade leaves it empty: the file is
    truncated when the run starts and written only by the final summary. *)
Theorem failed_run_empties_file (T : Type) (tsub : T -> T -> T)
    (fmt2f : T -> text) (E : env T) (n : nat) (w : world) :
  (exists msg, fst (main_body tsub fmt2f E n w) = Raise (ClientError msg))
  \/ (exists m, fst (main_body tsub fmt2f E n w) = Raise (ValueError m)) ->
  file_content response_txt (snd (main tsub fmt2f E n w)) = Some [].
Proof.
  intros Hfail.
  destruct (main_body_run tsub fmt2f E n w) as (evs_m & ws & Hev & Hcase).
  destruct Hcase as [(e & He & -> & Hquiet & _)
                    |(rs & total & _ & _ & _ & Hres)].
  - unfold main.
    destruct (main_body tsub fmt2f E n w) as [res w'] eqn:Hrun.
    cbn [fst snd] in *. subst res.
    destruct e as [msg|m| | |]; cbn [fst snd log print emit bind events].
    + apply (@file_content_of_run w _ evs_m []
               [EvPrint (str "A client error occurred: " ++ msg);
                EvLog ERROR (str "A client error occurred: " ++ msg)]);
        [cbn [events app]; now rewrite Hev | exact Hquiet
        | repeat constructor].
    + apply (@file_content_of_run w _ evs_m [] []);
        [exact Hev | exact Hquiet | constructor].
    + destruct Hfail as [[msg H]|[m H]]; discriminate H.
    + destruct Hfail as [[msg H]|[m H]]; discriminate H.
    + destruct Hfail as [[msg H]|[m H]]; discriminate H.
  - exfalso. destruct Hfail as [[msg H]|[m H]]; rewrite H in Hres;
      destruct Hres as [[k Hk]|Hi]; discriminate.
Qed.

Lemma failed_run_empties_file_witness :
  file_content response_txt world_with_old_file
  = Some (str "an old transcript")
  /\ file_content response_txt
       (snd (main Nat.sub demo_fmt failing_env 3 world_with_old_file))
     = Some [].
Proof.
  split; [vm_compute; reflexivity|].
  apply failed_run_empties_file.
  left. exists (str "throttled"). vm_compute. reflexivity.
Defined.

(** ** The calls of a run *)

Lemma requests_of_app (x y : list event) :
  requests_of (x ++ y) = requests_of y ++ requests_of x.
Proof.
  unfold requests_of. now rewrite calls_of_app, rev_app_distr, map_app.
Qed.

Lemma pr_bind {A B} (m : M A) (f : A -> M B) (l1 l2 : list Z) :
  protocol m l1 -> (forall a, protocol (f a) l2) ->
  protocol (bind m f) (l1 ++ l2).
Proof.
  intros Hm Hf w b H.
  apply fst_bind_Ok in H as (a & Ha & H & Hs).
  destruct (Hm w a Ha) as (evs1 & He1 & Ht1 & Hs1).
  destruct (Hf a (snd (m w)) b H) as (evs2 & He2 & Ht2 & Hs2).
  exists (evs2 ++ evs1). rewrite Hs, He2, He1, app_assoc.
  split; [reflexivity|]. rewrite requests_of_app, map_app, Ht1, Ht2.
  split; [reflexivity|]. apply Forall_app. now split.
Qed.

Lemma pr_silent {A} (m : M A) :
  (forall w, exists evs, events (snd (m w)) = evs ++ events w
                         /\ calls_of evs = []) ->
  protocol m [].
Proof.
  intros H w a _. destruct (H w) as (evs & He & Hc).
  exists evs. unfold requests_of. rewrite Hc.
  split; [exact He|]. split; [reflexivity | constructor].
Qed.

Lemma pr_ret {A} (a : A) : protocol (ret a) [].
Proof. apply pr_silent. intros w. now exists []. Qed.

Lemma pr_log (l : level) (msg : text) : protocol (log l msg) [].
Proof. apply pr_silent. intros w. now exists [EvLog l msg]. Qed.

Lemma pr_lift {A} (r : result A) : protocol (lift r) [].
Proof. apply pr_silent. intros w. now exists []. Qed.

Section ProtocolProps.
Variable T : Type.
Variable tsub : T -> T -> T.
Variable fmt2f : T -> text.
Variable E : env T.

Lemma pr_now : protocol (now E) [].
Proof. apply pr_silent. intros w. now exists []. Qed.

Lemma pr_generate (msg : text) (max : Z) :
  protocol (generate_conversation E model_id system_prompts [msg] max) [max].
Proof.
  intros w a. unfold generate_conversation, bind, log, emit, call_converse,
    ret. cbn [fst snd calls ticks events].
  destruct (converse E (calls w) _) as [r|m]; cbn [fst snd events];
    [|discriminate].
  intros _. eexists (_ :: _ :: _ :: _ :: _ :: [_]).
  split; [reflexivity|]. split; [reflexivity|].
  repeat constructor.
Qed.

Lemma pr_seed : protocol (seed tsub E) [1024%Z].
Proof.
  unfold seed.
  apply pr_bind with (l1 := []) (l2 := [1024%Z]); [apply pr_now | intros t0].
  apply pr_bind with (l1 := [1024%Z]) (l2 := []);
    [apply pr_generate | intros r].
  apply pr_bind with (l1 := []) (l2 := []); [apply pr_now | intros t1].
  apply pr_ret.
Qed.

Lemma pr_seeds (n : nat) : protocol (seeds tsub E n) (repeat 1024%Z n).
Proof.
  induction n as [|n IH]; cbn [seeds repeat]; [apply pr_ret|].
  apply pr_bind with (l1 := [1024%Z]); [apply pr_seed | intros c].
  rewrite <- (app_nil_r (repeat 1024%Z n)).
  apply pr_bind; [exact IH | intros cs; apply pr_ret].
Qed.

Lemma pr_assess (r : candidate T) :
  protocol (assess tsub E r) [512; 100]%Z.
Proof.
  unfold assess, get_feedback, grade_response.
  apply pr_bind with (l1 := []) (l2 := [512; 100]%Z);
    [apply pr_now | intros t0].
  apply pr_bind with (l1 := [512%Z]) (l2 := [100%Z]).
  { apply pr_bind with (l1 := [512%Z]) (l2 := []);
      [apply pr_generate | intros r0; apply pr_ret]. }
  intros fb.
  apply pr_bind with (l1 := []) (l2 := [100%Z]); [apply pr_now | intros t1].
  apply pr_bind with (l1 := []) (l2 := [100%Z]); [apply pr_now | intros t2].
  apply pr_bind with (l1 := [100%Z]) (l2 := []).
  { apply pr_bind with (l1 := [100%Z]) (l2 := []);
      [apply pr_generate | intros r0].
    apply pr_bind with (l1 := []) (l2 := []);
      [apply pr_log | intros _; apply pr_lift]. }
  intros g.
  apply pr_bind with (l1 := []) (l2 := []); [apply pr_now | intros t3].
  apply pr_ret.
Qed.

Lemma pr_assess_all (rs : list (candidate T)) :
  protocol (assess_all tsub E rs)
    (concat (repeat [512; 100]%Z (length rs))).
Proof.
  induction rs as [|r rs IH]; cbn [assess_all length repeat concat];
    [apply pr_ret|].
  apply pr_bind with (l1 := [512; 100]%Z); [apply pr_assess | intros c].
  rewrite <- (app_nil_r (concat _)).
  apply pr_bind; [exact IH | intros cs; apply pr_ret].
Qed.

Lemma pr_refine_best (it : nat) (rs : list (candidate T)) :
  protocol (refine_best E it rs) [1024%Z].
Proof.
  destruct rs as [|best rest]; cbn [refine_best].
  - intros w a H. discriminate H.
  - apply pr_bind with (l1 := []) (l2 := [1024%Z]);
      [apply pr_log | intros _].
    apply pr_bind with (l1 := [1024%Z]) (l2 := []);
      [apply pr_generate | intros r; apply pr_ret].
Qed.

Lemma pr_round (it : nat) (rs : list (candidate T)) :
  protocol (round tsub E it rs)
    (concat (repeat [512; 100]%Z (length rs)) ++ [1024%Z]).
Proof.
  unfold round.
  apply pr_bind with (l1 := []); [apply pr_log | intros _].
  apply pr_bind; [apply pr_assess_all | intros graded].
  apply pr_bind with (l1 := []); [apply pr_lift | intros ranked].
  apply pr_refine_best.
Qed.

Lemma pr_rounds (n : nat) :
  forall it rs,
    length rs = 3 ->
    protocol (rounds tsub E n it rs) (concat (repeat round_tokens n)).
Proof.
  induction n as [|n IH]; intros it rs Hlen; cbn [rounds repeat concat].
  - apply pr_ret.
  - intros w a H.
    apply fst_bind_Ok in H as (rs1 & H1 & H & Hs).
    destruct (pr_round it rs w H1) as (evs1 & He1 & Ht1 & Hs1).
    rewrite Hlen in Ht1.
    apply round_result in H1 as (Hl1 & _).
    destruct (IH (S it) rs1 ltac:(congruence) _ _ H)
      as (evs2 & He2 & Ht2 & Hs2).
    exists (evs2 ++ evs1). rewrite Hs, He2, He1, app_assoc.
    split; [reflexivity|]. rewrite requests_of_app, map_app, Ht1, Ht2.
    split; [reflexivity|]. apply Forall_app. now split.
Qed.

(** A run that completes, by its stages. *)
Lemma main_body_completed (n : nat) (w : world) :
  fst (main_body tsub fmt2f E n w) = Ok tt ->
  let w1 := {| calls := calls w; ticks := S (ticks w);
               events := EvOpen response_txt :: events w |} in
  exists rs0 rs ws total evs,
    fst (seeds tsub E 3 w1) = Ok rs0
    /\ fst (rounds tsub E n 0 rs0 (snd (seeds tsub E 3 w1))) = Ok rs
    /\ events (snd (rounds tsub E n 0 rs0 (snd (seeds tsub E 3 w1))))
       = evs ++ events w1
    /\ quiet evs
    /\ events (snd (main_body tsub fmt2f E n w))
       = EvClose response_txt :: writes_of ws ++ evs ++ events w1
    /\ concat ws = transcript fmt2f total rs.
Proof.
  intros H w1. rewrite main_body_stages in H |- *. cbv zeta in H |- *.
  fold w1 in H |- *.
  destruct (mp_seeds tsub E 3 w1) as (evs1 & He1 & [Hq1 _]).
  destruct (seeds tsub E 3 w1) as [[rs0|e] w2]; cbn [fst snd] in *;
    [|discriminate].
  exists rs0.
  destruct (mp_rounds tsub E n 0 rs0 w2) as (evs2 & He2 & [Hq2 _]).
  destruct (rounds tsub E n 0 rs0 w2) as [[rs|e] w3]; cbn [fst snd] in *;
    [|discriminate].
  set (w4 := {| calls := calls w3; ticks := S (ticks w3);
                events := events w3 |}) in *.
  set (total := tsub (time E (ticks w3)) (time E (ticks w))) in *.
  destruct (wt_write_summary fmt2f total rs w4) as (ws & Hew & How).
  rewrite H in How.
  exists rs, ws, total, (evs2 ++ evs1).
  split; [reflexivity|]. split; [reflexivity|].
  split; [rewrite He2, He1; apply app_assoc|].
  split; [now apply quiet_app|].
  split; [|exact How].
  cbn [emit snd events]. rewrite Hew. unfold w4. cbn [events].
  rewrite He2, He1. now rewrite <- !app_assoc.
Qed.

Lemma run_tokens_length (n : nat) : length (run_tokens n) = 3 + 7 * n.
Proof.
  unfold run_tokens. rewrite length_app. simpl length at 1. f_equal.
  induction n as [|n IH]; cbn [repeat concat]; [reflexivity|].
  rewrite length_app, IH. simpl length. lia.
Qed.

(** X7: a run that completes issues exactly [3 + 7 * n] model calls: three
    seed requests of 1024 tokens, then in every round, for each of the three
    candidates, a feedback request of 512 and a grading request of 100
    tokens, and one refinement request of 1024 tokens.  Every request names
    the same model and system prompt and carries one user message. *)
Theorem run_call_protocol (n : nat) (w : world) :
  fst (main_body tsub fmt2f E n w) = Ok tt ->
  exists evs,
    events (snd (main tsub fmt2f E n w)) = evs ++ events w
    /\ map maxTokens (requests_of evs) = run_tokens n
    /\ length (calls_of evs) = 3 + 7 * n
    /\ Forall standard_request (requests_of evs).
Proof.
  intros H. rewrite (main_of_completed_body _ _ _ _ _ H).
  destruct (main_body_completed n w H)
    as (rs0 & rs & ws & total & evs & Hs0 & Hr & He & Hq & Hev & _).
  set (w1 := {| calls := calls w; ticks := S (ticks w);
                events := EvOpen response_txt :: events w |}) in *.
  destruct (pr_seeds 3 w1 Hs0) as (evs1 & He1 & Ht1 & Hst1).
  destruct (@pr_rounds n 0 rs0 (seeds_length _ _ _ _ Hs0) _ _ Hr)
    as (evs2 & He2 & Ht2 & Hst2).
  assert (Hevs : evs = evs2 ++ evs1).
  { rewrite He2, He1, app_assoc in He. now apply app_inv_tail in He. }
  subst evs.
  exists (EvClose response_txt :: writes_of ws ++ (evs2 ++ evs1)
          ++ [EvOpen response_txt]).
  split.
  { rewrite Hev. cbn [events w1]. cbn [app].
    now rewrite <- !app_assoc. }
  assert (Hreq : requests_of
            (EvClose response_txt :: writes_of ws ++ (evs2 ++ evs1)
             ++ [EvOpen response_txt])
          = requests_of evs1 ++ requests_of evs2).
  { change (EvClose response_txt :: writes_of ws ++ (evs2 ++ evs1)
            ++ [EvOpen response_txt])
      with ([EvClose response_txt] ++ writes_of ws ++ (evs2 ++ evs1)
            ++ [EvOpen response_txt]).
    rewrite !requests_of_app. unfold requests_of at 1 4 5.
    rewrite calls_of_writes. cbn [calls_of flat_map rev map app].
    now rewrite !app_nil_r. }
  assert (Htok : map maxTokens (requests_of evs1 ++ requests_of evs2)
                 = run_tokens n).
  { rewrite map_app, Ht1, Ht2. reflexivity. }
  rewrite Hreq. split; [exact Htok|]. split.
  - rewrite <- run_tokens_length, <- Htok, <- Hreq.
    unfold requests_of. now rewrite !length_map, length_rev.
  - apply Forall_app. now split.
Qed.
End ProtocolProps.

Lemma run_call_protocol_witness :
  exists evs,
    events (snd (main Nat.sub demo_fmt demo_env 1 world0)) = evs
    /\ map maxTokens (requests_of evs)
       = [1024; 1024; 1024; 512; 100; 512; 100; 512; 100; 1024]%Z
    /\ length (calls_of evs) = 10.
Proof.
  destruct (@run_call_protocol nat Nat.sub demo_fmt demo_env 1 world0)
    as (evs & He & Ht & Hl & _); [vm_compute; reflexivity|].
  exists evs. cbn [events world0] in He. rewrite app_nil_r in He.
  repeat split; assumption.
Defined.

(** ** The last call of a run and the candidates it keeps *)

Section LastCall.
Variable T : Type.
Variable tsub : T -> T -> T.
Variable fmt2f : T -> text.
Variable E : env T.

Lemma refine_best_last (it : nat) (ranked rs' : list (candidate T))
    (w : world) :
  fst (refine_best E it ranked w) = Ok rs' ->
  exists best rest reply evs,
    ranked = best :: rest
    /\ rs' = set_response best (rtext reply) :: rest
    /\ events (snd (refine_best E it ranked w)) = evs ++ events w
    /\ calls_of evs = [(refine_request best, Answer reply)].
Proof.
  destruct ranked as [|best rest]; cbn [refine_best]; [discriminate|].
  unfold generate_conversation, bind, log, emit, call_converse, ret.
  cbn [fst snd calls ticks events]. fold (refine_request best).
  destruct (converse E (calls w) (refine_request best)) as [reply|msg];
    cbn [fst snd events]; [|discriminate].
  intros [= <-]. exists best, rest, reply.
  eexists (_ :: _ :: _ :: _ :: _ :: _ :: [_]).
  repeat split.
Qed.




Lemma assess_all_times (rs : list (candidate T)) :
  forall w graded,
    fst (assess_all tsub E rs w) = Ok graded ->
    map (@time_taken T) graded = map (@time_taken T) rs.
Proof.
  induction rs as [|r rs IH]; intros w graded H; cbn [assess_all] in H.
  - injection H as <-. reflexivity.
  - apply fst_bind_Ok in H as (c & Hc & H & _).
    apply fst_bind_Ok in H as (cs & Hcs & H & _).
    injection H as <-.
    apply assess_result in Hc as (_ & Ht & _).
    apply IH in Hcs. cbn [map]. congruence.
Qed.

Lemma round_times (it : nat) (rs rs' : list (candidate T)) (w : world) :
  fst (round tsub E it rs w) = Ok rs' ->
  Permutation (map (@time_taken T) rs) (map (@time_taken T) rs').
Proof.
  unfold round. intros H.
  apply fst_bind_Ok in H as (u & _ & H & _).
  apply fst_bind_Ok in H as (graded & Hg & H & _).
  apply fst_bind_Ok in H as (ranked & Hs & H & _).
  apply assess_all_times in Hg. rewrite <- Hg.
  unfold lift in Hs. cbn [fst] in Hs. apply sorted_by_grade_Ok in Hs.
  apply refine_best_last in H as (best & rest & reply & evs & Hr & -> & _).
  pose proof (sorted_desc_perm (@grade_key T) graded) as Hp.
  rewrite <- Hs, Hr in Hp.
  apply (Permutation_map (@time_taken T)) in Hp. exact Hp.
Qed.

(** X9: the rounds never drop, add or duplicate a candidate: whatever the
    order the grades put them in, the candidates after the rounds carry the
    generation times of the candidates before them, each once. *)
Theorem rounds_keep_candidates (n : nat) :
  forall it rs rs' w,
    fst (rounds tsub E n it rs w) = Ok rs' ->
    length rs' = length rs
    /\ Permutation (map (@time_taken T) rs) (map (@time_taken T) rs').
Proof.
  induction n as [|n IH]; intros it rs rs' w H; cbn [rounds] in H.
  - injection H as <-. split; reflexivity.
  - apply fst_bind_Ok in H as (rs1 & H1 & H & _).
    pose proof (round_times _ _ _ H1) as Hp1.
    apply round_result in H1 as (Hl1 & _).
    apply IH in H as (Hl & Hp).
    split; [congruence|]. now rewrite Hp1.
Qed.
End LastCall.


Lemma rounds_keep_candidates_witness :
  length demo_final = 3
  /\ Permutation (map (@time_taken nat) demo_seeds)
                 (map (@time_taken nat) demo_final).
Proof.
  destruct (@rounds_keep_candidates nat Nat.sub demo_env 1 0 demo_seeds
              demo_final (snd demo_seeded)) as [Hl Hp];
    [vm_compute; reflexivity|].
  split; [rewrite Hl; vm_compute; reflexivity | exact Hp].
Defined.

(** ** The rendered text is safe markup *)

Lemma safe_markup_skipn (s : text) (k : nat) :
  safe_markup s = true -> safe_markup (skipn k s) = true.
Proof.
  revert s; induction k as [|k IH]; intros [|c s] H; auto.
  cbn [skipn]. apply IH. cbn [safe_markup] in H.
  apply andb_true_iff in H. tauto.
Qed.

Section ReplaceKeepsSafe.
Variables (o : ascii) (old new : text).

(** [new] is safe by itself, whatever follows it. *)
Hypothesis new_safe : forall rest,
  safe_markup (new ++ rest) = safe_markup rest.

(** No tag or entity holds the first character of [old]. *)
Hypothesis old_apart :
  forallb (forallb (fun x => negb (Ascii.eqb o x)))
    (tag_tails ++ entity_tails) = true.

Lemma replace_keeps_prefix (n : text) :
  forallb (fun x => negb (Ascii.eqb o x)) n = true ->
  forall s, starts_with n s = true ->
            starts_with n (replace (o :: old) new s) = true.
Proof.
  induction n as [|a n IH]; intros Hn s Hs; [reflexivity|].
  destruct s as [|c s]; [discriminate Hs|].
  cbn [starts_with forallb] in Hs, Hn.
  apply andb_true_iff in Hs as [Hac Hs].
  apply andb_true_iff in Hn as [Ha Hn].
  apply Ascii.eqb_eq in Hac. subst c.
  rewrite replace_cons. cbn [starts_with].
  apply negb_true_iff in Ha. rewrite Ha. cbn [andb starts_with].
  rewrite Ascii.eqb_refl. cbn [andb]. now apply IH.
Qed.

Lemma replace_keeps_any (names : list text) (s : text) :
  forallb (forallb (fun x => negb (Ascii.eqb o x))) names = true ->
  begins_with_any names s = true ->
  begins_with_any names (replace (o :: old) new s) = true.
Proof.
  unfold begins_with_any. intros Hnames H.
  apply existsb_exists in H as (n & Hin & Hn).
  apply existsb_exists. exists n. split; [exact Hin|].
  rewrite forallb_forall in Hnames.
  apply replace_keeps_prefix; auto.
Qed.

Lemma replace_keeps_safe_char (c : ascii) (s : text) :
  safe_char c s = true -> safe_char c (replace (o :: old) new s) = true.
Proof.
  rewrite forallb_app in old_apart.
  apply andb_true_iff in old_apart as [Htags Hents].
  unfold safe_char.
  destruct (Ascii.eqb c "<"); [now apply replace_keeps_any|].
  destruct (Ascii.eqb c "&"); [now apply replace_keeps_any | auto].
Qed.

Lemma replace_keeps_safe (s : text) :
  safe_markup s = true -> safe_markup (replace (o :: old) new s) = true.
Proof.
  remember (length s) as n eqn:Hn. revert s Hn.
  induction n as [n IH] using lt_wf_ind. intros [|c s] Hn Hs;
    [reflexivity|].
  rewrite replace_cons.
  destruct (starts_with (o :: old) (c :: s)) eqn:Hm.
  - rewrite new_safe.
    eapply IH; [|reflexivity | now apply safe_markup_skipn].
    subst n. rewrite length_skipn. simpl. lia.
  - cbn [safe_markup] in Hs |- *.
    apply andb_true_iff in Hs as [Hc Hs].
    rewrite replace_keeps_safe_char by exact Hc.
    eapply IH; [|reflexivity | exact Hs]. subst n. simpl. lia.
Qed.
End ReplaceKeepsSafe.

Lemma esc_char_safe (c : ascii) :
  forall rest, safe_markup (esc_char c ++ rest) = safe_markup rest.
Proof.
  revert c. intros c; pattern c; revert c; apply all_ascii.
  intros [|] [|] [|] [|] [|] [|] [|] [|] rest; reflexivity.
Qed.

Lemma escape_safe (s : text) : safe_markup (escape s) = true.
Proof.
  rewrite escape_flat_map. induction s as [|c s IH]; [reflexivity|].
  cbn [flat_map]. now rewrite esc_char_safe.
Qed.

Lemma bold_close_nothing (s : text) :
  bold_close (bold_open (escape s)) = bold_open (escape s).
Proof.
  assert (Habs : contains (str "</strong>**") (bold_open (escape s)) = false).
  { destruct (contains (str "</strong>**") (bold_open (escape s))) eqn:Hc;
      [|reflexivity].
    change (str "</strong>**") with (close_start ++ str "trong>**") in Hc.
    apply contains_prefix in Hc.
    assert (Hopen : contains close_start (bold_open (escape s)) = false)
      by (apply replace_keeps_open;
          [apply strong_neutral | apply escape_no_lt]).
    congruence. }
  apply replace_absent, Habs.
Qed.

(** X10: the text rendered into the page is safe markup, whatever the
    transcript holds: every [<] opens one of the tags [<strong>], [</p>],
    [<p>], [<br>] that the rendering itself inserts, every [&] opens one of
    the entities of [html.escape], no quote character occurs, and no line
    break is left. *)
Theorem render_text_safe (s : text) :
  safe_markup (render_text s) = true
  /\ forallb (fun c => negb (Ascii.eqb nl c)) (render_text s) = true.
Proof.
  unfold render_text. rewrite bold_close_nothing. split.
  - unfold line_breaks, paragraphs, bold_open.
    apply replace_keeps_safe; [reflexivity | reflexivity |].
    apply replace_keeps_safe; [reflexivity | reflexivity |].
    apply replace_keeps_safe; [reflexivity | reflexivity |].
    apply escape_safe.
  - unfold line_breaks. rewrite replace_char.
    induction (paragraphs (bold_open (escape s))) as [|c l IH];
      [reflexivity|].
    cbn [flat_map]. rewrite forallb_app, IH, andb_true_r.
    destruct (Ascii.eqb nl c) eqn:Hc; [reflexivity|].
    cbn [forallb]. now rewrite Hc.
Qed.

(** ** The two parts of a transcript *)

Lemma lstrip_clean (s : text) : starts_clean (lstrip s) = true.
Proof.
  induction s as [|c s IH]; [reflexivity|].
  cbn [lstrip]. destruct (is_space c) eqn:Hc; [exact IH|].
  cbn [starts_clean]. now rewrite Hc.
Qed.

Lemma lstrip_of_clean (s : text) : starts_clean s = true -> lstrip s = s.
Proof.
  destruct s as [|c s]; [reflexivity|]. cbn [starts_clean lstrip].
  intros H. apply negb_true_iff in H. now rewrite H.
Qed.

Lemma lstrip_suffix (s : text) : exists l, s = l ++ lstrip s.
Proof.
  induction s as [|c s [l IH]]; [now exists []|].
  cbn [lstrip]. destruct (is_space c).
  - exists (c :: l). cbn [app]. now f_equal.
  - now exists [].
Qed.

Lemma rstrip_prefix (s : text) : exists r, s = rstrip s ++ r.
Proof.
  unfold rstrip. destruct (lstrip_suffix (rev s)) as [l Hl].
  exists (rev l). rewrite <- rev_app_distr, <- Hl. symmetry.
  apply rev_involutive.
Qed.

Lemma strip_infix (s : text) : exists l r, s = l ++ strip s ++ r.
Proof.
  unfold strip. destruct (lstrip_suffix s) as [l Hl].
  destruct (rstrip_prefix (lstrip s)) as [r Hr].
  exists l, r. now rewrite <- Hr.
Qed.

Lemma starts_clean_app (u v : text) :
  u <> [] -> starts_clean (u ++ v) = starts_clean u.
Proof. destruct u; [congruence | reflexivity]. Qed.

(** [strip] is idempotent: a stripped text has no white space at either
    end. *)
Lemma strip_strip (s : text) : strip (strip s) = strip s.
Proof.
  unfold strip at 2. unfold rstrip.
  set (y := lstrip s). set (z := lstrip (rev y)).
  assert (Hz : lstrip z = z) by apply lstrip_of_clean, lstrip_clean.
  assert (Hrz : lstrip (rev z) = rev z).
  { apply lstrip_of_clean. destruct z as [|c z'] eqn:Ez; [reflexivity|].
    destruct (lstrip_suffix (rev y)) as [l Hl]. fold z in Hl.
    rewrite Ez in Hl.
    assert (Hy : y = rev (c :: z') ++ rev l).
    { rewrite <- rev_app_distr, <- Hl. symmetry. apply rev_involutive. }
    pose proof (lstrip_clean s) as Hc. fold y in Hc. rewrite Hy in Hc.
    rewrite starts_clean_app in Hc; [exact Hc|].
    intros Hnil. apply (f_equal (@length _)) in Hnil.
    rewrite length_rev in Hnil. discriminate Hnil. }
  unfold strip, rstrip. rewrite Hrz, rev_involutive, Hz. reflexivity.
Qed.

Lemma starts_with_app_r (p u v : text) :
  starts_with p u = true -> starts_with p (u ++ v) = true.
Proof.
  revert u; induction p as [|a p IH]; intros [|b u] H; try easy.
  cbn [starts_with app] in H |- *.
  apply andb_true_iff in H as [-> H]. cbn [andb]. now apply IH.
Qed.

Lemma contains_app_l (sub m r : text) :
  contains sub m = true -> contains sub (m ++ r) = true.
Proof.
  induction m as [|c m IH]; intros H.
  - cbn [contains] in H. rewrite orb_false_r in H.
    destruct sub; [|discriminate H]. destruct r; reflexivity.
  - rewrite contains_cons in H. cbn [app]. rewrite contains_cons.
    apply orb_true_iff in H as [H|H].
    + change (c :: m ++ r) with ((c :: m) ++ r).
      now rewrite (starts_with_app_r _ _ r H).
    + rewrite (IH H). apply orb_true_r.
Qed.

Lemma contains_app_r (sub l m : text) :
  contains sub m = true -> contains sub (l ++ m) = true.
Proof.
  induction l as [|c l IH]; intros H; [exact H|].
  cbn [app]. rewrite contains_cons, (IH H). apply orb_true_r.
Qed.

Lemma contains_strip (sub s : text) :
  contains sub s = false -> contains sub (strip s) = false.
Proof.
  intros H. destruct (contains sub (strip s)) eqn:Hc; [|reflexivity].
  destruct (strip_infix s) as (l & r & Hs).
  rewrite Hs in H.
  rewrite (contains_app_r _ l _ (contains_app_l _ _ r Hc)) in H.
  discriminate H.
Qed.

(** The text before the first occurrence holds no occurrence. *)
Lemma cut_before_free (o : ascii) (sep s : text) :
  forall a b, cut (o :: sep) s = Some (a, b) ->
              contains (o :: sep) a = false.
Proof.
  induction s as [|c s IH]; intros a b H.
  - cbn in H. discriminate H.
  - change (cut (o :: sep) (c :: s)) with
      (if starts_with (o :: sep) (c :: s)
       then Some ([], skipn (length (o :: sep)) (c :: s))
       else match cut (o :: sep) s with
            | Some (a, b) => Some (c :: a, b)
            | None => None
            end) in H.
    destruct (starts_with (o :: sep) (c :: s)) eqn:Hs.
    + injection H as <- _. reflexivity.
    + destruct (cut (o :: sep) s) as [[a' b']|] eqn:Hc; [|discriminate H].
      injection H as <- <-.
      rewrite contains_cons, (IH _ _ eq_refl), orb_false_r.
      destruct (starts_with (o :: sep) (c :: a')) eqn:Ha; [|reflexivity].
      apply cut_Some in Hc as [Hsplit _]. rewrite Hsplit in Hs.
      change (c :: a' ++ (o :: sep) ++ b')
        with ((c :: a') ++ (o :: sep) ++ b') in Hs.
      rewrite (starts_with_app_r _ _ _ Ha) in Hs. discriminate Hs.
Qed.

(** X11: both parts that [generate_html] cuts out of a transcript are
    trimmed, so trimming them again changes nothing, and neither of them
    holds the marker "SUMMARY OF PROCESS". *)
Theorem split_content_parts (content : text) :
  strip (fst (split_content content)) = fst (split_content content)
  /\ strip (snd (split_content content)) = snd (split_content content)
  /\ contains marker (fst (split_content content)) = false
  /\ contains marker (snd (split_content content)) = false.
Proof.
  unfold split_content, marker.
  change (str "SUMMARY OF PROCESS")
    with ("S"%char :: str "UMMARY OF PROCESS").
  rewrite split_cut.
  destruct (cut _ content) as [[before after]|] eqn:Hc1.
  - rewrite split_cut.
    destruct (cut _ after) as [[between rest]|] eqn:Hc2;
      cbn [fst snd nth length Nat.ltb Nat.leb].
    + repeat split; try apply strip_strip; apply contains_strip.
      * eapply cut_before_free, Hc1.
      * eapply cut_before_free, Hc2.
    + repeat split; try apply strip_strip; apply contains_strip.
      * eapply cut_before_free, Hc1.
      * now apply cut_None.
  - cbn [fst snd nth length Nat.ltb Nat.leb].
    repeat split; try apply strip_strip; try reflexivity.
    apply contains_strip. now apply cut_None.
Qed.

(** ** Token usage never reaches the transcript *)

Lemma alike_bind {A B} (R : A -> A -> Prop) (S : B -> B -> Prop)
    (m1 m2 : M A) (f1 f2 : A -> M B) :
  alike R m1 m2 ->
  (forall a1 a2, R a1 a2 -> alike S (f1 a1) (f2 a2)) ->
  alike S (bind m1 f1) (bind m2 f2).
Proof.
  intros Hm Hf w1 w2 Hw. unfold bind.
  destruct (Hm w1 w2 Hw) as [Hw' Hr].
  destruct (m1 w1) as [[a1|e1] w1'], (m2 w2) as [[a2|e2] w2'];
    cbn [fst snd] in *; try contradiction.
  - now apply Hf.
  - split; [exact Hw' | exact Hr].
Qed.

Lemma alike_ret {A} (R : A -> A -> Prop) (a1 a2 : A) :
  R a1 a2 -> alike R (ret a1) (ret a2).
Proof. intros H w1 w2 Hw. split; [exact Hw | exact H]. Qed.

Lemma alike_lift {A} (r : result A) : alike eq (lift r) (lift r).
Proof.
  intros w1 w2 Hw. split; [exact Hw|]. cbn. destruct r; reflexivity.
Qed.

Lemma alike_emit (e1 e2 : event) :
  shown [e1] = shown [e2] -> alike eq (emit e1) (emit e2).
Proof.
  intros He w1 w2 (Hc & Ht & Hs). split; [|reflexivity].
  split; [exact Hc|]. split; [exact Ht|].
  cbn [emit snd events].
  change (e1 :: events w1) with ([e1] ++ events w1).
  change (e2 :: events w2) with ([e2] ++ events w2).
  unfold shown in *. rewrite !flat_map_app. congruence.
Qed.

Lemma alike_info (msg1 msg2 : text) :
  alike eq (log INFO msg1) (log INFO msg2).
Proof. apply alike_emit. reflexivity. Qed.

Lemma alike_write (p d : text) : alike eq (write p d) (write p d).
Proof. apply alike_emit. reflexivity. Qed.

Lemma alike_getitem {A} (key : String.string) (v : option A) :
  alike eq (getitem key v) (getitem key v).
Proof.
  destruct v as [a|]; [now apply alike_ret|].
  apply (alike_lift (Raise (KeyError (str key)))).
Qed.

Lemma scrub_same (a1 a2 : answer) :
  answer_text a1 = answer_text a2 -> scrub a1 = scrub a2.
Proof.
  destruct a1 as [r1|m1], a2 as [r2|m2]; cbn; intros H;
    try discriminate H; injection H as H; now rewrite H.
Qed.

Section Usage.
Variable T : Type.
Variable tsub : T -> T -> T.
Variable fmt2f : T -> text.
Variables E1 E2 : env T.
Hypothesis same : same_answers E1 E2.

Lemma alike_now : alike eq (now E1) (now E2).
Proof.
  intros w1 w2 (Hc & Ht & Hs). unfold now. cbn [fst snd].
  split; [|rewrite Ht; apply same].
  split; [exact Hc|]. split; [cbn; congruence | exact Hs].
Qed.

Lemma alike_call (q : request) :
  alike same_text (call_converse E1 q) (call_converse E2 q).
Proof.
  intros w1 w2 (Hc & Ht & Hs). unfold call_converse.
  pose proof (proj1 same (calls w1) q) as Ha. rewrite Hc in *.
  pose proof (scrub_same _ _ Ha) as Hscrub.
  destruct (converse E1 (calls w2) q) as [r1|m1],
           (converse E2 (calls w2) q) as [r2|m2];
    cbn [answer_text] in Ha; try discriminate Ha;
    injection Ha as Ha; cbn [fst snd];
    (split; [|assumption || (now f_equal)]);
    (split; [cbn; congruence|]);
    (split; [exact Ht|]); cbn [events];
    unfold shown in *; cbn [flat_map]; cbn [app]; congruence.
Qed.

Lemma alike_generate (mid sys : text) (msgs : list text) (max : Z) :
  alike same_text (generate_conversation E1 mid sys msgs max)
                  (generate_conversation E2 mid sys msgs max).
Proof.
  unfold generate_conversation.
  eapply alike_bind; [apply alike_info | intros _ _ _].
  eapply alike_bind; [apply alike_call | intros r1 r2 Hr].
  eapply alike_bind; [apply alike_info | intros _ _ _].
  eapply alike_bind; [apply alike_info | intros _ _ _].
  eapply alike_bind; [apply alike_info | intros _ _ _].
  eapply alike_bind; [apply alike_info | intros _ _ _].
  now apply alike_ret.
Qed.

Lemma alike_get_feedback (mid resp sys : text) :
  alike eq (get_feedback E1 mid resp sys) (get_feedback E2 mid resp sys).
Proof.
  unfold get_feedback.
  eapply alike_bind; [apply alike_generate | intros r1 r2 Hr].
  now apply alike_ret.
Qed.

Lemma alike_grade_response (mid resp fb sys : text) :
  alike eq (grade_response E1 mid resp fb sys)
           (grade_response E2 mid resp fb sys).
Proof.
  unfold grade_response.
  eapply alike_bind; [apply alike_generate | intros r1 r2 Hr].
  unfold same_text in Hr. rewrite Hr.
  eapply alike_bind; [apply alike_info | intros _ _ _].
  apply alike_lift.
Qed.

Lemma alike_seed : alike eq (seed tsub E1) (seed tsub E2).
Proof.
  unfold seed.
  eapply alike_bind; [apply alike_now | intros t0 ? <-].
  eapply alike_bind; [apply alike_generate | intros r1 r2 Hr].
  eapply alike_bind; [apply alike_now | intros t1 ? <-].
  apply alike_ret. unfold same_text in Hr. now rewrite Hr.
Qed.

Lemma alike_seeds (n : nat) : alike eq (seeds tsub E1 n) (seeds tsub E2 n).
Proof.
  induction n as [|n IH]; cbn [seeds]; [now apply alike_ret|].
  eapply alike_bind; [apply alike_seed | intros c ? <-].
  eapply alike_bind; [exact IH | intros cs ? <-].
  now apply alike_ret.
Qed.

Lemma alike_assess (r : candidate T) :
  alike eq (assess tsub E1 r) (assess tsub E2 r).
Proof.
  unfold assess.
  eapply alike_bind; [apply alike_now | intros t0 ? <-].
  eapply alike_bind; [apply alike_get_feedback | intros fb ? <-].
  eapply alike_bind; [apply alike_now | intros t1 ? <-].
  eapply alike_bind; [apply alike_now | intros t2 ? <-].
  eapply alike_bind; [apply alike_grade_response | intros g ? <-].
  eapply alike_bind; [apply alike_now | intros t3 ? <-].
  now apply alike_ret.
Qed.

Lemma alike_assess_all (rs : list (candidate T)) :
  alike eq (assess_all tsub E1 rs) (assess_all tsub E2 rs).
Proof.
  induction rs as [|r rs IH]; cbn [assess_all]; [now apply alike_ret|].
  eapply alike_bind; [apply alike_assess | intros c ? <-].
  eapply alike_bind; [exact IH | intros cs ? <-].
  now apply alike_ret.
Qed.

Lemma alike_refine_best (it : nat) (rs : list (candidate T)) :
  alike eq (refine_best E1 it rs) (refine_best E2 it rs).
Proof.
  destruct rs as [|best rest]; cbn [refine_best].
  - apply (alike_lift (Raise IndexError)).
  - eapply alike_bind; [apply alike_info | intros _ _ _].
    eapply alike_bind; [apply alike_generate | intros r1 r2 Hr].
    apply alike_ret. unfold same_text in Hr. now rewrite Hr.
Qed.

Lemma alike_round (it : nat) (rs : list (candidate T)) :
  alike eq (round tsub E1 it rs) (round tsub E2 it rs).
Proof.
  unfold round.
  eapply alike_bind; [apply alike_info | intros _ _ _].
  eapply alike_bind; [apply alike_assess_all | intros graded ? <-].
  eapply alike_bind; [apply alike_lift | intros ranked ? <-].
  apply alike_refine_best.
Qed.

Lemma alike_rounds (n : nat) :
  forall it rs, alike eq (rounds tsub E1 n it rs) (rounds tsub E2 n it rs).
Proof.
  induction n as [|n IH]; intros it rs; cbn [rounds];
    [now apply alike_ret|].
  eapply alike_bind; [apply alike_round | intros rs' ? <-]. apply IH.
Qed.

Lemma alike_write_candidates (rs : list (candidate T)) :
  forall i, alike eq (write_candidates fmt2f i rs)
                     (write_candidates fmt2f i rs).
Proof.
  induction rs as [|r rs IH]; intros i; cbn [write_candidates];
    [now apply alike_ret|].
  eapply alike_bind; [|intros _ _ _; apply IH].
  unfold write_candidate.
  do 5 (eapply alike_bind; [apply alike_write | intros _ _ _]).
  eapply alike_bind; [apply alike_getitem | intros ft ? <-].
  eapply alike_bind; [apply alike_write | intros _ _ _].
  eapply alike_bind; [apply alike_getitem | intros gt ? <-].
  apply alike_write.
Qed.

Lemma alike_write_summary (total : T) (rs : list (candidate T)) :
  alike eq (write_summary fmt2f total rs) (write_summary fmt2f total rs).
Proof.
  unfold write_summary.
  do 3 (eapply alike_bind; [apply alike_write | intros _ _ _]).
  eapply alike_bind; [apply alike_write_candidates | intros _ _ _].
  eapply alike_bind; [apply alike_write | intros _ _ _].
  destruct rs as [|best rest];
    [apply (alike_lift (Raise IndexError)) | apply alike_write].
Qed.

Lemma alike_main_body (n : nat) :
  alike eq (main_body tsub fmt2f E1 n) (main_body tsub fmt2f E2 n).
Proof.
  unfold main_body.
  eapply alike_bind; [apply alike_now | intros start ? <-].
  intros w1 w2 Hw. unfold with_open_w.
  assert (Hbody : alike eq
    (bind (emit (EvOpen response_txt))
       (fun _ => bind (seeds tsub E1 3)
          (fun rs => bind (rounds tsub E1 n 0 rs)
             (fun rs0 => bind (now E1)
                (fun t => write_summary fmt2f (tsub t start) rs0)))))
    (bind (emit (EvOpen response_txt))
       (fun _ => bind (seeds tsub E2 3)
          (fun rs => bind (rounds tsub E2 n 0 rs)
             (fun rs0 => bind (now E2)
                (fun t => write_summary fmt2f (tsub t start) rs0)))))).
  { eapply alike_bind; [now apply alike_emit | intros _ _ _].
    eapply alike_bind; [apply alike_seeds | intros rs ? <-].
    eapply alike_bind; [apply alike_rounds | intros rs0 ? <-].
    eapply alike_bind; [apply alike_now | intros t ? <-].
    apply alike_write_summary. }
  destruct (Hbody w1 w2 Hw) as [Hw' Hr].
  destruct (bind (emit (EvOpen response_txt)) _ w1) as [r1 w1'].
  destruct (bind (emit (EvOpen response_txt)) _ w2) as [r2 w2'].
  cbn [fst snd] in *. split; [|exact Hr].
  apply (proj1 (@alike_emit (EvClose response_txt) (EvClose response_txt)
                  eq_refl w1' w2' Hw')).
Qed.

Lemma alike_main (n : nat) :
  alike eq (main tsub fmt2f E1 n) (main tsub fmt2f E2 n).
Proof.
  intros w1 w2 Hw. unfold main.
  pose proof (alike_main_body n) as Hb.
  destruct (Hb w1 w2 Hw) as [Hw' Hr].
  destruct (main_body tsub fmt2f E1 n w1) as [[u1|e1] w1'],
           (main_body tsub fmt2f E2 n w2) as [[u2|e2] w2'];
    cbn [fst snd] in *; try contradiction.
  - split; [exact Hw'|]. now destruct u1, u2.
  - subst e2. destruct e1 as [msg|m| | |]; cbn [fst snd];
      try (split; [exact Hw' | reflexivity]).
    apply (alike_bind (R := eq) (S := eq));
      [now apply alike_emit | intros _ _ _; now apply alike_emit | exact Hw'].
Qed.

Lemma file_step_shown (p : text) (evs : list event) (cur : option text) :
  fold_right (fun e acc => file_step p acc e) cur (shown evs)
  = fold_right (fun e acc => file_step p acc e) cur evs.
Proof.
  induction evs as [|e evs IH]; [reflexivity|].
  unfold shown in *. cbn [flat_map]. rewrite fold_right_app, IH.
  destruct e as [q a|[|] msg|path|path d|path|msg]; reflexivity.
Qed.

Lemma file_content_shown (p : text) (w1 w2 : world) :
  shown (events w1) = shown (events w2) ->
  file_content p w1 = file_content p w2.
Proof.
  intros H. unfold file_content, history.
  rewrite <- !fold_left_rev_right, !rev_involutive.
  rewrite <- (file_step_shown p (events w1)),
          <- (file_step_shown p (events w2)).
  now rewrite H.
Qed.

(** X12: token counts and stop reasons are logged and nothing else: two
    runs whose answers carry the same texts (and whose clocks agree) end in
    the same way, send the same requests, print and write the same, and
    leave the same file, whatever usage figures the answers report. *)
Theorem usage_is_only_logged (n : nat) (w : world) :
  fst (main tsub fmt2f E1 n w) = fst (main tsub fmt2f E2 n w)
  /\ shown (events (snd (main tsub fmt2f E1 n w)))
     = shown (events (snd (main tsub fmt2f E2 n w)))
  /\ file_content response_txt (snd (main tsub fmt2f E1 n w))
     = file_content response_txt (snd (main tsub fmt2f E2 n w)).
Proof.
  pose proof (alike_main n) as Hm.
  destruct (Hm w w) as [(_ & _ & Hs) Hr]; [repeat split|].
  split; [|split; [exact Hs | now apply file_content_shown]].
  destruct (fst (main tsub fmt2f E1 n w)) as [u1|e1],
           (fst (main tsub fmt2f E2 n w)) as [u2|e2];
    try contradiction; [now destruct u1, u2 | now subst].
Qed.
End Usage.

Lemma usage_is_only_logged_witness :
  same_answers demo_env demo_env_other_usage
  /\ events (snd (main Nat.sub demo_fmt demo_env 1 world0))
     <> events (snd (main Nat.sub demo_fmt demo_env_other_usage 1 world0))
  /\ file_content response_txt
       (snd (main Nat.sub demo_fmt demo_env 1 world0))
     = file_content response_txt
         (snd (main Nat.sub demo_fmt demo_env_other_usage 1 world0)).
Proof.
  assert (Hsame : same_answers demo_env demo_env_other_usage).
  { split; [|reflexivity]. intros k q. cbn [converse demo_env_other_usage].
    destruct (converse demo_env k q); reflexivity. }
  split; [exact Hsame|]. split; [vm_compute; discriminate|].
  apply (@usage_is_only_logged nat Nat.sub demo_fmt demo_env
           demo_env_other_usage Hsame 1 world0).
Defined.

(** ** How a run can end *)

Lemma fo_bind {T A B} (E : env T) (m : M A) (f : A -> M B) :
  fails_only E m ->
  (forall w a, fst (m w) = Ok a -> fails_only E (f a)) ->
  fails_only E (bind m f).
Proof.
  intros Hm Hf w e H.
  apply fst_bind_Raise in H as [H|(a & Ha & H)].
  - exact (Hm w e H).
  - exact (Hf w a Ha _ e H).
Qed.

Lemma fo_never {T A} (E : env T) (m : M A) :
  (forall w, exists a, fst (m w) = Ok a) -> fails_only E m.
Proof. intros H w e He. destruct (H w) as [a Ha]. congruence. Qed.

Section Outcomes.
Variable T : Type.
Variable tsub : T -> T -> T.
Variable fmt2f : T -> text.
Variable E : env T.

Lemma fo_now : fails_only E (now E).
Proof. apply fo_never. intros w. eexists. reflexivity. Qed.

Lemma fo_log (l : level) (msg : text) : fails_only E (log l msg).
Proof. apply fo_never. intros w. eexists. reflexivity. Qed.

Lemma fo_ret {A} (a : A) : fails_only E (ret a).
Proof. apply fo_never. intros w. eexists. reflexivity. Qed.

Lemma fo_generate (mid sys : text) (msgs : list text) (max : Z) :
  fails_only E (generate_conversation E mid sys msgs max).
Proof.
  intros w e. unfold generate_conversation, bind, log, emit, call_converse,
    ret. cbn [fst snd calls ticks events].
  destruct (converse E (calls w) _) as [r|msg] eqn:Ha; cbn [fst snd];
    [discriminate|].
  intros [= <-]. split; [left; eauto|].
  intros Hob. destruct (Hob (calls w)
    {| modelId := mid; system := sys; messages := msgs; maxTokens := max |})
    as (r & Hr & _). congruence.
Qed.

Lemma fo_grade_response (mid resp fb sys : text) :
  fails_only E (grade_response E mid resp fb sys).
Proof.
  intros w e H.
  destruct (grade_response_run E mid resp fb sys w) as (_ & _ & _ & _ & Hr).
  rewrite Hr in H. clear Hr.
  set (q := {| modelId := mid; system := sys;
               messages := [grading_prompt resp fb];
               maxTokens := 100 |}) in *.
  destruct (converse E (calls w) q) as [r|msg] eqn:Ha.
  - destruct (extract_grade_total (strip (rtext r)))
      as [[Hx _]|(_ & _ & _ & z & Hz & _)]; [|congruence].
    rewrite Hx in H. injection H as <-. split; [right; eauto|].
    intros Hob. destruct (Hob (calls w) q) as (r' & Hr' & Hg).
    assert (r' = r) as -> by congruence.
    destruct (Hg eq_refl) as [z Hz]. congruence.
  - injection H as <-. split; [left; eauto|].
    intros Hob. destruct (Hob (calls w) q) as (r' & Hr' & _). congruence.
Qed.

Lemma fo_seeds (n : nat) : fails_only E (seeds tsub E n).
Proof.
  induction n as [|n IH]; cbn [seeds]; [apply fo_ret|].
  apply fo_bind.
  - unfold seed. apply fo_bind; [apply fo_now | intros _ t0 _].
    apply fo_bind; [apply fo_generate | intros _ r _].
    apply fo_bind; [apply fo_now | intros _ t1 _]. apply fo_ret.
  - intros _ c _. apply fo_bind; [exact IH | intros _ cs _; apply fo_ret].
Qed.

Lemma fo_assess (r : candidate T) : fails_only E (assess tsub E r).
Proof.
  unfold assess. apply fo_bind; [apply fo_now | intros _ t0 _].
  apply fo_bind.
  { unfold get_feedback.
    apply fo_bind; [apply fo_generate | intros _ r0 _; apply fo_ret]. }
  intros _ fb _.
  apply fo_bind; [apply fo_now | intros _ t1 _].
  apply fo_bind; [apply fo_now | intros _ t2 _].
  apply fo_bind; [apply fo_grade_response | intros _ g _].
  apply fo_bind; [apply fo_now | intros _ t3 _]. apply fo_ret.
Qed.

Lemma fo_assess_all (rs : list (candidate T)) :
  fails_only E (assess_all tsub E rs).
Proof.
  induction rs as [|r rs IH]; cbn [assess_all]; [apply fo_ret|].
  apply fo_bind; [apply fo_assess | intros _ c _].
  apply fo_bind; [exact IH | intros _ cs _; apply fo_ret].
Qed.

Lemma assessed_has_grade (rs : list (candidate T)) :
  Forall (@assessed T) rs -> forallb (@has_grade T) rs = true.
Proof.
  induction 1 as [|r rs (_ & [g Hg] & _) _ IH]; [reflexivity|].
  cbn [forallb]. unfold has_grade at 1. now rewrite Hg.
Qed.

Lemma sorted_by_grade_of_assessed (rs : list (candidate T)) :
  Forall (@assessed T) rs ->
  sorted_by_grade rs = Ok (sorted_desc (@grade_key T) rs).
Proof.
  intros Ha. unfold sorted_by_grade. rewrite (assessed_has_grade Ha).
  destruct rs as [|a [|b rs]]; reflexivity.
Qed.

Lemma fo_round (it : nat) (rs : list (candidate T)) :
  rs <> [] -> fails_only E (round tsub E it rs).
Proof.
  intros Hne. unfold round.
  apply fo_bind; [apply fo_log | intros _ u _].
  apply fo_bind; [apply fo_assess_all | intros w graded Hg].
  apply assess_all_result in Hg as (Hl & Ha & _).
  apply fo_bind.
  { apply fo_never. intros w0. unfold lift. cbn [fst].
    rewrite (sorted_by_grade_of_assessed Ha). eauto. }
  intros w0 ranked Hs. unfold lift in Hs. cbn [fst] in Hs.
  rewrite (sorted_by_grade_of_assessed Ha) in Hs. injection Hs as <-.
  pose proof (Permutation_length (sorted_desc_perm (@grade_key T) graded))
    as Hlen.
  destruct (sorted_desc (@grade_key T) graded) as [|best rest].
  - destruct rs; [congruence | simpl in *; lia].
  - cbn [refine_best].
    apply fo_bind; [apply fo_log | intros _ u0 _].
    apply fo_bind; [apply fo_generate | intros _ r _; apply fo_ret].
Qed.

Lemma fo_rounds (n : nat) :
  forall it rs, rs <> [] -> fails_only E (rounds tsub E n it rs).
Proof.
  induction n as [|n IH]; intros it rs Hne; cbn [rounds]; [apply fo_ret|].
  apply fo_bind; [now apply fo_round | intros w rs' Hr].
  apply IH. apply round_result in Hr as (Hl & _).
  destruct rs'; [destruct rs; [congruence | discriminate Hl] | discriminate].
Qed.

Lemma write_candidates_ok (rs : list (candidate T)) :
  Forall (@assessed T) rs ->
  forall i w, fst (write_candidates fmt2f i rs w) = Ok tt.
Proof.
  induction 1 as [|r rs (_ & _ & [ft Hft] & [gt Hgt]) _ IH]; intros i w;
    [reflexivity|].
  cbn [write_candidates].
  assert (Hc : forall w0, fst (write_candidate fmt2f i r w0) = Ok tt).
  { intros w0. unfold write_candidate, bind, write, emit, getitem.
    rewrite Hft, Hgt. reflexivity. }
  rewrite (snd_bind_Ok _ _ _ (Hc w)). apply IH.
Qed.

Lemma write_summary_ok (total : T) (rs : list (candidate T)) (w : world) :
  Forall (@assessed T) rs -> rs <> [] ->
  fst (write_summary fmt2f total rs w) = Ok tt.
Proof.
  intros Ha Hne. unfold write_summary.
  unfold bind at 1. unfold write at 1. unfold emit at 1.
  unfold bind at 1. unfold write at 1. unfold emit at 1.
  unfold bind at 1. unfold write at 1. unfold emit at 1.
  rewrite (snd_bind_Ok _ _ _ (write_candidates_ok Ha 0 _)).
  destruct rs as [|best rest]; [congruence | reflexivity].
Qed.

(** How the body of [main] ends when at least one round is asked for. *)
Lemma main_body_outcome (n : nat) (w : world) :
  1 <= n ->
  fst (main_body tsub fmt2f E n w) = Ok tt
  \/ exists e, fst (main_body tsub fmt2f E n w) = Raise e
               /\ model_failure E e.
Proof.
  intros Hn. rewrite main_body_stages. cbv zeta.
  set (w1 := {| calls := calls w; ticks := S (ticks w);
                events := EvOpen response_txt :: events w |}).
  pose proof (fo_seeds 3 w1) as Hfs.
  pose proof (@seeds_length T tsub E 3 w1) as Hlen.
  destruct (seeds tsub E 3 w1) as [[rs0|e] w2]; cbn [fst snd] in *.
  2:{ right. exists e. split; [reflexivity | now apply Hfs]. }
  specialize (Hlen rs0 eq_refl).
  assert (Hne : rs0 <> []) by (destruct rs0; [discriminate | discriminate]).
  pose proof (@fo_rounds n 0 rs0 Hne w2) as Hfr.
  pose proof (fun rs' => @rounds_result T tsub E n 0 rs0 rs' w2) as Hres.
  destruct (rounds tsub E n 0 rs0 w2) as [[rs|e] w3]; cbn [fst snd] in *.
  2:{ right. exists e. split; [reflexivity | now apply Hfr]. }
  left. destruct (Hres rs eq_refl) as [Hl Ha]. destruct (Ha Hn) as [Hall _].
  apply write_summary_ok; [exact Hall|].
  destruct rs; [rewrite Hlen in Hl; discriminate Hl | discriminate].
Qed.

(** X13: with at least one round, [main] either returns or raises the
    [ValueError] of a grading answer without a grade.  No [KeyError],
    [IndexError] or [TypeError] can arise: a round sets every key the
    summary reads, grades every candidate before the sort, and keeps the
    list non-empty; a client error is always caught. *)
Theorem main_returns_or_ValueError (n : nat) (w : world) :
  1 <= n ->
  fst (main tsub fmt2f E n w) = Ok tt
  \/ exists m, fst (main tsub fmt2f E n w) = Raise (ValueError m).
Proof.
  intros Hn. unfold main.
  destruct (main_body_outcome w Hn) as [H|(e & H & [[[msg ->]|[m ->]] _])];
    destruct (main_body tsub fmt2f E n w) as [res w']; cbn [fst] in H;
    subst res; [left | left | right; exists m]; reflexivity.
Qed.

(** X14: when every call is answered and every grading answer holds a
    grade, a run of at least one round completes. *)
Theorem obliging_run_completes (n : nat) (w : world) :
  obliging E -> 1 <= n ->
  fst (main_body tsub fmt2f E n w) = Ok tt.
Proof.
  intros Hob Hn.
  destruct (main_body_outcome w Hn) as [H|(e & _ & _ & Hno)];
    [exact H | contradiction].
Qed.
End Outcomes.

Lemma main_returns_or_ValueError_witness :
  fst (main Nat.sub demo_fmt demo_env 1 world0) = Ok tt
  \/ exists m,
       fst (main Nat.sub demo_fmt demo_env 1 world0) = Raise (ValueError m).
Proof.
  apply (@main_returns_or_ValueError nat Nat.sub demo_fmt demo_env 1 world0).
  lia.
Defined.

Lemma obliging_run_completes_witness :
  obliging obliging_env
  /\ fst (main_body Nat.sub demo_fmt obliging_env 5 world0) = Ok tt.
Proof.
  assert (Hob : obliging obliging_env).
  { intros k q. eexists. split; [reflexivity|].
    intros _. exists 90%Z. vm_compute. reflexivity. }
  split; [exact Hob|].
  apply (@obliging_run_completes nat Nat.sub demo_fmt obliging_env 5 world0);
    [exact Hob | lia].
Defined.
